(** * Sliding-window and augmented inference (semantic_segmentation/src/core/infer.py)

    A shallow embedding of [slide_inference], [inference] and [aug_inference].

    Conventions of the embedding
    - Python integers are [Z]; tensor elements (float32/float64 in the
      source) are idealised as exact rationals [Qc], so that sums of
      window contributions and the division by the coverage count are the
      mathematical ones.  Scale factors are rationals [Q].
    - A 4-dimensional tensor (N, C, H, W) is a nested list, outermost axis
      first.
    - The model is a black box from an image tensor to a sequence of
      tensors.  Every invocation is recorded: a computation is a pair of
      its outcome (a value or the Python exception raised) and the list of
      tensors the model was called on, in call order.
    - [paddle]'s [F.interpolate] and [F.softmax] are not part of the
      repository; they are fields of a [Backend] record. *)

From Stdlib Require Import ZArith List Lia Bool String Ascii QArith Qcanon Qround
  Permutation.
Import ListNotations.
Open Scope Z_scope.

(** ** Python exceptions and outcomes *)

Inductive pyerror : Type :=
| TypeError (msg : string)
| ValueError (msg : string)
| ZeroDivisionError
| IndexError.

Inductive result (A : Type) : Type :=
| Ok (a : A)
| Raise (e : pyerror).
Arguments Ok {A} a.
Arguments Raise {A} e.

(** ** Tensors *)

Definition tensor4 (A : Type) : Type := list (list (list (list A))).
Definition tensor : Type := tensor4 Qc.

(** A computation: outcome and the model invocations it performed. *)
Definition M (A : Type) : Type := (result A * list tensor)%type.

Definition ret {A} (a : A) : M A := (Ok a, []).
Definition raise {A} (e : pyerror) : M A := (Raise e, []).
Definition bind {A B} (m : M A) (f : A -> M B) : M B :=
  match m with
  | (Ok a, log) => let '(r, log') := f a in (r, log ++ log')
  | (Raise e, log) => (Raise e, log)
  end.

Notation "x <- c1 ;; c2" := (bind c1 (fun x => c2))
  (at level 61, c1 at next level, right associativity).
Notation "' pat <- c1 ;; c2" := (bind c1 (fun x => match x with pat => c2 end))
  (at level 61, pat pattern, c1 at next level, right associativity).

Definition outcome {A} (m : M A) : result A := fst m.
Definition invocations {A} (m : M A) : list tensor := snd m.

(** [for x in l: s = body x s] *)
Fixpoint for_each {A S} (l : list A) (body : A -> S -> M S) (s : S) : M S :=
  match l with
  | [] => ret s
  | x :: l' => s' <- body x s ;; for_each l' body s'
  end.

(** [range(n)]; empty when [n <= 0]. *)
Definition range (n : Z) : list Z := map Z.of_nat (seq 0 (Z.to_nat n)).

(** [a // b] on Python integers. *)
Definition py_floordiv (a b : Z) : M Z :=
  if b =? 0 then raise ZeroDivisionError else ret (a / b).

(** [int(q)]: truncation towards zero. *)
Definition py_int (q : Q) : Z := Z.quot (Qnum q) (Z.pos (Qden q)).

(** ** Shapes *)

Definition len {A} (l : list A) : Z := Z.of_nat (List.length l).

(** [t.shape[-2]] and [t.shape[-1]] of a 4-dimensional tensor. *)
Definition height {A} (t : tensor4 A) : Z := len (hd [] (hd [] t)).
Definition width {A} (t : tensor4 A) : Z := len (hd [] (hd [] (hd [] t))).

(** [t.shape == (n, c, h, w)] *)
Definition has_shape {A} (t : tensor4 A) (n c h w : Z) : bool :=
  (len t =? n) &&
  forallb (fun im => (len im =? c) &&
    forallb (fun pl => (len pl =? h) &&
      forallb (fun row => len row =? w) pl) im) t.

Definition full {A} (v : A) (n c h w : Z) : tensor4 A :=
  repeat (repeat (repeat (repeat v (Z.to_nat w)) (Z.to_nat h)) (Z.to_nat c))
         (Z.to_nat n).

(** ** Slicing, padding, element-wise arithmetic *)

(** Normalisation of one bound of a slice over a sequence of length [n]. *)
Definition slice_bound (i n : Z) : Z :=
  if i <? 0 then Z.max (i + n) 0 else Z.min i n.

(** [l[lo:hi]] *)
Definition py_slice {A} (lo hi : Z) (l : list A) : list A :=
  let a := slice_bound lo (len l) in
  let b := slice_bound hi (len l) in
  firstn (Z.to_nat (b - a)) (skipn (Z.to_nat a) l).

(** [l[lo:hi] = map f l[lo:hi]], in place. *)
Definition py_slice_update {A} (f : A -> A) (lo hi : Z) (l : list A) : list A :=
  let a := slice_bound lo (len l) in
  let b := slice_bound hi (len l) in
  firstn (Z.to_nat a) l
  ++ map f (firstn (Z.to_nat (b - a)) (skipn (Z.to_nat a) l))
  ++ skipn (Z.to_nat a + Z.to_nat (b - a)) l.

(** [t[:, :, h1:h2, w1:w2]] *)
Definition crop {A} (t : tensor4 A) (h1 h2 w1 w2 : Z) : tensor4 A :=
  map (map (fun pl => map (py_slice w1 w2) (py_slice h1 h2 pl))) t.

(** [t[:, :, h1:h2, w1:w2] += 1] *)
Definition crop_incr (t : tensor4 Z) (h1 h2 w1 w2 : Z) : tensor4 Z :=
  map (map (py_slice_update (py_slice_update (fun x => x + 1) w1 w2) h1 h2)) t.

(** [t[:, :, :, ::-1]] *)
Definition flip_w {A} (t : tensor4 A) : tensor4 A :=
  map (map (map (@rev A))) t.

(** [F.pad(t, [left, right, top, bottom])] with constant value 0 on the
    last two axes. *)
Definition pad_row (left right : Z) (row : list Qc) : list Qc :=
  repeat 0%Qc (Z.to_nat left) ++ row ++ repeat 0%Qc (Z.to_nat right).

Definition pad_plane (left right top bottom : Z) (pl : list (list Qc))
  : list (list Qc) :=
  let blank := repeat 0%Qc (List.length (pad_row left right (hd [] pl))) in
  repeat blank (Z.to_nat top)
  ++ map (pad_row left right) pl
  ++ repeat blank (Z.to_nat bottom).

Definition pad (t : tensor) (left right top bottom : Z) : tensor :=
  map (map (pad_plane left right top bottom)) t.

(** Element-wise combination of two lists of the same length. *)
Fixpoint zip_strict {A B C} (f : A -> B -> option C)
         (l1 : list A) (l2 : list B) : option (list C) :=
  match l1, l2 with
  | [], [] => Some []
  | x :: l1', y :: l2' =>
      match f x y, zip_strict f l1' l2' with
      | Some z, Some r => Some (z :: r)
      | _, _ => None
      end
  | _, _ => None
  end.

(** [a + b] on tensors of equal shape; operands of different shapes are
    rejected (broadcasting between tensors is not modelled). *)
Definition tadd (a b : tensor) : M tensor :=
  match zip_strict (zip_strict (zip_strict (zip_strict
          (fun x y => Some (x + y)%Qc)))) a b with
  | Some t => ret t
  | None => raise (ValueError "operands could not be broadcast together")
  end.

(** [z + t] for a Python number [z]: the scalar is broadcast. *)
Definition scalar_add (z : Z) (t : tensor) : tensor :=
  map (map (map (map (fun x => (Q2Qc (inject_Z z) + x)%Qc)))) t.

Fixpoint zip_with {A B C} (f : A -> B -> C) (l1 : list A) (l2 : list B)
  : list C :=
  match l1, l2 with
  | x :: l1', y :: l2' => f x y :: zip_with f l1' l2'
  | _, _ => []
  end.

(** [logit / count] with [count] of shape (1, 1, H, W) broadcast over the
    channel axis.  Where the count is 0 numpy yields nan or inf; [Qc] has
    no such value ([x / 0] is 0 there), so entries with a zero count are
    not meaningful in this model. *)
Definition div_count (logit : tensor) (count : tensor4 Z) : tensor :=
  let cnt := hd [] (hd [] count) in
  map (map (fun pl =>
    zip_with (zip_with (fun x k => (x / Q2Qc (inject_Z k))%Qc)) pl cnt)) logit.

(** ** The model *)

Definition model_t : Type := tensor -> list tensor.

(** [model(x)] *)
Definition call_model (model : model_t) (x : tensor) : M (list tensor) :=
  (Ok (model x), [x]).

(** [logits[0]] *)
Definition first_output (logits : list tensor) : M tensor :=
  match logits with
  | y :: _ => ret y
  | [] => raise IndexError
  end.

(** ** slide_inference *)

(** Lines 36-41: the window of grid position (r, c), as (h1, h2, w1, w2). *)
Definition window (h_img w_img h_crop w_crop h_stride w_stride r c : Z)
  : Z * Z * Z * Z :=
  let h1 := r * h_stride in
  let w1 := c * w_stride in
  let h2 := Z.min (h1 + h_crop) h_img in
  let w2 := Z.min (w1 + w_crop) w_img in
  let h1 := Z.max (h2 - h_crop) 0 in
  let w1 := Z.max (w2 - w_crop) 0 in
  (h1, h2, w1, w2).

(** Lines 27-31: the number of window rows and columns. *)
Definition crop_nums (h_img w_img h_crop w_crop h_stride w_stride : Z)
  : M (Z * Z) :=
  q <- py_floordiv (Z.max (h_img - h_crop + h_stride - 1) 0) h_stride ;;
  let rows := q + 1 in
  q <- py_floordiv (Z.max (w_img - w_crop + w_stride - 1) 0) w_stride ;;
  let cols := q + 1 in
  let rows := if h_img <=? h_crop then 1 else rows in
  let cols := if w_img <=? w_crop then 1 else cols in
  ret (rows, cols).

(** Lines 36-46: one iteration of the inner loop on the pair
    (final_logit, count). *)
Definition slide_step (model : model_t) (img : tensor)
           (h_img w_img h_crop w_crop h_stride w_stride r c : Z)
           (st : tensor * tensor4 Z) : M (tensor * tensor4 Z) :=
  let '(final_logit, count) := st in
  let '(h1, h2, w1, w2) :=
    window h_img w_img h_crop w_crop h_stride w_stride r c in
  let img_crop := crop img h1 h2 w1 w2 in
  logits <- call_model model img_crop ;;
  logit <- first_output logits ;;
  final_logit <- tadd final_logit
                   (pad logit w1 (w_img - w2) h1 (h_img - h2)) ;;
  let count := crop_incr count h1 h2 w1 w2 in
  ret (final_logit, count).

(** Lines 23-46: the tiling pass; returns the accumulated logits and the
    coverage count map. *)
Definition slide_pass (model : model_t) (img : tensor)
           (crop_size stride_size : Z * Z) (num_classes : Z)
  : M (tensor * tensor4 Z) :=
  let h_img := height img in
  let w_img := width img in
  let '(w_crop, h_crop) := crop_size in
  let '(w_stride, h_stride) := stride_size in
  '(rows, cols) <- crop_nums h_img w_img h_crop w_crop h_stride w_stride ;;
  let count := full 0 1 1 h_img w_img in
  let final_logit := full 0%Qc 1 num_classes h_img w_img in
  for_each (range rows) (fun r =>
    for_each (range cols) (fun c =>
      slide_step model img h_img w_img h_crop w_crop h_stride w_stride r c))
    (final_logit, count).

Definition slide_inference (model : model_t) (img : tensor)
           (crop_size stride_size : Z * Z) (num_classes : Z) : M tensor :=
  '(final_logit, count) <- slide_pass model img crop_size stride_size
                             num_classes ;;
  ret (div_count final_logit count).

(** ** The numeric backend *)

(** The two library operations of [paddle.nn.functional] the module relies
    on.  [interpolate x (h, w)] is
    [F.interpolate(x, (h, w), mode='bilinear', align_corners=False)] and
    [softmax x] is [F.softmax(x, axis=1)].  Failures of the operations
    themselves (for instance a non-positive target size) are not modelled. *)
Record Backend : Type := {
  interpolate : tensor -> Z * Z -> tensor;
  softmax : tensor -> tensor
}.

(** [F.interpolate(x, size, ...)] where [size] may be [None]: with neither a
    size nor a scale factor the call is rejected. *)
Definition F_interpolate (B : Backend) (x : tensor) (size : option (Z * Z))
  : M tensor :=
  match size with
  | Some s => ret (interpolate B x s)
  | None => raise (ValueError "One of size and scale_factor must not be None.")
  end.

(** *** argmax over the channel axis *)

Definition argmax_step (k : Z) (best : list (list (Qc * Z)))
           (pl : list (list Qc)) : list (list (Qc * Z)) :=
  zip_with (zip_with (fun b x =>
    match (fst b ?= x)%Qc with
    | Lt => (x, k)
    | _ => b
    end)) best pl.

Fixpoint argmax_scan (k : Z) (best : list (list (Qc * Z)))
         (rest : list (list (list Qc))) : list (list (Qc * Z)) :=
  match rest with
  | [] => best
  | pl :: rest' => argmax_scan (k + 1) (argmax_step k best pl) rest'
  end.

(** The index of the first largest channel, for every pixel of one batch
    element; the channel axis is kept with size 1. *)
Definition argmax_chan (im : list (list (list Qc)))
  : option (list (list (list Z))) :=
  match im with
  | [] => None
  | pl0 :: rest =>
      Some [map (map snd)
              (argmax_scan 1 (map (map (fun x => (x, 0))) pl0) rest)]
  end.

Fixpoint map_option {A B} (f : A -> option B) (l : list A) : option (list B) :=
  match l with
  | [] => Some []
  | x :: l' =>
      match f x, map_option f l' with
      | Some y, Some r => Some (y :: r)
      | _, _ => None
      end
  end.

(** The accumulator of [aug_inference]: the Python number it starts from, or
    a tensor. *)
Inductive accum : Type :=
| AccNum (z : Z)
| AccTensor (t : tensor).

(** [paddle.argmax(x, axis=1, keepdim=True, dtype='int32')].  A Python
    number is not a tensor (and has no axis 1): the call is rejected. *)
Definition paddle_argmax (x : accum) : M (tensor4 Z) :=
  match x with
  | AccNum _ => raise (TypeError "argmax(): argument 'x' must be Tensor")
  | AccTensor t =>
      match map_option argmax_chan t with
      | Some p => ret p
      | None => raise (ValueError "argmax over an empty axis")
      end
  end.

(** [acc + logit] *)
Definition accum_add (acc : accum) (logit : tensor) : M tensor :=
  match acc with
  | AccNum z => ret (scalar_add z logit)
  | AccTensor a => tadd a logit
  end.

(** ** inference *)

Inductive inference_out : Type :=
| Pred (p : tensor4 Z)
| Logit (t : tensor).

Definition transforms_t : Type := list string.

Definition inference (B : Backend) (model : model_t) (img : tensor)
           (ori_shape : option (Z * Z)) (transforms : transforms_t)
           (is_slide : bool) (stride_size crop_size : Z * Z)
           (num_classes : Z) : M inference_out :=
  logit <- (if negb is_slide then
              (* the model's output is a sequence by its type: the
                 isinstance test of line 72 always passes *)
              logits <- call_model model img ;;
              first_output logits
            else
              slide_inference model img crop_size stride_size num_classes) ;;
  match ori_shape with
  | Some _ =>
      logit <- F_interpolate B logit ori_shape ;;
      let logit := softmax B logit in
      pred <- paddle_argmax (AccTensor logit) ;;
      ret (Pred pred)
  | None => ret (Logit logit)
  end.

(** ** aug_inference *)

(** The values [scales] may be bound to. *)
Inductive pyval : Type :=
| PyNone
| PyBool (b : bool)
| PyInt (z : Z)
| PyFloat (q : Q)
| PyStr (s : string)
| PyList (l : list Q)
| PyTuple (l : list Q).

(** [str(type(v))] *)
Definition type_repr (v : pyval) : string :=
  match v with
  | PyNone => "<class 'NoneType'>"
  | PyBool _ => "<class 'bool'>"
  | PyInt _ => "<class 'int'>"
  | PyFloat _ => "<class 'float'>"
  | PyStr _ => "<class 'str'>"
  | PyList _ => "<class 'list'>"
  | PyTuple _ => "<class 'tuple'>"
  end.

(** [isinstance(v, (tuple, list))], with the elements when it holds. *)
Definition as_sequence (v : pyval) : option (list Q) :=
  match v with
  | PyList l | PyTuple l => Some l
  | _ => None
  end.

(** ['`scales` expects tuple/list type, but received {}'.format(type(v))] *)
Definition scales_message (v : pyval) : string :=
  ("`scales` expects tuple/list type, but received " ++ type_repr v)%string.

(** [raise(msg)] with [msg] a str.  A str is neither an exception class nor
    an exception instance: the statement raises a [TypeError] of the
    interpreter's own, and [msg] is lost. *)
Definition raise_str {A} (msg : string) : M A :=
  raise (TypeError "exceptions must derive from BaseException").

(** [a / b] on Python integers. *)
Definition py_truediv (a b : Z) : M Q :=
  if b =? 0 then raise ZeroDivisionError
  else ret (inject_Z a / inject_Z b)%Q.

(** Lines 128-138: the size the image is resized to for one scale. *)
Definition scaled_size (h_input w_input : Z) (scale : Q) (crop_size : Z * Z)
  : M (Z * Z) :=
  let h := py_int (inject_Z h_input * scale + (1 # 2))%Q in
  let w := py_int (inject_Z w_input * scale + (1 # 2))%Q in
  if Z.min h w <? fst crop_size then
    let new_short := fst crop_size in
    if h >? w then
      q <- py_truediv (new_short * h) w ;;
      ret (py_int q, new_short)
    else
      q <- py_truediv (new_short * w) h ;;
      ret (new_short, py_int q)
  else ret (h, w).

(** Lines 128-151: one iteration of the scale loop on the pair
    (final_logit, img). *)
Definition aug_step (B : Backend) (model : model_t)
           (ori_shape : option (Z * Z)) (stride_size crop_size : Z * Z)
           (num_classes : Z) (flip_horizontal : bool) (h_input w_input : Z)
           (scale : Q) (st : accum * tensor) : M (accum * tensor) :=
  let '(final_logit, img) := st in
  '(h, w) <- scaled_size h_input w_input scale crop_size ;;
  let img := interpolate B img (h, w) in
  logit <- slide_inference model img crop_size stride_size num_classes ;;
  logit <- F_interpolate B logit ori_shape ;;
  let logit := softmax B logit in
  final_logit <- accum_add final_logit logit ;;
  if flip_horizontal then
    let img_flip := flip_w img in
    logit_flip <- slide_inference model img_flip crop_size stride_size
                    num_classes ;;
    let logit := flip_w logit_flip in
    logit <- F_interpolate B logit ori_shape ;;
    let logit := softmax B logit in
    final_logit <- accum_add (AccTensor final_logit) logit ;;
    ret (AccTensor final_logit, img)
  else
    ret (AccTensor final_logit, img).

(** Lines 125-151: the accumulator after the scale loop. *)
Definition aug_accumulate (B : Backend) (model : model_t) (img : tensor)
           (ori_shape : option (Z * Z)) (stride_size crop_size : Z * Z)
           (num_classes : Z) (scales : list Q) (flip_horizontal : bool)
  : M accum :=
  let final_logit := AccNum 0 in
  let h_input := height img in
  let w_input := width img in
  '(final_logit, _) <-
    for_each scales
      (aug_step B model ori_shape stride_size crop_size num_classes
         flip_horizontal h_input w_input)
      (final_logit, img) ;;
  ret final_logit.

Definition aug_inference (B : Backend) (model : model_t) (img : tensor)
           (ori_shape : option (Z * Z)) (transforms : transforms_t)
           (is_slide : bool) (stride_size crop_size : Z * Z)
           (num_classes : Z) (scales : pyval)
           (flip_horizontal flip_vertical : bool) : M (tensor4 Z) :=
  match as_sequence scales with
  | None => raise_str (scales_message scales)
  | Some scale_list =>
      final_logit <- aug_accumulate B model img ori_shape stride_size
                       crop_size num_classes scale_list flip_horizontal ;;
      paddle_argmax final_logit
  end.

(** ** A reference backend and sample models

    Used to run the embedding on concrete inputs.  [bilinear] is bilinear
    resampling with half-pixel centres (align_corners=False), source
    coordinates clamped at 0.  Softmax itself is not rational-valued;
    [softmax_ref] normalises with the rational map [bump] in place of the
    exponential, which like it is positive and strictly increasing, so the
    result is a probability vector per pixel ordered as the logits are. *)

Definition Qc_of_Z (z : Z) : Qc := Q2Qc (inject_Z z).

Definition mix (lam a b : Qc) : Qc := ((1 - lam) * a + lam * b)%Qc.

Definition resample {X} (mixX : Qc -> X -> X -> X) (dflt : X) (l : list X)
           (n_out : Z) : list X :=
  let n_in := len l in
  map (fun i =>
         let s := (Qc_of_Z n_in / Qc_of_Z n_out
                   * (Qc_of_Z i + Q2Qc (1 # 2)) - Q2Qc (1 # 2))%Qc in
         let src := match (s ?= 0)%Qc with Lt => 0%Qc | _ => s end in
         let i0 := Qfloor src in
         let i1 := Z.min (i0 + 1) (n_in - 1) in
         let lam := (src - Qc_of_Z i0)%Qc in
         mixX lam (nth (Z.to_nat i0) l dflt) (nth (Z.to_nat i1) l dflt))
      (range n_out).

Definition bilinear (t : tensor) (size : Z * Z) : tensor :=
  let '(h, w) := size in
  map (map (fun pl =>
    map (fun row => resample mix 0%Qc row w)
        (resample (fun lam => zip_with (mix lam)) [] pl h))) t.

Definition bump (x : Qc) : Qc :=
  match (x ?= 0)%Qc with
  | Lt => (/ (1 - x))%Qc
  | _ => (1 + x)%Qc
  end.

Definition plane_sum (pls : list (list (list Qc))) : list (list Qc) :=
  match pls with
  | [] => []
  | p0 :: rest => fold_left (zip_with (zip_with Qcplus)) rest p0
  end.

Definition softmax_ref (t : tensor) : tensor :=
  map (fun im =>
         let e := map (map (map bump)) im in
         let s := plane_sum e in
         map (fun pl => zip_with (zip_with Qcdiv) pl s) e) t.

Definition ref_backend : Backend :=
  {| interpolate := bilinear; softmax := softmax_ref |}.

(** Sum of all the elements of a tensor. *)
Definition qsum (l : list Qc) : Qc := fold_right Qcplus 0%Qc l.
Definition tsum (t : tensor) : Qc :=
  qsum (map (fun im => qsum (map (fun pl => qsum (map qsum pl)) im)) t).

(** A two-class model with global pooling: at every pixel, class 0 scores
    [thr] and class 1 scores the sum of the whole input. *)
Definition pool_model (thr : Qc) : model_t :=
  fun x => [[[repeat (repeat thr (Z.to_nat (width x))) (Z.to_nat (height x));
              repeat (repeat (tsum x) (Z.to_nat (width x)))
                     (Z.to_nat (height x))]]].

(** A model that scores every class 0 at every pixel. *)
Definition zero_model (num_classes : Z) : model_t :=
  fun x => [full 0%Qc 1 num_classes (height x) (width x)].

Definition tensor_of_Z (t : tensor4 Z) : tensor :=
  map (map (map (map Qc_of_Z))) t.

(** Decidable equality of tensors. *)
Fixpoint list_eqb {A} (eqb : A -> A -> bool) (l1 l2 : list A) : bool :=
  match l1, l2 with
  | [], [] => true
  | x :: l1', y :: l2' => eqb x y && list_eqb eqb l1' l2'
  | _, _ => false
  end.

Definition tensor_eqb (a b : tensor) : bool :=
  list_eqb (list_eqb (list_eqb (list_eqb Qc_eq_bool))) a b.

(** ** Notions the properties are stated with *)

(** The position pairs of the two nested loops, in iteration order. *)
Definition grid (rows cols : Z) : list (Z * Z) :=
  flat_map (fun r => map (pair r) (range cols)) (range rows).

(** The extent [lo, hi) of window number [k] along one axis of length [n]. *)
Definition span (k stride crop n : Z) : Z * Z :=
  let hi := Z.min (k * stride + crop) n in
  (Z.max (hi - crop) 0, hi).

(** Whether pixel (i, j) lies in the window (h1, h2, w1, w2). *)
Definition in_window (win : Z * Z * Z * Z) (i j : Z) : bool :=
  let '(h1, h2, w1, w2) := win in
  (h1 <=? i) && (i <? h2) && (w1 <=? j) && (j <? w2).

(** [count[0, 0, i, j]] *)
Definition count_at (count : tensor4 Z) (i j : Z) : Z :=
  nth (Z.to_nat j) (nth (Z.to_nat i) (hd [] (hd [] count)) []) 0.

(** [img[:, :, h1:h2, w1:w2]] for a window given as a tuple. *)
Definition crop_win {A} (t : tensor4 A) (win : Z * Z * Z * Z) : tensor4 A :=
  let '(h1, h2, w1, w2) := win in crop t h1 h2 w1 w2.

(** The windows of a [rows] x [cols] grid, in iteration order. *)
Definition windows (h_img w_img h_crop w_crop h_stride w_stride rows cols : Z)
  : list (Z * Z * Z * Z) :=
  map (fun rc => window h_img w_img h_crop w_crop h_stride w_stride
                   (fst rc) (snd rc))
      (grid rows cols).

(** What a window must satisfy along one axis of length [n]: inside the
    axis, and of the crop's length unless the axis is shorter than the
    crop, when it is the whole axis. *)
Definition span_ok (lo hi crop n : Z) : Prop :=
  0 <= lo /\ lo <= hi /\ hi <= n /\
  (crop <= n -> hi - lo = crop) /\
  (n < crop -> lo = 0 /\ hi = n).

(** The first [k] windows along an axis of length [n] leave no position
    of the axis out. *)
Definition covers (k stride crop n : Z) : Prop :=
  forall i, 0 <= i < n ->
    exists r, 0 <= r < k /\
      fst (span r stride crop n) <= i < snd (span r stride crop n).

(** The contract of the model: on a non-empty input of spatial size (h, w)
    its first output is a logit map of shape (1, num_classes, h, w). *)
Definition model_contract (model : model_t) (num_classes : Z) : Prop :=
  forall x c h w, 1 <= c -> 1 <= h -> has_shape x 1 c h w = true ->
    exists y rest, model x = y :: rest /\
                   has_shape y 1 num_classes h w = true.

(** Shapes as propositions: a plane of [h] rows of [w] elements, and a
    4-dimensional tensor of shape (n, c, h, w). *)
Definition rows_ok {A} (pl : list (list A)) (h w : Z) : Prop :=
  len pl = h /\ Forall (fun row => len row = w) pl.

Definition shaped {A} (t : tensor4 A) (n c h w : Z) : Prop :=
  len t = n /\
  Forall (fun im => len im = c /\ Forall (fun pl => rows_ok pl h w) im) t.

(** How many of the windows contain pixel (i, j). *)
Definition hits (wins : list (Z * Z * Z * Z)) (i j : Z) : Z :=
  len (filter (fun win => in_window win i j) wins).

(** [count[:, :, h1:h2, w1:w2] += 1] for a window given as a tuple. *)
Definition crop_incr_win (count : tensor4 Z) (win : Z * Z * Z * Z)
  : tensor4 Z :=
  let '(h1, h2, w1, w2) := win in crop_incr count h1 h2 w1 w2.

(** A window inside an image of size [h] x [w]. *)
Definition win_in_bounds (h w : Z) (win : Z * Z * Z * Z) : Prop :=
  let '(h1, h2, w1, w2) := win in
  0 <= h1 <= h2 /\ h2 <= h /\ 0 <= w1 <= w2 /\ w2 <= w.

(** The number of windows [crop_nums] computes along one axis of length
    [n] (for a stride other than 0). *)
Definition crop_num (n crop stride : Z) : Z :=
  if n <=? crop then 1 else Z.max (n - crop + stride - 1) 0 / stride + 1.

(** The coverage count map a tiling pass ends with, when it completes. *)
Definition pass_count (m : M (tensor * tensor4 Z)) : option (tensor4 Z) :=
  match fst m with
  | Ok (_, count) => Some count
  | Raise _ => None
  end.

(** The outcome of a computation under a function of its value; the
    exception, if any, and the model invocations are kept. *)
Definition map_result {A B} (f : A -> B) (r : result A) : result B :=
  match r with
  | Ok a => Ok (f a)
  | Raise e => Raise e
  end.

Definition map_outcome {A B} (f : A -> B) (m : M A) : M B :=
  (map_result f (fst m), snd m).

(** The message the guard of [aug_inference] builds for [scales = "1.0"]. *)
Definition intended_scales_message : string :=
  "`scales` expects tuple/list type, but received <class 'str'>".


(** The hypothesis of flip symmetry: the model's outputs on a mirrored
    input are its outputs on the input, mirrored. *)
Definition mirror_equivariant (model : model_t) : Prop :=
  forall x, model (flip_w x) = map flip_w (model x).

(** A tensor of zeros. *)
Definition all_zero (t : tensor) : Prop :=
  Forall (Forall (Forall (Forall (fun x => x = 0%Qc)))) t.

(** The images the scale loop resizes, in order: each is the resize of the
    one before it (the first, of the input image), to the size computed
    for its scale from the input's height and width.  The list stops at a
    scale whose size computation raises. *)
Fixpoint resize_chain (B : Backend) (crop_size : Z * Z) (h_input w_input : Z)
         (scales : list Q) (img : tensor) : list tensor :=
  match scales with
  | [] => []
  | scale :: scales' =>
      match fst (scaled_size h_input w_input scale crop_size) with
      | Ok size =>
          let img' := interpolate B img size in
          img' :: resize_chain B crop_size h_input w_input scales' img'
      | Raise _ => []
      end
  end.

(** The model invocations of the tiled passes over one resized image. *)
Definition pass_invocations (model : model_t) (crop_size stride_size : Z * Z)
           (num_classes : Z) (flip_horizontal : bool) (img : tensor)
  : list tensor :=
  invocations (slide_inference model img crop_size stride_size num_classes)
  ++ (if flip_horizontal
      then invocations (slide_inference model (flip_w img) crop_size
                          stride_size num_classes)
      else []).

(** [t[n, c, i, j]] (0 outside the tensor). *)
Definition tget (t : tensor) (n c i j : Z) : Qc :=
  nth (Z.to_nat j)
      (nth (Z.to_nat i) (nth (Z.to_nat c) (nth (Z.to_nat n) t []) []) [])
      0%Qc.

(** [model(img[:, :, h1:h2, w1:w2])[0]] for a window given as a tuple. *)
Definition window_logit (model : model_t) (img : tensor)
           (win : Z * Z * Z * Z) : tensor :=
  hd [] (model (crop_win img win)).

(** What the window adds to the accumulated logit of channel [c] at pixel
    (i, j): its own logit there if it contains the pixel, 0 otherwise. *)
Definition contribution (model : model_t) (img : tensor)
           (win : Z * Z * Z * Z) (c i j : Z) : Qc :=
  if in_window win i j
  then tget (window_logit model img win) 0 c
            (i - fst (fst (fst win))) (j - snd (fst win))
  else 0%Qc.

(** A per-pixel model: class [k] scores, at every pixel, the input's first
    channel there times the [k]-th coefficient.  With the single
    coefficient 1 it returns a one-channel image as it is. *)
Definition channel0_model (coeffs : list Qc) : model_t :=
  fun x =>
    [[map (fun a => map (map (Qcmult a)) (hd [] (hd [] x))) coeffs]].

(** Every entry of an integer tensor lies in [lo, hi). *)
Definition all_in_range (p : tensor4 Z) (lo hi : Z) : Prop :=
  Forall (Forall (Forall (Forall (fun v => lo <= v < hi)))) p.

(** What the module expects of the backend's shapes: a resize keeps the
    batch and channel sizes and gives the requested height and width, and
    softmax keeps the shape. *)
Definition backend_keeps_shapes (B : Backend) : Prop :=
  (forall x n c h0 w0 h w,
     0 <= h -> 0 <= w -> shaped x n c h0 w0 ->
     shaped (interpolate B x (h, w)) n c h w) /\
  (forall x n c h w, shaped x n c h w -> shaped (softmax B x) n c h w).

(** A scale the size computation accepts for an image of size [h] x [w]:
    not negative, and neither rounded scaled side is 0. *)
Definition scale_ok (h w : Z) (scale : Q) : Prop :=
  (0 <= scale)%Q /\
  0 < Z.min (py_int (inject_Z h * scale + (1 # 2))%Q)
            (py_int (inject_Z w * scale + (1 # 2))%Q).

(** Whether position [i] lies in the extent [lo, hi). *)
Definition in_span (sp : Z * Z) (i : Z) : bool :=
  (fst sp <=? i) && (i <? snd sp).

(** Windows of length [crop] spaced by [crop] tile an axis of length [n]
    without overlap: the axis is no longer than one window, or a multiple
    of it. *)
Definition tiles_exactly (n crop : Z) : Prop := n <= crop \/ n mod crop = 0.

(** Flip symmetry on the inputs the module gives a model, non-empty
    images of [c] channels and one batch element: the logit map of the
    mirrored input is the logit map of the input, mirrored. *)
Definition mirror_equivariant_on_images (model : model_t) (c : Z) : Prop :=
  forall x h w, 1 <= h -> has_shape x 1 c h w = true ->
    hd [] (model (flip_w x)) = flip_w (hd [] (model x)).

(** The contract of the model on images of [c] channels. *)
Definition model_contract_on (model : model_t) (c num_classes : Z) : Prop :=
  forall x h w, 1 <= h -> has_shape x 1 c h w = true ->
    exists y rest, model x = y :: rest /\
                   has_shape y 1 num_classes h w = true.





(** * Properties *)

(** ** Computations *)

Lemma bind_ret_l {A B} (a : A) (f : A -> M B) : bind (ret a) f = f a.
Proof. unfold bind, ret. destruct (f a) as [r log]. reflexivity. Qed.

Lemma bind_assoc {A B C} (m : M A) (f : A -> M B) (g : B -> M C) :
  bind (bind m f) g = bind m (fun a => bind (f a) g).
Proof.
  destruct m as [[a|e] log]; simpl; [|reflexivity].
  destruct (f a) as [[b|e] log1]; simpl; [|reflexivity].
  destruct (g b) as [r log2]. now rewrite app_assoc.
Qed.

Lemma bind_ext {A B} (m : M A) (f g : A -> M B) :
  (forall a, f a = g a) -> bind m f = bind m g.
Proof.
  intros E. destruct m as [[a|e] log]; simpl; [|reflexivity]. now rewrite E.
Qed.

Lemma bind_ok_inv {A B} (m : M A) (f : A -> M B) (b : B) (log : list tensor) :
  bind m f = (Ok b, log) ->
  exists a log1 log2,
    m = (Ok a, log1) /\ f a = (Ok b, log2) /\ log = log1 ++ log2.
Proof.
  destruct m as [[a|e] log1]; simpl; [|discriminate].
  destruct (f a) as [r log2] eqn:E. intros H; inversion H; subst.
  now exists a, log1, log2.
Qed.

Lemma bind_ok {A B} (m : M A) (f : A -> M B) a log1 b log2 :
  m = (Ok a, log1) -> f a = (Ok b, log2) -> bind m f = (Ok b, log1 ++ log2).
Proof. intros -> E. simpl. now rewrite E. Qed.

Lemma for_each_app {A S} (l1 l2 : list A) (body : A -> S -> M S) (s : S) :
  for_each (l1 ++ l2) body s = bind (for_each l1 body s) (for_each l2 body).
Proof.
  revert s. induction l1 as [|x l1 IH]; intros s.
  - symmetry. apply bind_ret_l.
  - simpl. rewrite bind_assoc. apply bind_ext. intros a. apply IH.
Qed.

Lemma for_each_map {A B S} (g : A -> B) (l : list A) (body : B -> S -> M S) s :
  for_each (map g l) body s = for_each l (fun x => body (g x)) s.
Proof.
  revert s. induction l as [|x l IH]; intros s; simpl; [reflexivity|].
  apply bind_ext. intros a. apply IH.
Qed.

Lemma for_each_nested {S} (l1 l2 : list Z) (body : Z -> Z -> S -> M S) s :
  for_each l1 (fun r => for_each l2 (body r)) s
  = for_each (flat_map (fun r => map (pair r) l2) l1)
             (fun rc => body (fst rc) (snd rc)) s.
Proof.
  revert s. induction l1 as [|r l1 IH]; intros s; simpl; [reflexivity|].
  rewrite for_each_app, for_each_map. simpl.
  apply bind_ext. intros a. apply IH.
Qed.

(** The state reached by a loop that completes is the fold of what each
    iteration does to a projection of the state. *)
Lemma for_each_fold {A S T} (proj : S -> T) (g : T -> A -> T)
      (body : A -> S -> M S) :
  (forall x s s' log, body x s = (Ok s', log) -> proj s' = g (proj s) x) ->
  forall l s s' log,
    for_each l body s = (Ok s', log) -> proj s' = fold_left g l (proj s).
Proof.
  intros Hb. induction l as [|x l IH]; intros s s' log H; simpl in *.
  - inversion H; subst. reflexivity.
  - apply bind_ok_inv in H. destruct H as (s1 & log1 & log2 & H1 & H2 & _).
    rewrite (IH _ _ _ H2). now rewrite (Hb _ _ _ _ H1).
Qed.

(** A loop whose every iteration calls the model exactly once: the calls
    made are those of a prefix of the iterations, and of all of them when
    the loop completes. *)
Lemma for_each_calls {A S} (arg : A -> tensor) (body : A -> S -> M S) :
  (forall x s, snd (body x s) = [arg x]) ->
  forall l s,
    (exists n, snd (for_each l body s) = firstn n (map arg l)) /\
    (forall s', fst (for_each l body s) = Ok s' ->
                snd (for_each l body s) = map arg l).
Proof.
  intros Hb. induction l as [|x l IH]; intros s; simpl.
  - split; [now exists 0%nat|reflexivity].
  - specialize (Hb x s). destruct (body x s) as [[s1|e] log1]; simpl in *.
    + subst log1. destruct (IH s1) as [[n Hn] Hall].
      destruct (for_each l body s1) as [r log2]; simpl in *. split.
      * exists (Datatypes.S n). simpl. now rewrite Hn.
      * intros s' E. now rewrite (Hall s' E).
    + subst log1. split; [now exists 1%nat; destruct l|discriminate].
Qed.

(** A loop whose every iteration preserves an invariant and completes. *)
Lemma for_each_total {A S} (I : S -> Prop) (body : A -> S -> M S) (l : list A) :
  (forall x s, In x l -> I s -> exists s' log, body x s = (Ok s', log) /\ I s') ->
  forall s, I s -> exists s' log, for_each l body s = (Ok s', log) /\ I s'.
Proof.
  induction l as [|x l IH]; intros Hb s Hs; simpl.
  - now exists s, [].
  - destruct (Hb x s (or_introl eq_refl) Hs) as (s1 & log1 & E1 & H1).
    destruct (IH (fun y t Hy => Hb y t (or_intror Hy)) s1 H1)
      as (s2 & log2 & E2 & H2).
    exists s2, (log1 ++ log2). split; [|exact H2].
    now apply bind_ok with (a := s1).
Qed.

(** ** Window geometry *)

Lemma window_spans h_img w_img h_crop w_crop h_stride w_stride r c :
  window h_img w_img h_crop w_crop h_stride w_stride r c
  = (fst (span r h_stride h_crop h_img), snd (span r h_stride h_crop h_img),
     fst (span c w_stride w_crop w_img), snd (span c w_stride w_crop w_img)).
Proof. reflexivity. Qed.

Lemma span_within k stride crop n :
  0 <= k -> 0 <= stride -> 0 <= crop -> 0 <= n ->
  span_ok (fst (span k stride crop n)) (snd (span k stride crop n)) crop n.
Proof.
  intros Hk Hs Hc Hn. unfold span_ok, span; simpl.
  assert (0 <= k * stride) by now apply Z.mul_nonneg_nonneg.
  repeat split; lia.
Qed.

Lemma in_range z n : In z (range n) <-> 0 <= z < n.
Proof.
  unfold range. rewrite in_map_iff. split.
  - intros (k & <- & Hk). apply in_seq in Hk. lia.
  - intros Hz. exists (Z.to_nat z). split; [lia|]. apply in_seq. lia.
Qed.

Lemma in_grid r c rows cols :
  In (r, c) (grid rows cols) <-> 0 <= r < rows /\ 0 <= c < cols.
Proof.
  unfold grid. rewrite in_flat_map. split.
  - intros (r' & Hr & Hc). apply in_map_iff in Hc.
    destruct Hc as (c' & E & Hc). inversion E; subst.
    now rewrite in_range in Hr, Hc.
  - intros [Hr Hc]. exists r. rewrite in_range. split; [exact Hr|].
    apply in_map_iff. exists c. now rewrite in_range.
Qed.

Lemma crop_nums_value h_img w_img h_crop w_crop h_stride w_stride :
  h_stride <> 0 -> w_stride <> 0 ->
  crop_nums h_img w_img h_crop w_crop h_stride w_stride
  = (Ok (crop_num h_img h_crop h_stride, crop_num w_img w_crop w_stride), []).
Proof.
  intros Hh Hw. unfold crop_nums, py_floordiv.
  apply Z.eqb_neq in Hh, Hw. rewrite Hh, Hw. reflexivity.
Qed.

Lemma slide_step_calls model img h_img w_img h_crop w_crop h_stride w_stride
      r c st :
  snd (slide_step model img h_img w_img h_crop w_crop h_stride w_stride r c st)
  = [crop_win img (window h_img w_img h_crop w_crop h_stride w_stride r c)].
Proof.
  unfold slide_step. destruct st as [fl cnt].
  destruct (window _ _ _ _ _ _ r c) as [[[h1 h2] w1] w2]. simpl.
  destruct (model (crop img h1 h2 w1 w2)) as [|y rest]; simpl; [reflexivity|].
  unfold tadd. destruct (zip_strict _ fl _); reflexivity.
Qed.

Lemma slide_pass_loop model img w_crop h_crop w_stride h_stride num_classes
      rows cols :
  crop_nums (height img) (width img) h_crop w_crop h_stride w_stride
  = (Ok (rows, cols), []) ->
  slide_pass model img (w_crop, h_crop) (w_stride, h_stride) num_classes
  = for_each (grid rows cols)
      (fun rc => slide_step model img (height img) (width img)
                   h_crop w_crop h_stride w_stride (fst rc) (snd rc))
      (full 0%Qc 1 num_classes (height img) (width img),
       full 0 1 1 (height img) (width img)).
Proof.
  intros E. unfold slide_pass. rewrite E.
  etransitivity; [apply (bind_ret_l (rows, cols))|].
  apply (for_each_nested (range rows) (range cols)).
Qed.

Lemma slide_inference_calls model img crop_size stride_size num_classes :
  snd (slide_inference model img crop_size stride_size num_classes)
  = snd (slide_pass model img crop_size stride_size num_classes) /\
  (forall t,
     fst (slide_inference model img crop_size stride_size num_classes) = Ok t ->
     exists st,
       fst (slide_pass model img crop_size stride_size num_classes) = Ok st).
Proof.
  unfold slide_inference.
  destruct (slide_pass model img crop_size stride_size num_classes)
    as [[[fl cnt]|e] log]; simpl.
  - rewrite app_nil_r. split; [reflexivity|]. intros t _. now exists (fl, cnt).
  - split; [reflexivity|discriminate].
Qed.

(** C5. With a positive crop and stride, the model is called on the crops
    of the grid's windows, in row-major order (on all of them when the
    call completes), and every window of the grid obeys the clamping rule
    [h2 = min(r * stride + crop, H)], [h1 = max(h2 - crop, 0)], lies within
    the image, and has exactly the crop's height and width, except along an
    axis shorter than the crop, where it spans the whole axis. *)
Theorem windows_clamped_to_crop_size
        (model : model_t) (img : tensor)
        (w_crop h_crop w_stride h_stride num_classes : Z) :
  0 < w_crop -> 0 < h_crop -> 0 < w_stride -> 0 < h_stride ->
  let h_img := height img in
  let w_img := width img in
  let run := slide_inference model img (w_crop, h_crop) (w_stride, h_stride)
               num_classes in
  exists rows cols,
    crop_nums h_img w_img h_crop w_crop h_stride w_stride
    = (Ok (rows, cols), []) /\
    let wins := windows h_img w_img h_crop w_crop h_stride w_stride
                  rows cols in
    (exists n, invocations run = firstn n (map (crop_win img) wins)) /\
    (forall t, outcome run = Ok t ->
               invocations run = map (crop_win img) wins) /\
    (forall r c, In (r, c) (grid rows cols) ->
       let '(h1, h2, w1, w2) :=
         window h_img w_img h_crop w_crop h_stride w_stride r c in
       h2 = Z.min (r * h_stride + h_crop) h_img /\
       h1 = Z.max (h2 - h_crop) 0 /\
       w2 = Z.min (c * w_stride + w_crop) w_img /\
       w1 = Z.max (w2 - w_crop) 0 /\
       span_ok h1 h2 h_crop h_img /\ span_ok w1 w2 w_crop w_img).
Proof.
  intros Hwc Hhc Hws Hhs h_img w_img run.
  pose proof (crop_nums_value h_img w_img h_crop w_crop h_stride w_stride
                ltac:(lia) ltac:(lia)) as E.
  set (rows := crop_num h_img h_crop h_stride) in E.
  set (cols := crop_num w_img w_crop w_stride) in E.
  exists rows, cols. split; [exact E|]. cbv zeta.
  assert (Hrun : snd run
                 = snd (for_each (grid rows cols)
                          (fun rc => slide_step model img h_img w_img
                             h_crop w_crop h_stride w_stride (fst rc) (snd rc))
                          (full 0%Qc 1 num_classes h_img w_img,
                           full 0 1 1 h_img w_img))).
  { unfold run. rewrite (proj1 (slide_inference_calls _ _ _ _ _)).
    now rewrite (slide_pass_loop _ _ _ _ _ _ _ _ _ E). }
  pose proof (for_each_calls
                (fun rc => crop_win img (window h_img w_img h_crop w_crop
                                           h_stride w_stride (fst rc) (snd rc)))
                _ (fun rc st => slide_step_calls model img h_img w_img h_crop
                                  w_crop h_stride w_stride (fst rc) (snd rc) st)
                (grid rows cols)
                (full 0%Qc 1 num_classes h_img w_img, full 0 1 1 h_img w_img))
    as [[n Hn] Hall].
  unfold invocations, outcome, windows. rewrite map_map.
  split; [|split].
  - exists n. rewrite Hrun. exact Hn.
  - intros t Ht. rewrite Hrun.
    destruct (proj2 (slide_inference_calls _ _ _ _ _) t Ht) as [st Hst].
    rewrite (slide_pass_loop _ _ _ _ _ _ _ _ _ E) in Hst.
    exact (Hall st Hst).
  - intros r c Hrc. apply in_grid in Hrc. rewrite window_spans.
    assert (0 <= h_img) by (unfold h_img, height, len; lia).
    assert (0 <= w_img) by (unfold w_img, width, len; lia).
    repeat split; try reflexivity; apply span_within; lia.
Qed.

(** ** Shapes *)

Lemma has_shape_iff {A} (t : tensor4 A) n c h w :
  has_shape t n c h w = true <-> shaped t n c h w.
Proof.
  unfold has_shape, shaped, rows_ok.
  rewrite andb_true_iff, Z.eqb_eq, forallb_forall, Forall_forall.
  split; intros [Hn Ht]; (split; [exact Hn|]); intros im Him;
    specialize (Ht im Him).
  - rewrite andb_true_iff, Z.eqb_eq, forallb_forall in Ht.
    destruct Ht as [Hc Ht]. split; [exact Hc|].
    rewrite Forall_forall. intros pl Hpl. specialize (Ht pl Hpl).
    rewrite andb_true_iff, Z.eqb_eq, forallb_forall in Ht.
    destruct Ht as [Hh Ht]. split; [exact Hh|].
    rewrite Forall_forall. intros row Hrow. now apply Z.eqb_eq, Ht.
  - destruct Ht as [Hc Ht]. rewrite Forall_forall in Ht.
    rewrite andb_true_iff, Z.eqb_eq, forallb_forall. split; [exact Hc|].
    intros pl Hpl. destruct (Ht pl Hpl) as [Hh Hr].
    rewrite Forall_forall in Hr.
    rewrite andb_true_iff, Z.eqb_eq, forallb_forall. split; [exact Hh|].
    intros row Hrow. now apply Z.eqb_eq, Hr.
Qed.

Lemma len_nonneg {A} (l : list A) : 0 <= len l.
Proof. unfold len. lia. Qed.

Lemma len_repeat {A} (x : A) n : 0 <= n -> len (repeat x (Z.to_nat n)) = n.
Proof. intros Hn. unfold len. rewrite repeat_length. lia. Qed.

Lemma rows_ok_repeat {A} (x : A) h w :
  0 <= h -> 0 <= w ->
  rows_ok (repeat (repeat x (Z.to_nat w)) (Z.to_nat h)) h w.
Proof.
  intros Hh Hw. split; [now apply len_repeat|].
  apply Forall_forall. intros row Hrow. apply repeat_spec in Hrow. subst.
  now apply len_repeat.
Qed.

Lemma shaped_full {A} (x : A) n c h w :
  0 <= n -> 0 <= c -> 0 <= h -> 0 <= w -> shaped (full x n c h w) n c h w.
Proof.
  intros Hn Hc Hh Hw. split; [now apply len_repeat|].
  apply Forall_forall. intros im Him. apply repeat_spec in Him. subst.
  split; [now apply len_repeat|].
  apply Forall_forall. intros pl Hpl. apply repeat_spec in Hpl. subst.
  now apply rows_ok_repeat.
Qed.

(** The spatial size the code reads off a well-shaped, non-empty image. *)
Lemma shaped_height_width {A} (t : tensor4 A) n c h w :
  shaped t n c h w -> 1 <= n -> 1 <= c -> 1 <= h ->
  height t = h /\ width t = w.
Proof.
  intros [Hn Ht] H1 H2 H3. unfold height, width.
  destruct t as [|im t]; [unfold len in Hn; simpl in Hn; lia|].
  apply Forall_inv in Ht. destruct Ht as [Hc Him]. simpl.
  destruct im as [|pl im]; [unfold len in Hc; simpl in Hc; lia|].
  apply Forall_inv in Him. destruct Him as [Hh Hpl]. simpl.
  split; [exact Hh|].
  destruct pl as [|row pl]; [unfold len in Hh; simpl in Hh; lia|].
  now apply Forall_inv in Hpl.
Qed.

(** ** Slices *)

Lemma slice_bound_id i n : 0 <= i <= n -> slice_bound i n = i.
Proof.
  intros Hi. unfold slice_bound.
  destruct (Z.ltb_spec i 0); lia.
Qed.

Lemma py_slice_in_bounds {A} lo hi (l : list A) :
  0 <= lo <= hi -> hi <= len l ->
  py_slice lo hi l = firstn (Z.to_nat (hi - lo)) (skipn (Z.to_nat lo) l).
Proof.
  intros H1 H2. unfold py_slice.
  now rewrite !slice_bound_id by lia.
Qed.

Lemma len_py_slice {A} lo hi (l : list A) :
  0 <= lo <= hi -> hi <= len l -> len (py_slice lo hi l) = hi - lo.
Proof.
  intros H1 H2. rewrite py_slice_in_bounds by assumption.
  unfold len in *. rewrite length_firstn, length_skipn. lia.
Qed.

Lemma py_slice_incl {A} lo hi (l : list A) x :
  In x (py_slice lo hi l) -> In x l.
Proof.
  unfold py_slice. intros H.
  set (a := Z.to_nat (slice_bound lo (len l))) in *.
  set (k := Z.to_nat _) in H.
  rewrite <- (firstn_skipn a l). apply in_or_app. right.
  rewrite <- (firstn_skipn k (skipn a l)). apply in_or_app. now left.
Qed.

Lemma py_slice_full {A} (l : list A) : py_slice 0 (len l) l = l.
Proof.
  rewrite py_slice_in_bounds by (pose proof (len_nonneg l); lia).
  simpl. unfold len. rewrite Z.sub_0_r, Nat2Z.id. apply firstn_all.
Qed.

Lemma py_slice_update_in_bounds {A} (f : A -> A) lo hi (l : list A) :
  0 <= lo <= hi -> hi <= len l ->
  py_slice_update f lo hi l
  = firstn (Z.to_nat lo) l
    ++ map f (firstn (Z.to_nat (hi - lo)) (skipn (Z.to_nat lo) l))
    ++ skipn (Z.to_nat lo + Z.to_nat (hi - lo)) l.
Proof.
  intros H1 H2. unfold py_slice_update.
  now rewrite !slice_bound_id by lia.
Qed.

Lemma len_py_slice_update {A} (f : A -> A) lo hi (l : list A) :
  0 <= lo <= hi -> hi <= len l -> len (py_slice_update f lo hi l) = len l.
Proof.
  intros H1 H2. rewrite py_slice_update_in_bounds by assumption.
  unfold len in *.
  rewrite !length_app, length_map, !length_firstn, !length_skipn. lia.
Qed.

Lemma nth_update_nat {A} (f : A -> A) a k (l : list A) i d :
  (a + k <= List.length l)%nat ->
  nth i (firstn a l ++ map f (firstn k (skipn a l)) ++ skipn (a + k) l) d
  = if ((a <=? i) && (i <? a + k))%nat then f (nth i l d) else nth i l d.
Proof.
  intros Hl.
  assert (La : List.length (firstn a l) = a) by (rewrite length_firstn; lia).
  assert (Lk : List.length (map f (firstn k (skipn a l))) = k)
    by (rewrite length_map, length_firstn, length_skipn; lia).
  destruct (Nat.leb_spec a i) as [Hai|Hai]; simpl.
  - rewrite app_nth2 by lia. rewrite La.
    destruct (Nat.ltb_spec i (a + k)) as [Hik|Hik].
    + rewrite app_nth1 by lia.
      rewrite (nth_indep _ d (f d)) by lia.
      rewrite map_nth, nth_firstn.
      destruct (Nat.ltb_spec (i - a) k); [|lia].
      rewrite nth_skipn. f_equal. f_equal. lia.
    + rewrite app_nth2 by lia. rewrite Lk, nth_skipn. f_equal. lia.
  - rewrite app_nth1 by lia. rewrite nth_firstn.
    destruct (Nat.ltb_spec i a); [reflexivity|lia].
Qed.

Lemma nth_py_slice_update {A} (f : A -> A) lo hi (l : list A) i d :
  0 <= lo <= hi -> hi <= len l -> 0 <= i ->
  nth (Z.to_nat i) (py_slice_update f lo hi l) d
  = if (lo <=? i) && (i <? hi) then f (nth (Z.to_nat i) l d)
    else nth (Z.to_nat i) l d.
Proof.
  intros H1 H2 Hi. rewrite py_slice_update_in_bounds by assumption.
  rewrite nth_update_nat by (unfold len in H2; lia).
  destruct (Z.leb_spec lo i), (Z.ltb_spec i hi),
    (Nat.leb_spec (Z.to_nat lo) (Z.to_nat i)),
    (Nat.ltb_spec (Z.to_nat i) (Z.to_nat lo + Z.to_nat (hi - lo)));
    simpl; try reflexivity; lia.
Qed.

(** ** The coverage count map *)

Lemma in_py_slice_update {A} (f : A -> A) lo hi (l : list A) x :
  In x (py_slice_update f lo hi l) -> In x l \/ exists y, In y l /\ x = f y.
Proof.
  unfold py_slice_update.
  set (a := Z.to_nat (slice_bound lo (len l))).
  set (k := Z.to_nat _). intros H.
  apply in_app_or in H. destruct H as [H|H].
  - left. rewrite <- (firstn_skipn a l). apply in_or_app. now left.
  - apply in_app_or in H. destruct H as [H|H].
    + right. apply in_map_iff in H. destruct H as (y & <- & Hy).
      exists y. split; [|reflexivity].
      rewrite <- (firstn_skipn a l). apply in_or_app. right.
      rewrite <- (firstn_skipn k (skipn a l)). apply in_or_app. now left.
    + left. rewrite <- (firstn_skipn (a + k) l). apply in_or_app. now right.
Qed.

Lemma rows_ok_incr (f : Z -> Z) pl h w h1 h2 w1 w2 :
  rows_ok pl h w -> 0 <= h1 <= h2 -> h2 <= h -> 0 <= w1 <= w2 -> w2 <= w ->
  rows_ok (py_slice_update (py_slice_update f w1 w2) h1 h2 pl) h w.
Proof.
  intros [Hh Hr] H1 H2 H3 H4. rewrite Forall_forall in Hr. split.
  - rewrite len_py_slice_update; [exact Hh|lia|lia].
  - apply Forall_forall. intros row Hrow.
    apply in_py_slice_update in Hrow. destruct Hrow as [Hrow|(y & Hy & ->)].
    + now apply Hr.
    + rewrite len_py_slice_update; [now apply Hr|lia|].
      rewrite (Hr y Hy). lia.
Qed.

Lemma nth_incr_plane pl h w h1 h2 w1 w2 i j :
  rows_ok pl h w -> 0 <= h1 <= h2 -> h2 <= h -> 0 <= w1 <= w2 -> w2 <= w ->
  0 <= i -> 0 <= j ->
  nth (Z.to_nat j)
      (nth (Z.to_nat i)
           (py_slice_update (py_slice_update (fun x => x + 1) w1 w2) h1 h2 pl)
           []) 0
  = nth (Z.to_nat j) (nth (Z.to_nat i) pl []) 0
    + (if in_window (h1, h2, w1, w2) i j then 1 else 0).
Proof.
  intros [Hh Hr] H1 H2 H3 H4 Hi Hj. rewrite Forall_forall in Hr.
  rewrite nth_py_slice_update by lia. unfold in_window.
  destruct ((h1 <=? i) && (i <? h2)) eqn:E; simpl; [|lia].
  apply andb_true_iff in E. destruct E as [E1 E2].
  apply Z.leb_le in E1. apply Z.ltb_lt in E2.
  assert (Hin : In (nth (Z.to_nat i) pl []) pl)
    by (apply nth_In; unfold len in Hh; lia).
  rewrite nth_py_slice_update by (try rewrite (Hr _ Hin); lia).
  destruct ((w1 <=? j) && (j <? w2)); lia.
Qed.

Lemma shaped_11_inv {A} (t : tensor4 A) h w :
  shaped t 1 1 h w -> exists pl, t = [[pl]] /\ rows_ok pl h w.
Proof.
  intros [Hn Ht].
  destruct t as [|im [|im' t]]; try (unfold len in Hn; simpl in Hn; lia).
  apply Forall_inv in Ht. destruct Ht as [Hc Him].
  destruct im as [|pl [|pl' im]]; try (unfold len in Hc; simpl in Hc; lia).
  apply Forall_inv in Him. now exists pl.
Qed.

Lemma shaped_intro_1 {A} (im : list (list (list A))) c h w :
  len im = c -> Forall (fun pl => rows_ok pl h w) im -> shaped [im] 1 c h w.
Proof.
  intros Hc Him. split; [reflexivity|]. constructor; [|constructor].
  now split.
Qed.

Lemma shaped_11_intro {A} (pl : list (list A)) h w :
  rows_ok pl h w -> shaped [[pl]] 1 1 h w.
Proof.
  intros H. split; [reflexivity|]. constructor; [|constructor].
  split; [reflexivity|]. now constructor.
Qed.

Lemma count_at_crop_incr count h w win i j :
  shaped count 1 1 h w -> win_in_bounds h w win -> 0 <= i -> 0 <= j ->
  shaped (crop_incr_win count win) 1 1 h w /\
  count_at (crop_incr_win count win) i j
  = count_at count i j + (if in_window win i j then 1 else 0).
Proof.
  intros Hs Hb Hi Hj. destruct win as [[[h1 h2] w1] w2].
  destruct Hb as (B1 & B2 & B3 & B4).
  destruct (shaped_11_inv _ _ _ Hs) as (pl & -> & Hpl).
  unfold crop_incr_win, crop_incr, count_at. simpl. split.
  - apply shaped_11_intro. now apply rows_ok_incr.
  - now apply nth_incr_plane with (h := h) (w := w).
Qed.

Lemma count_at_fold wins : forall count h w i j,
  shaped count 1 1 h w -> Forall (win_in_bounds h w) wins ->
  0 <= i -> 0 <= j ->
  count_at (fold_left crop_incr_win wins count) i j
  = count_at count i j + hits wins i j.
Proof.
  induction wins as [|win wins IH]; intros count h w i j Hs Hb Hi Hj; simpl.
  - unfold hits, len. simpl. lia.
  - inversion Hb as [|? ? Hwin Hrest]; subst.
    destruct (count_at_crop_incr count h w win i j Hs Hwin Hi Hj) as [Hs' E].
    rewrite (IH _ h w i j Hs' Hrest Hi Hj), E.
    unfold hits, len. simpl. destruct (in_window win i j); simpl; lia.
Qed.

Lemma count_at_zeros h w i j : count_at (full 0 1 1 h w) i j = 0.
Proof.
  unfold count_at, full. simpl.
  destruct (nth_in_or_default (Z.to_nat i)
              (repeat (repeat 0 (Z.to_nat w)) (Z.to_nat h)) []) as [H|H].
  - apply repeat_spec in H. rewrite H.
    destruct (nth_in_or_default (Z.to_nat j) (repeat 0 (Z.to_nat w)) 0)
      as [H'|H']; [now apply repeat_spec in H'|exact H'].
  - rewrite H. now destruct (Z.to_nat j).
Qed.

Lemma fold_left_over_map {A B T} (g : A -> B) (f : T -> B -> T) l t :
  fold_left f (map g l) t = fold_left (fun t x => f t (g x)) l t.
Proof. revert t. induction l; intros t; simpl; [reflexivity|apply IHl]. Qed.

Lemma slide_step_count model img h_img w_img h_crop w_crop h_stride w_stride
      r c st st' log :
  slide_step model img h_img w_img h_crop w_crop h_stride w_stride r c st
  = (Ok st', log) ->
  snd st' = crop_incr_win (snd st)
              (window h_img w_img h_crop w_crop h_stride w_stride r c).
Proof.
  unfold slide_step. destruct st as [fl cnt].
  destruct (window _ _ _ _ _ _ r c) as [[[h1 h2] w1] w2]. intros H.
  apply bind_ok_inv in H. destruct H as (logits & l1 & l2 & _ & H & _).
  apply bind_ok_inv in H. destruct H as (logit & l3 & l4 & _ & H & _).
  apply bind_ok_inv in H. destruct H as (fl' & l5 & l6 & _ & H & _).
  inversion H; subst. reflexivity.
Qed.

Lemma windows_in_bounds h_img w_img h_crop w_crop h_stride w_stride rows cols :
  0 <= h_img -> 0 <= w_img -> 0 <= h_crop -> 0 <= w_crop ->
  0 <= h_stride -> 0 <= w_stride ->
  Forall (win_in_bounds h_img w_img)
         (windows h_img w_img h_crop w_crop h_stride w_stride rows cols).
Proof.
  intros. apply Forall_forall. intros win Hwin. unfold windows in Hwin.
  apply in_map_iff in Hwin. destruct Hwin as ([r c] & <- & Hrc).
  apply in_grid in Hrc. cbn [fst snd]. rewrite window_spans.
  pose proof (span_within r h_stride h_crop h_img) as Sh.
  pose proof (span_within c w_stride w_crop w_img) as Sw.
  unfold span_ok in *. unfold win_in_bounds. lia.
Qed.

(** After a tiling pass that completes, the count of a pixel is the number
    of windows of the grid that contain it. *)
Lemma slide_pass_count model img w_crop h_crop w_stride h_stride num_classes
      rows cols fl count log i j :
  crop_nums (height img) (width img) h_crop w_crop h_stride w_stride
  = (Ok (rows, cols), []) ->
  0 <= h_crop -> 0 <= w_crop -> 0 <= h_stride -> 0 <= w_stride ->
  slide_pass model img (w_crop, h_crop) (w_stride, h_stride) num_classes
  = (Ok (fl, count), log) ->
  0 <= i -> 0 <= j ->
  count_at count i j
  = hits (windows (height img) (width img) h_crop w_crop h_stride w_stride
            rows cols) i j.
Proof.
  intros E Hhc Hwc Hhs Hws Hp Hi Hj.
  rewrite (slide_pass_loop _ _ _ _ _ _ _ _ _ E) in Hp.
  apply (for_each_fold snd
           (fun cnt rc => crop_incr_win cnt
              (window (height img) (width img) h_crop w_crop h_stride w_stride
                 (fst rc) (snd rc)))) in Hp.
  - simpl in Hp. subst count.
    pose proof (len_nonneg (hd [] (hd [] img))) as Hh.
    pose proof (len_nonneg (hd [] (hd [] (hd [] img)))) as Hw.
    rewrite <- (fold_left_over_map
                  (fun rc => window (height img) (width img) h_crop w_crop
                               h_stride w_stride (fst rc) (snd rc))
                  crop_incr_win).
    fold (windows (height img) (width img) h_crop w_crop h_stride w_stride
            rows cols).
    rewrite (count_at_fold _ _ (height img) (width img)).
    + rewrite count_at_zeros. lia.
    + apply shaped_full; (lia || exact Hh || exact Hw).
    + apply windows_in_bounds; (lia || exact Hh || exact Hw).
    + exact Hi.
    + exact Hj.
  - intros rc s s' l Hstep. now apply slide_step_count in Hstep.
Qed.

(** ** Coverage along one axis *)

Lemma covers_crop_num n crop stride :
  0 < stride -> stride <= crop -> covers (crop_num n crop stride) stride crop n.
Proof.
  intros Hs Hsc i Hi. unfold crop_num, span. simpl.
  destruct (Z.leb_spec n crop) as [Hn|Hn].
  - exists 0. lia.
  - set (q := Z.max (n - crop + stride - 1) 0 / stride).
    assert (Hq1 : stride * q <= n - crop + stride - 1)
      by (unfold q; rewrite Z.max_l by lia; apply Z.mul_div_le; lia).
    assert (Hq2 : n - crop + stride - 1 < stride * q + stride).
    { unfold q. rewrite Z.max_l by lia.
      pose proof (Z.mul_succ_div_gt (n - crop + stride - 1) stride Hs). lia. }
    assert (Hq0 : 0 <= q) by (unfold q; apply Z.div_pos; lia).
    pose proof (Z.mul_div_le i stride Hs) as Hd1.
    pose proof (Z.mul_succ_div_gt i stride Hs) as Hd2.
    assert (Hd0 : 0 <= i / stride) by (apply Z.div_pos; lia).
    destruct (Z.le_gt_cases (i / stride) q) as [Hle|Hgt].
    + exists (i / stride). lia.
    + exists q. assert (stride * q <= stride * (i / stride)) by nia. lia.
Qed.

Lemma covers_at_least n crop stride k :
  0 < stride -> 0 < n -> covers k stride crop n -> crop_num n crop stride <= k.
Proof.
  intros Hs Hn Hc. destruct (Hc (n - 1)) as (r & Hr & Hlo & Hhi); [lia|].
  unfold span in *. simpl in *. unfold crop_num.
  destruct (Z.leb_spec n crop) as [Hnc|Hnc]; [lia|].
  set (q := Z.max (n - crop + stride - 1) 0 / stride).
  assert (Hq1 : stride * q <= n - crop + stride - 1)
    by (unfold q; rewrite Z.max_l by lia; apply Z.mul_div_le; lia).
  assert (n <= r * stride + crop) by lia.
  assert (q <= r) by nia. lia.
Qed.

Lemma hits_pos wins win i j :
  In win wins -> in_window win i j = true -> 1 <= hits wins i j.
Proof.
  intros Hin Hw. unfold hits, len.
  assert (H : In win (filter (fun win => in_window win i j) wins))
    by (apply filter_In; now split).
  destruct (filter _ wins); [contradiction|simpl; lia].
Qed.

Lemma covered_pixel_hit h_img w_img h_crop w_crop h_stride w_stride rows cols
      i j :
  covers rows h_stride h_crop h_img -> covers cols w_stride w_crop w_img ->
  0 <= i < h_img -> 0 <= j < w_img ->
  1 <= hits (windows h_img w_img h_crop w_crop h_stride w_stride rows cols) i j.
Proof.
  intros Ch Cw Hi Hj.
  destruct (Ch i Hi) as (r & Hr & Hr1 & Hr2).
  destruct (Cw j Hj) as (c & Hc & Hc1 & Hc2).
  apply hits_pos
    with (win := window h_img w_img h_crop w_crop h_stride w_stride r c).
  - unfold windows. apply in_map_iff. exists (r, c). split; [reflexivity|].
    now apply in_grid.
  - rewrite window_spans. unfold in_window.
    apply Z.leb_le in Hr1, Hc1. apply Z.ltb_lt in Hr2, Hc2.
    now rewrite Hr1, Hr2, Hc1, Hc2.
Qed.

(** ** Shapes through the tensor operations *)

Lemma len_map {A B} (f : A -> B) l : len (map f l) = len l.
Proof. unfold len. now rewrite length_map. Qed.

Lemma len_app {A} (l1 l2 : list A) : len (l1 ++ l2) = len l1 + len l2.
Proof. unfold len. rewrite length_app. lia. Qed.

Lemma shaped_crop {A} (t : tensor4 A) n c h w h1 h2 w1 w2 :
  shaped t n c h w -> 0 <= h1 <= h2 -> h2 <= h -> 0 <= w1 <= w2 -> w2 <= w ->
  shaped (crop t h1 h2 w1 w2) n c (h2 - h1) (w2 - w1).
Proof.
  intros [Hn Ht] H1 H2 H3 H4. unfold crop. split; [now rewrite len_map|].
  apply Forall_map. eapply Forall_impl; [|exact Ht].
  intros im [Hc Him]. split; [now rewrite len_map|].
  apply Forall_map. eapply Forall_impl; [|exact Him].
  intros pl [Hh Hr]. rewrite Forall_forall in Hr. split.
  - rewrite len_map. apply len_py_slice; lia.
  - apply Forall_map. apply Forall_forall. intros row Hrow.
    apply py_slice_incl in Hrow. apply len_py_slice; [lia|].
    rewrite (Hr row Hrow). lia.
Qed.

Lemma len_pad_row left right row :
  0 <= left -> 0 <= right ->
  len (pad_row left right row) = left + len row + right.
Proof.
  intros Hl Hr. unfold pad_row. rewrite !len_app, !len_repeat by lia. lia.
Qed.

Lemma rows_ok_pad pl h w left right top bottom :
  rows_ok pl h w -> 1 <= h ->
  0 <= left -> 0 <= right -> 0 <= top -> 0 <= bottom ->
  rows_ok (pad_plane left right top bottom pl) (top + h + bottom)
          (left + w + right).
Proof.
  intros [Hh Hr] H1 Hl Hrt Ht Hb. unfold pad_plane.
  assert (Hw : len (pad_row left right (hd [] pl)) = left + w + right).
  { rewrite len_pad_row by lia.
    destruct pl as [|row pl]; [unfold len in Hh; simpl in Hh; lia|].
    apply Forall_inv in Hr. simpl. lia. }
  set (blank := repeat 0%Qc _).
  assert (Hblank : len blank = left + w + right)
    by (unfold blank, len; rewrite repeat_length; exact Hw).
  clearbody blank. split.
  - rewrite !len_app, len_map, !len_repeat by lia. lia.
  - apply Forall_app. split; [|apply Forall_app; split].
    + apply Forall_forall. intros x Hx. apply repeat_spec in Hx. now subst.
    + apply Forall_map. eapply Forall_impl; [|exact Hr].
      intros row Hrow. cbv beta in Hrow. rewrite len_pad_row by lia. lia.
    + apply Forall_forall. intros x Hx. apply repeat_spec in Hx. now subst.
Qed.

Lemma shaped_pad (t : tensor) n c h w left right top bottom :
  shaped t n c h w -> 1 <= h ->
  0 <= left -> 0 <= right -> 0 <= top -> 0 <= bottom ->
  shaped (pad t left right top bottom) n c (top + h + bottom)
         (left + w + right).
Proof.
  intros [Hn Ht] H1 Hl Hr Htop Hb. unfold pad. split; [now rewrite len_map|].
  apply Forall_map. eapply Forall_impl; [|exact Ht].
  intros im [Hc Him]. split; [now rewrite len_map|].
  apply Forall_map. eapply Forall_impl; [|exact Him].
  intros pl Hpl. now apply rows_ok_pad.
Qed.

Lemma zip_strict_total {A B C} (f : A -> B -> option C)
      (P : A -> Prop) (Q : B -> Prop) (R : C -> Prop) :
  (forall x y, P x -> Q y -> exists z, f x y = Some z /\ R z) ->
  forall l1 l2, len l1 = len l2 -> Forall P l1 -> Forall Q l2 ->
    exists l, zip_strict f l1 l2 = Some l /\ len l = len l1 /\ Forall R l.
Proof.
  intros Hf. induction l1 as [|x l1 IH]; intros [|y l2] Hl H1 H2;
    try (unfold len in Hl; simpl in Hl; lia).
  - exists []. repeat split. constructor.
  - inversion H1; subst. inversion H2; subst.
    destruct (Hf x y) as (z & Ez & Rz); [assumption..|].
    destruct (IH l2) as (l & El & Ll & Rl);
      [unfold len in *; simpl in Hl; lia|assumption..|].
    exists (z :: l). simpl. rewrite Ez, El. repeat split.
    + unfold len in *. simpl. lia.
    + now constructor.
Qed.

Lemma tadd_shaped (a b : tensor) n c h w :
  shaped a n c h w -> shaped b n c h w ->
  exists t, tadd a b = (Ok t, []) /\ shaped t n c h w.
Proof.
  intros [Ha Fa] [Hb Fb]. unfold tadd.
  destruct (zip_strict_total
              (zip_strict (zip_strict (zip_strict
                 (fun x y => Some (x + y)%Qc))))
              (fun im => len im = c /\ Forall (fun pl => rows_ok pl h w) im)
              (fun im => len im = c /\ Forall (fun pl => rows_ok pl h w) im)
              (fun im => len im = c /\ Forall (fun pl => rows_ok pl h w) im))
    with (l1 := a) (l2 := b) as (t & Et & Lt & Ft);
    [|lia|assumption..|].
  - intros im1 im2 [Hc1 F1] [Hc2 F2].
    destruct (zip_strict_total
                (zip_strict (zip_strict (fun x y => Some (x + y)%Qc)))
                (fun pl => rows_ok pl h w) (fun pl => rows_ok pl h w)
                (fun pl => rows_ok pl h w))
      with (l1 := im1) (l2 := im2) as (im & Ei & Li & Fi);
      [|lia|assumption..|].
    + intros pl1 pl2 [Hh1 R1] [Hh2 R2].
      destruct (zip_strict_total
                  (zip_strict (fun x y => Some (x + y)%Qc))
                  (fun row => len row = w) (fun row => len row = w)
                  (fun row => len row = w))
        with (l1 := pl1) (l2 := pl2) as (pl & Ep & Lp & Fp);
        [|lia|assumption..|].
      * intros r1 r2 Hr1 Hr2.
        destruct (zip_strict_total (fun x y => Some (x + y)%Qc)
                    (fun _ => True) (fun _ => True) (fun _ => True))
          with (l1 := r1) (l2 := r2) as (r & Er & Lr & _);
          [|lia|apply Forall_forall; trivial..|].
        -- intros x y _ _. now exists (x + y)%Qc.
        -- exists r. split; [exact Er|lia].
      * exists pl. split; [exact Ep|]. split; [lia|exact Fp].
    + exists im. split; [exact Ei|]. split; [lia|exact Fi].
  - rewrite Et. exists t. split; [reflexivity|]. split; [lia|exact Ft].
Qed.

Lemma zip_with_shape {A B C} (f : A -> B -> C)
      (P : A -> Prop) (Q : B -> Prop) (R : C -> Prop) :
  (forall x y, P x -> Q y -> R (f x y)) ->
  forall l1 l2, len l1 = len l2 -> Forall P l1 -> Forall Q l2 ->
    len (zip_with f l1 l2) = len l1 /\ Forall R (zip_with f l1 l2).
Proof.
  intros Hf. induction l1 as [|x l1 IH]; intros [|y l2] Hl H1 H2;
    try (unfold len in Hl; simpl in Hl; lia).
  - split; [reflexivity|constructor].
  - inversion H1; subst. inversion H2; subst.
    destruct (IH l2) as [Ll Rl];
      [unfold len in *; simpl in Hl; lia|assumption..|].
    simpl. split; [unfold len in *; simpl; lia|].
    constructor; [now apply Hf|exact Rl].
Qed.

Lemma shaped_div_count (t : tensor) (count : tensor4 Z) n c h w :
  shaped t n c h w -> shaped count 1 1 h w ->
  shaped (div_count t count) n c h w.
Proof.
  intros [Hn Ht] Hc.
  destruct (shaped_11_inv _ _ _ Hc) as (cnt & -> & [Hch Hcr]).
  unfold div_count. simpl. split; [now rewrite len_map|].
  apply Forall_map. eapply Forall_impl; [|exact Ht].
  intros im [Hic Him]. split; [now rewrite len_map|].
  apply Forall_map. eapply Forall_impl; [|exact Him].
  intros pl [Hh Hr].
  destruct (zip_with_shape
              (zip_with (fun x k => (x / Q2Qc (inject_Z k))%Qc))
              (fun row => len row = w) (fun row => len row = w)
              (fun row => len row = w))
    with (l1 := pl) (l2 := cnt) as [L F]; [|lia|assumption..|].
  - intros r1 r2 Hr1 Hr2.
    destruct (zip_with_shape (fun x k => (x / Q2Qc (inject_Z k))%Qc)
                (fun _ => True) (fun _ => True) (fun _ => True))
      with (l1 := r1) (l2 := r2) as [L _];
      [trivial|lia|apply Forall_forall; trivial..|lia].
  - split; [lia|exact F].
Qed.

(** ** The tiling pass completes *)

Lemma contract_classes_nonneg model num_classes (img : tensor) c h w :
  model_contract model num_classes -> shaped img 1 c h w ->
  1 <= c -> 1 <= h -> 0 <= num_classes.
Proof.
  intros Hm Hs Hc Hh. apply has_shape_iff in Hs.
  destruct (Hm img c h w Hc Hh Hs) as (y & rest & _ & Hy).
  apply has_shape_iff in Hy. destruct Hy as [Hn Hy].
  destruct y as [|im y]; [unfold len in Hn; simpl in Hn; lia|].
  apply Forall_inv in Hy. destruct Hy as [Hnc _].
  pose proof (len_nonneg im). lia.
Qed.

Lemma slide_step_total model img num_classes c_img h_img w_img
      h_crop w_crop h_stride w_stride r c fl count :
  model_contract model num_classes ->
  shaped img 1 c_img h_img w_img -> 1 <= c_img -> 1 <= h_img -> 0 <= w_img ->
  0 < h_crop -> 0 < w_crop -> 0 <= h_stride -> 0 <= w_stride ->
  0 <= r -> 0 <= c ->
  shaped fl 1 num_classes h_img w_img -> shaped count 1 1 h_img w_img ->
  exists st' log,
    slide_step model img h_img w_img h_crop w_crop h_stride w_stride r c
               (fl, count) = (Ok st', log) /\
    shaped (fst st') 1 num_classes h_img w_img /\
    shaped (snd st') 1 1 h_img w_img.
Proof.
  intros Hm Hi Hci Hh Hw Hhc Hwc Hhs Hws Hr Hc Hfl Hcnt.
  unfold slide_step. rewrite window_spans.
  pose proof (span_within r h_stride h_crop h_img) as Sh.
  pose proof (span_within c w_stride w_crop w_img) as Sw.
  destruct (span r h_stride h_crop h_img) as [h1 h2].
  destruct (span c w_stride w_crop w_img) as [w1 w2].
  cbn [fst snd] in *.
  destruct Sh as (A1 & A2 & A3 & A4 & A5); [lia..|].
  destruct Sw as (B1 & B2 & B3 & B4 & B5); [lia..|].
  assert (Hcrop : shaped (crop img h1 h2 w1 w2) 1 c_img (h2 - h1) (w2 - w1))
    by (apply shaped_crop with (h := h_img) (w := w_img); [exact Hi|lia..]).
  apply has_shape_iff in Hcrop.
  assert (Hwin : 1 <= h2 - h1) by lia.
  destruct (Hm _ _ _ _ Hci Hwin Hcrop) as (y & rest & Ey & Hy).
  apply has_shape_iff in Hy.
  assert (Hpad : shaped (pad y w1 (w_img - w2) h1 (h_img - h2)) 1 num_classes
                        h_img w_img).
  { replace h_img with (h1 + (h2 - h1) + (h_img - h2)) at 2 by lia.
    replace w_img with (w1 + (w2 - w1) + (w_img - w2)) at 2 by lia.
    apply shaped_pad; [exact Hy|lia..]. }
  destruct (tadd_shaped _ _ _ _ _ _ Hfl Hpad) as (fl' & Efl & Hfl').
  exists (fl', crop_incr count h1 h2 w1 w2), [crop img h1 h2 w1 w2].
  split; [|split].
  - unfold call_model. simpl. rewrite Ey. simpl. rewrite Efl. reflexivity.
  - exact Hfl'.
  - simpl.
    apply (count_at_crop_incr count h_img w_img (h1, h2, w1, w2) 0 0);
      [exact Hcnt|unfold win_in_bounds; lia|lia|lia].
Qed.

Lemma slide_pass_total model img num_classes c_img h_img w_img
      h_crop w_crop h_stride w_stride :
  model_contract model num_classes ->
  shaped img 1 c_img h_img w_img -> 1 <= c_img -> 1 <= h_img ->
  0 < h_crop -> 0 < w_crop -> 0 < h_stride -> 0 < w_stride ->
  exists fl count log,
    slide_pass model img (w_crop, h_crop) (w_stride, h_stride) num_classes
    = (Ok (fl, count), log) /\
    shaped fl 1 num_classes h_img w_img /\ shaped count 1 1 h_img w_img.
Proof.
  intros Hm Hi Hc Hh Hhc Hwc Hhs Hws.
  destruct (shaped_height_width _ _ _ _ _ Hi ltac:(lia) Hc Hh) as [Eh Ew].
  assert (Hw : 0 <= w_img) by (rewrite <- Ew; apply len_nonneg).
  pose proof (contract_classes_nonneg _ _ _ _ _ _ Hm Hi Hc Hh) as Hnc.
  assert (Hhs0 : h_stride <> 0) by lia.
  assert (Hws0 : w_stride <> 0) by lia.
  rewrite (slide_pass_loop _ _ _ _ _ _ _ _ _
             (crop_nums_value (height img) (width img) h_crop w_crop
                h_stride w_stride Hhs0 Hws0)).
  rewrite Eh, Ew.
  destruct (for_each_total
              (fun st => shaped (fst st) 1 num_classes h_img w_img /\
                         shaped (snd st) 1 1 h_img w_img)
              (fun rc => slide_step model img h_img w_img h_crop w_crop
                           h_stride w_stride (fst rc) (snd rc))
              (grid (crop_num h_img h_crop h_stride)
                    (crop_num w_img w_crop w_stride)))
    with (s := (full 0%Qc 1 num_classes h_img w_img, full 0 1 1 h_img w_img))
    as ([fl count] & log & E & Hfl & Hcnt).
  - intros [r c] [fl count] Hrc [Hfl Hcnt]. apply in_grid in Hrc.
    destruct (slide_step_total model img num_classes c_img h_img w_img
                h_crop w_crop h_stride w_stride r c fl count)
      as (st' & log & E & H1 & H2); try assumption; try lia.
    now exists st', log.
  - split; apply shaped_full; lia.
  - now exists fl, count, log.
Qed.

(** C7. For a positive crop and stride of any size, and a model that keeps
    its contract, [slide_inference] returns a logit map of shape
    (1, num_classes, H, W), where (H, W) is the spatial size of the image. *)
Theorem slide_inference_preserves_shape
        (model : model_t) (img : tensor)
        (c_img h_img w_img w_crop h_crop w_stride h_stride num_classes : Z) :
  has_shape img 1 c_img h_img w_img = true -> 1 <= c_img -> 1 <= h_img ->
  0 < w_crop -> 0 < h_crop -> 0 < w_stride -> 0 < h_stride ->
  model_contract model num_classes ->
  exists logit log,
    slide_inference model img (w_crop, h_crop) (w_stride, h_stride)
                    num_classes = (Ok logit, log) /\
    has_shape logit 1 num_classes h_img w_img = true /\
    (1 <= num_classes ->
     height logit = height img /\ width logit = width img).
Proof.
  intros Hi Hc Hh Hwc Hhc Hws Hhs Hm. apply has_shape_iff in Hi.
  destruct (slide_pass_total model img num_classes c_img h_img w_img
              h_crop w_crop h_stride w_stride)
    as (fl & count & log & E & Hfl & Hcnt); try assumption.
  exists (div_count fl count), log. unfold slide_inference. rewrite E.
  simpl. rewrite app_nil_r. split; [reflexivity|].
  pose proof (shaped_div_count _ _ _ _ _ _ Hfl Hcnt) as Hd.
  split; [now apply has_shape_iff|]. intros Hnc.
  destruct (shaped_height_width _ _ _ _ _ Hi ltac:(lia) Hc Hh) as [Eh Ew].
  rewrite Eh, Ew.
  exact (shaped_height_width _ _ _ _ _ Hd ltac:(lia) Hnc Hh).
Qed.

Lemma zero_model_contract num_classes :
  0 <= num_classes -> model_contract (zero_model num_classes) num_classes.
Proof.
  intros Hn x c h w Hc Hh Hs. apply has_shape_iff in Hs.
  destruct (shaped_height_width _ _ _ _ _ Hs ltac:(lia) Hc Hh) as [Eh Ew].
  exists (full 0%Qc 1 num_classes (height x) (width x)), [].
  split; [reflexivity|]. apply has_shape_iff. rewrite Eh, Ew.
  apply shaped_full; try lia. rewrite <- Ew. apply len_nonneg.
Qed.

Lemma windows_clamped_to_crop_size_witness :
  0 < 4 /\
  exists rows cols,
    crop_nums 10 10 4 4 4 4 = (Ok (rows, cols), []) /\
    forall r c, In (r, c) (grid rows cols) ->
      let '(h1, h2, w1, w2) := window 10 10 4 4 4 4 r c in
      span_ok h1 h2 4 10 /\ span_ok w1 w2 4 10.
Proof.
  split; [lia|].
  destruct (windows_clamped_to_crop_size (zero_model 2) (full 0%Qc 1 3 10 10)
              4 4 4 4 2) as (rows & cols & E & _ & _ & Hwin); try lia.
  exists rows, cols. split; [exact E|]. intros r c Hrc.
  specialize (Hwin r c Hrc).
  change (height (full 0%Qc 1 3 10 10)) with 10 in Hwin.
  change (width (full 0%Qc 1 3 10 10)) with 10 in Hwin.
  destruct (window 10 10 4 4 4 4 r c) as [[[h1 h2] w1] w2].
  destruct Hwin as (_ & _ & _ & _ & Sh & Sw). now split.
Defined.

Lemma slide_inference_preserves_shape_witness :
  has_shape (full 0%Qc 1 3 10 10) 1 3 10 10 = true /\
  exists logit log,
    slide_inference (zero_model 2) (full 0%Qc 1 3 10 10) (4, 4) (4, 4) 2
    = (Ok logit, log) /\
    has_shape logit 1 2 10 10 = true.
Proof.
  split; [reflexivity|].
  destruct (slide_inference_preserves_shape (zero_model 2)
              (full 0%Qc 1 3 10 10) 3 10 10 4 4 4 4 2)
    as (logit & log & E & Hs & _);
    try lia; [reflexivity|apply zero_model_contract; lia|].
  exists logit, log. split; [exact E|exact Hs].
Defined.

(** ** Coverage completeness *)

(** C1, as stated, fails: a 10 x 10 image with crop (2, 2) and stride
    (5, 5), both positive and no larger than the image, leaves pixel (0, 2)
    with a count of 0. *)
Lemma coverage_gap_when_stride_exceeds_crop :
  0 < 2 <= 10 /\ 0 < 5 <= 10 /\
  option_map (fun count => count_at count 0 2)
    (pass_count (slide_pass (zero_model 2) (full 1%Qc 1 3 10 10)
                   (2, 2) (5, 5) 2))
  = Some 0.
Proof. split; [lia|split; [lia|]]. vm_compute. reflexivity. Qed.

(** C1 (amended).  For an image of size H x W and a positive crop and
    stride, each no larger than the image and with the stride no larger
    than the crop in each dimension, every pixel's entry in the coverage
    count map is at least 1 after a tiling pass that completes; and the
    pass completes for every model that keeps its contract. *)
Theorem coverage_complete
        (model : model_t) (img : tensor)
        (c_img h_img w_img w_crop h_crop w_stride h_stride num_classes : Z) :
  has_shape img 1 c_img h_img w_img = true -> 1 <= c_img ->
  0 < h_crop <= h_img -> 0 < w_crop <= w_img ->
  0 < h_stride <= h_img -> 0 < w_stride <= w_img ->
  h_stride <= h_crop -> w_stride <= w_crop ->
  (forall fl count log,
     slide_pass model img (w_crop, h_crop) (w_stride, h_stride) num_classes
     = (Ok (fl, count), log) ->
     forall i j, 0 <= i < h_img -> 0 <= j < w_img -> 1 <= count_at count i j) /\
  (model_contract model num_classes ->
   exists fl count log,
     slide_pass model img (w_crop, h_crop) (w_stride, h_stride) num_classes
     = (Ok (fl, count), log)).
Proof.
  intros Hi Hc Hhc Hwc Hhs Hws Hsh Hsw. apply has_shape_iff in Hi.
  destruct (shaped_height_width _ _ _ _ _ Hi ltac:(lia) Hc ltac:(lia))
    as [Eh Ew].
  split.
  - intros fl count log Hp i j Hij Hj.
    assert (Hhs0 : h_stride <> 0) by lia.
    assert (Hws0 : w_stride <> 0) by lia.
    rewrite (slide_pass_count model img w_crop h_crop w_stride h_stride
               num_classes _ _ fl count log i j
               (crop_nums_value (height img) (width img) h_crop w_crop
                  h_stride w_stride Hhs0 Hws0)); try lia; try exact Hp.
    rewrite Eh, Ew.
    apply covered_pixel_hit; try assumption; apply covers_crop_num; lia.
  - intros Hm.
    destruct (slide_pass_total model img num_classes c_img h_img w_img
                h_crop w_crop h_stride w_stride)
      as (fl & count & log & E & _); try assumption; try lia.
    now exists fl, count, log.
Qed.

Lemma coverage_complete_witness :
  has_shape (full 1%Qc 1 3 10 10) 1 3 10 10 = true /\ 0 < 4 <= 10 /\ 4 <= 4 /\
  exists fl count log,
    slide_pass (zero_model 2) (full 1%Qc 1 3 10 10) (4, 4) (4, 4) 2
    = (Ok (fl, count), log) /\
    forall i j, 0 <= i < 10 -> 0 <= j < 10 -> 1 <= count_at count i j.
Proof.
  split; [reflexivity|split; [lia|split; [lia|]]].
  destruct (coverage_complete (zero_model 2) (full 1%Qc 1 3 10 10)
              3 10 10 4 4 4 4 2) as [Hcov Htot];
    try lia; [reflexivity|].
  destruct (Htot (zero_model_contract 2 ltac:(lia))) as (fl & count & log & E).
  exists fl, count, log. split; [exact E|]. exact (Hcov fl count log E).
Defined.

(** ** The window grid *)

Lemma covered_pixel_in_window h_img w_img h_crop w_crop h_stride w_stride
      rows cols i j :
  covers rows h_stride h_crop h_img -> covers cols w_stride w_crop w_img ->
  0 <= i < h_img -> 0 <= j < w_img ->
  exists win,
    In win (windows h_img w_img h_crop w_crop h_stride w_stride rows cols) /\
    in_window win i j = true.
Proof.
  intros Ch Cw Hi Hj.
  destruct (Ch i Hi) as (r & Hr & Hr1 & Hr2).
  destruct (Cw j Hj) as (c & Hc & Hc1 & Hc2).
  exists (window h_img w_img h_crop w_crop h_stride w_stride r c). split.
  - unfold windows. apply in_map_iff. exists (r, c). split; [reflexivity|].
    now apply in_grid.
  - rewrite window_spans. unfold in_window.
    apply Z.leb_le in Hr1, Hc1. apply Z.ltb_lt in Hr2, Hc2.
    now rewrite Hr1, Hr2, Hc1, Hc2.
Qed.

(** C6, as stated, fails: along an axis of length 10 with crop 2 and
    stride 5 the formula gives 3 windows, [0, 2), [5, 7) and [8, 10), and
    they do not cover the axis (position 2 is in none of them). *)
Lemma crop_nums_does_not_cover_with_wide_stride :
  crop_nums 10 10 2 2 5 5 = (Ok (3, 3), []) /\ ~ covers 3 5 2 10.
Proof.
  split; [reflexivity|]. intros H.
  destruct (H 2) as (r & Hr & H1 & H2); [lia|].
  unfold span in *. simpl in *. lia.
Qed.

(** C6 (amended).  For a stride other than 0, [crop_nums] returns
    rows = max(H - crop_h + stride_h - 1, 0) // stride_h + 1 (similarly for
    columns), replaced by 1 along an axis where the image is no larger
    than the crop.  When the stride is positive and no larger than the
    crop and the axis is not empty, that number of stride-spaced, clamped
    windows covers the axis and no smaller number does.  For a
    (1, 3, 10, 10) image with crop (4, 4) and stride (4, 4) it is
    rows = cols = 3; every one of the 100 pixels lies in a window of the
    grid, and has a count of at least 1 after the pass. *)
Theorem crop_nums_minimal_cover
        (model : model_t) (img : tensor)
        (h_img w_img h_crop w_crop h_stride w_stride : Z) :
  h_stride <> 0 -> w_stride <> 0 -> has_shape img 1 3 10 10 = true ->
  let rows := if h_img <=? h_crop then 1
              else Z.max (h_img - h_crop + h_stride - 1) 0 / h_stride + 1 in
  let cols := if w_img <=? w_crop then 1
              else Z.max (w_img - w_crop + w_stride - 1) 0 / w_stride + 1 in
  crop_nums h_img w_img h_crop w_crop h_stride w_stride
  = (Ok (rows, cols), []) /\
  (h_img <= h_crop -> rows = 1) /\ (w_img <= w_crop -> cols = 1) /\
  (0 < h_stride <= h_crop -> 0 < h_img ->
   covers rows h_stride h_crop h_img /\
   forall k, covers k h_stride h_crop h_img -> rows <= k) /\
  (0 < w_stride <= w_crop -> 0 < w_img ->
   covers cols w_stride w_crop w_img /\
   forall k, covers k w_stride w_crop w_img -> cols <= k) /\
  crop_nums 10 10 4 4 4 4 = (Ok (3, 3), []) /\
  (forall i j, 0 <= i < 10 -> 0 <= j < 10 ->
     exists win, In win (windows 10 10 4 4 4 4 3 3) /\
                 in_window win i j = true) /\
  (forall fl count log,
     slide_pass model img (4, 4) (4, 4) 2 = (Ok (fl, count), log) ->
     forall i j, 0 <= i < 10 -> 0 <= j < 10 -> 1 <= count_at count i j).
Proof.
  intros Hhs Hws Hi rows cols.
  assert (C4 : covers 3 4 4 10) by (apply (covers_crop_num 10 4 4); lia).
  split; [apply crop_nums_value; assumption|].
  split; [intros H; unfold rows; apply Z.leb_le in H; now rewrite H|].
  split; [intros H; unfold cols; apply Z.leb_le in H; now rewrite H|].
  split; [|split; [|split; [|split]]].
  - intros Hs Hn. split.
    + apply covers_crop_num; lia.
    + intros k Hk. apply (covers_at_least h_img h_crop h_stride k); (lia || exact Hk).
  - intros Hs Hn. split.
    + apply covers_crop_num; lia.
    + intros k Hk. apply (covers_at_least w_img w_crop w_stride k); (lia || exact Hk).
  - reflexivity.
  - intros i j Hij Hj. now apply covered_pixel_in_window.
  - intros fl count log Hp i j Hij Hj. apply has_shape_iff in Hi.
    destruct (shaped_height_width _ _ _ _ _ Hi ltac:(lia) ltac:(lia)
                ltac:(lia)) as [Eh Ew].
    assert (E : crop_nums (height img) (width img) 4 4 4 4
                = (Ok (3, 3), [])) by (rewrite Eh, Ew; reflexivity).
    rewrite (slide_pass_count model img 4 4 4 4 2 3 3 fl count log i j E);
      try lia; try exact Hp.
    rewrite Eh, Ew. now apply covered_pixel_hit.
Qed.

Lemma crop_nums_minimal_cover_witness :
  4 <> 0 /\ has_shape (full 1%Qc 1 3 10 10) 1 3 10 10 = true /\
  crop_nums 10 10 4 4 4 4 = (Ok (3, 3), []) /\
  covers 3 4 4 10 /\ (forall k, covers k 4 4 10 -> 3 <= k).
Proof.
  split; [lia|]. split; [reflexivity|].
  destruct (crop_nums_minimal_cover (zero_model 2) (full 1%Qc 1 3 10 10)
              10 10 4 4 4 4) as (E & _ & _ & Hrows & _);
    try lia; [reflexivity|].
  split; [exact E|]. apply Hrows; lia.
Defined.

(** ** A single window *)

Lemma map_id_in {A} (f : A -> A) l : (forall x, In x l -> f x = x) -> map f l = l.
Proof.
  intros H. rewrite <- (map_id l) at 2. now apply map_ext_in.
Qed.

Lemma crop_full {A} (t : tensor4 A) n c h w :
  shaped t n c h w -> crop t 0 h 0 w = t.
Proof.
  intros [_ Ht]. rewrite Forall_forall in Ht. unfold crop.
  apply map_id_in. intros im Him. destruct (Ht im Him) as [_ Fim].
  rewrite Forall_forall in Fim.
  apply map_id_in. intros pl Hpl. destruct (Fim pl Hpl) as [Hh Hr].
  rewrite Forall_forall in Hr.
  rewrite <- Hh, py_slice_full.
  apply map_id_in. intros row Hrow. rewrite <- (Hr row Hrow).
  apply py_slice_full.
Qed.

Lemma pad_nothing (t : tensor) : pad t 0 0 0 0 = t.
Proof.
  unfold pad. apply map_id_in. intros im _. apply map_id_in. intros pl _.
  unfold pad_plane. simpl. rewrite app_nil_r.
  apply map_id_in. intros row _. unfold pad_row. simpl. apply app_nil_r.
Qed.

Lemma zip_strict_repeat_l {A B} (f : A -> B -> option B) x n l :
  len l = n -> (forall y, In y l -> f x y = Some y) ->
  zip_strict f (repeat x (Z.to_nat n)) l = Some l.
Proof.
  intros <-. unfold len. rewrite Nat2Z.id.
  induction l as [|y l IH]; intros H; simpl; [reflexivity|].
  rewrite (H y (or_introl eq_refl)), IH; [reflexivity|].
  intros z Hz. apply H. now right.
Qed.

Lemma tadd_zeros (y : tensor) c h w :
  shaped y 1 c h w -> tadd (full 0%Qc 1 c h w) y = (Ok y, []).
Proof.
  intros [Hn Hy]. rewrite Forall_forall in Hy. unfold tadd, full.
  rewrite zip_strict_repeat_l; [reflexivity|exact Hn|].
  intros im Him. destruct (Hy im Him) as [Hc Fim].
  rewrite Forall_forall in Fim.
  apply zip_strict_repeat_l; [exact Hc|].
  intros pl Hpl. destruct (Fim pl Hpl) as [Hh Hr].
  rewrite Forall_forall in Hr.
  apply zip_strict_repeat_l; [exact Hh|].
  intros row Hrow. apply zip_strict_repeat_l; [now apply Hr|].
  intros x _. f_equal. ring.
Qed.

Lemma py_slice_update_full {A} (f : A -> A) (l : list A) :
  py_slice_update f 0 (len l) l = map f l.
Proof.
  rewrite py_slice_update_in_bounds by (pose proof (len_nonneg l); lia).
  unfold len. rewrite Z.sub_0_r, Nat2Z.id. simpl.
  now rewrite firstn_all, skipn_all, app_nil_r.
Qed.

Lemma crop_incr_zeros h w :
  0 <= h -> 0 <= w ->
  crop_incr (full 0 1 1 h w) 0 h 0 w = full 1 1 1 h w.
Proof.
  intros Hh Hw. unfold crop_incr, full. simpl. do 2 f_equal.
  rewrite <- (len_repeat (repeat 0 (Z.to_nat w)) h Hh) at 1.
  rewrite py_slice_update_full, map_repeat. f_equal.
  rewrite <- (len_repeat 0 w Hw) at 1.
  now rewrite py_slice_update_full, map_repeat.
Qed.

Lemma zip_with_repeat_r {A B} (f : A -> B -> A) (l : list A) c n :
  len l = n -> (forall x, In x l -> f x c = x) ->
  zip_with f l (repeat c (Z.to_nat n)) = l.
Proof.
  intros <-. unfold len. rewrite Nat2Z.id.
  induction l as [|x l IH]; intros H; simpl; [reflexivity|].
  rewrite (H x (or_introl eq_refl)), IH; [reflexivity|].
  intros z Hz. apply H. now right.
Qed.

Lemma div_count_ones (y : tensor) n c h w :
  shaped y n c h w -> div_count y (full 1 1 1 h w) = y.
Proof.
  intros [_ Hy]. rewrite Forall_forall in Hy. unfold div_count, full. simpl.
  apply map_id_in. intros im Him. destruct (Hy im Him) as [_ Fim].
  rewrite Forall_forall in Fim.
  apply map_id_in. intros pl Hpl. destruct (Fim pl Hpl) as [Hh Hr].
  rewrite Forall_forall in Hr.
  apply zip_with_repeat_r; [exact Hh|].
  intros row Hrow. apply zip_with_repeat_r; [now apply Hr|].
  intros x _. change (Q2Qc (inject_Z 1)) with 1%Qc. field. discriminate.
Qed.

Lemma crop_num_small n crop stride : n <= crop -> crop_num n crop stride = 1.
Proof. intros H. unfold crop_num. apply Z.leb_le in H. now rewrite H. Qed.

(** C4. When the image is no larger than the crop in height and in width,
    [slide_inference] uses a 1 x 1 grid whose only window is the whole
    image, calls the model once, on the image itself, and returns the
    first output of that call. *)
Theorem single_window_is_whole_image_call
        (model : model_t) (img y : tensor) (rest : list tensor)
        (c_img h_img w_img w_crop h_crop w_stride h_stride num_classes : Z) :
  has_shape img 1 c_img h_img w_img = true -> 1 <= c_img -> 1 <= h_img ->
  h_img <= h_crop -> w_img <= w_crop -> h_stride <> 0 -> w_stride <> 0 ->
  model img = y :: rest -> has_shape y 1 num_classes h_img w_img = true ->
  crop_nums h_img w_img h_crop w_crop h_stride w_stride = (Ok (1, 1), []) /\
  windows h_img w_img h_crop w_crop h_stride w_stride 1 1
  = [(0, h_img, 0, w_img)] /\
  crop_win img (0, h_img, 0, w_img) = img /\
  slide_inference model img (w_crop, h_crop) (w_stride, h_stride) num_classes
  = (Ok y, [img]).
Proof.
  intros Hi Hc Hh Hhc Hwc Hhs Hws Ey Hy.
  apply has_shape_iff in Hi, Hy.
  destruct (shaped_height_width _ _ _ _ _ Hi ltac:(lia) Hc Hh) as [Eh Ew].
  assert (Hw : 0 <= w_img) by (rewrite <- Ew; apply len_nonneg).
  assert (En : crop_nums h_img w_img h_crop w_crop h_stride w_stride
               = (Ok (1, 1), [])).
  { rewrite crop_nums_value by assumption.
    now rewrite !crop_num_small by assumption. }
  assert (Ewin : window h_img w_img h_crop w_crop h_stride w_stride 0 0
                 = (0, h_img, 0, w_img)).
  { unfold window. simpl.
    rewrite (Z.min_r h_crop h_img), (Z.min_r w_crop w_img) by lia.
    now rewrite !Z.max_r by lia. }
  split; [exact En|]. split; [unfold windows; simpl; now rewrite Ewin|].
  split; [now apply crop_full with (n := 1) (c := c_img)|].
  unfold slide_inference.
  rewrite <- Eh, <- Ew in En.
  rewrite (slide_pass_loop _ _ _ _ _ _ _ _ _ En). rewrite Eh, Ew.
  change (grid 1 1) with [(0, 0)]. unfold for_each, slide_step.
  cbn [fst snd]. rewrite Ewin.
  rewrite (crop_full img 1 c_img h_img w_img Hi).
  unfold call_model. cbn [bind]. rewrite Ey. cbn [first_output ret bind].
  rewrite !Z.sub_diag, pad_nothing.
  rewrite (tadd_zeros y num_classes h_img w_img Hy).
  rewrite crop_incr_zeros by lia.
  cbn [bind ret app].
  now rewrite (div_count_ones y 1 num_classes h_img w_img Hy).
Qed.

Lemma single_window_is_whole_image_call_witness :
  has_shape (full 1%Qc 1 3 2 2) 1 3 2 2 = true /\ 2 <= 4 /\ 4 <> 0 /\
  slide_inference (zero_model 2) (full 1%Qc 1 3 2 2) (4, 4) (4, 4) 2
  = (Ok (full 0%Qc 1 2 2 2), [full 1%Qc 1 3 2 2]).
Proof.
  split; [reflexivity|]. split; [lia|]. split; [lia|].
  apply (single_window_is_whole_image_call (zero_model 2) (full 1%Qc 1 3 2 2)
           (full 0%Qc 1 2 2 2) [] 3 2 2 4 4 4 4 2);
    try lia; reflexivity.
Defined.

(** ** aug_inference: the guard on [scales] *)

(** C2 (what the code does).  For a value of [scales] that is neither a
    list nor a tuple, [aug_inference] raises before any model invocation,
    and the exception is a [TypeError], but its message is the
    interpreter's "exceptions must derive from BaseException": the message
    built from the received type is lost.  For [scales = "1.0"] the
    message that was built names [<class 'str'>]; the one raised does
    not. *)
Theorem non_sequence_scales_raise_without_type_name
        (B : Backend) (model : model_t) (img : tensor)
        (ori_shape : option (Z * Z)) (transforms : transforms_t)
        (is_slide : bool) (stride_size crop_size : Z * Z) (num_classes : Z)
        (scales : pyval) (flip_horizontal flip_vertical : bool) :
  as_sequence scales = None ->
  aug_inference B model img ori_shape transforms is_slide stride_size
                crop_size num_classes scales flip_horizontal flip_vertical
  = (Raise (TypeError "exceptions must derive from BaseException"), []) /\
  scales_message (PyStr "1.0") = intended_scales_message /\
  TypeError "exceptions must derive from BaseException"
  <> TypeError intended_scales_message.
Proof.
  intros H. unfold aug_inference. rewrite H.
  split; [reflexivity|]. split; [reflexivity|discriminate].
Qed.

Lemma non_sequence_scales_raise_without_type_name_witness :
  as_sequence (PyStr "1.0") = None /\
  aug_inference ref_backend (zero_model 2) (full 1%Qc 1 3 2 2) (Some (2, 2))
                [] true (4, 4) (4, 4) 2 (PyStr "1.0") true false
  = (Raise (TypeError "exceptions must derive from BaseException"), []).
Proof.
  split; [reflexivity|].
  apply (non_sequence_scales_raise_without_type_name ref_backend
           (zero_model 2) (full 1%Qc 1 3 2 2) (Some (2, 2)) [] true
           (4, 4) (4, 4) 2 (PyStr "1.0") true false eq_refl).
Defined.

(** ** aug_inference: the vertical flip *)

(** C9. [flip_vertical] is accepted and has no effect: two runs of
    [aug_inference] that differ only in it have the same outcome (the same
    prediction map, or the same exception) and perform the same model
    invocations. *)
Theorem flip_vertical_has_no_effect
        (B : Backend) (model : model_t) (img : tensor)
        (ori_shape : option (Z * Z)) (transforms : transforms_t)
        (is_slide : bool) (stride_size crop_size : Z * Z) (num_classes : Z)
        (scales : pyval) (flip_horizontal : bool) (fv1 fv2 : bool) :
  outcome (aug_inference B model img ori_shape transforms is_slide stride_size
             crop_size num_classes scales flip_horizontal fv1)
  = outcome (aug_inference B model img ori_shape transforms is_slide
               stride_size crop_size num_classes scales flip_horizontal fv2) /\
  invocations (aug_inference B model img ori_shape transforms is_slide
                 stride_size crop_size num_classes scales flip_horizontal fv1)
  = invocations (aug_inference B model img ori_shape transforms is_slide
                   stride_size crop_size num_classes scales flip_horizontal
                   fv2).
Proof. split; reflexivity. Qed.

(** ** aug_inference: an empty list of scales *)

(** C10. With [scales = []] (or [()]) the scale loop does not run: no model
    invocation occurs, the accumulator is still the number 0 when it reaches
    [paddle.argmax], and the call raises instead of returning a prediction
    map. *)
Theorem empty_scales_argmax_of_scalar
        (B : Backend) (model : model_t) (img : tensor)
        (ori_shape : option (Z * Z)) (transforms : transforms_t)
        (is_slide : bool) (stride_size crop_size : Z * Z) (num_classes : Z)
        (flip_horizontal flip_vertical : bool) :
  let run := aug_inference B model img ori_shape transforms is_slide
               stride_size crop_size num_classes (PyList [])
               flip_horizontal flip_vertical in
  as_sequence (PyList []) = Some [] /\
  aug_accumulate B model img ori_shape stride_size crop_size num_classes []
                 flip_horizontal = (Ok (AccNum 0), []) /\
  run = paddle_argmax (AccNum 0) /\
  invocations run = [] /\
  (forall pred, outcome run <> Ok pred) /\
  aug_inference B model img ori_shape transforms is_slide stride_size
                crop_size num_classes (PyTuple []) flip_horizontal
                flip_vertical = run.
Proof.
  cbv zeta. split; [reflexivity|]. split; [reflexivity|].
  split; [reflexivity|]. split; [reflexivity|].
  split; [intros pred; discriminate|reflexivity].
Qed.

(** ** aug_inference at the identity scale *)

Lemma py_int_scale_one h : 0 <= h -> py_int (inject_Z h * 1 + (1 # 2))%Q = h.
Proof.
  intros Hh. unfold py_int. simpl.
  rewrite Z.quot_div_nonneg by lia.
  rewrite !Z.mul_1_r.
  symmetry. apply Z.div_unique with (r := 1); lia.
Qed.

Lemma scaled_size_identity h w crop_size :
  0 <= h -> 0 <= w -> fst crop_size <= Z.min h w ->
  scaled_size h w 1 crop_size = (Ok (h, w), []).
Proof.
  intros Hh Hw Hc. unfold scaled_size.
  rewrite !py_int_scale_one by assumption.
  destruct (Z.ltb_spec (Z.min h w) (fst crop_size)); [lia|reflexivity].
Qed.

Lemma scalar_add_zero (t : tensor) : scalar_add 0 t = t.
Proof.
  unfold scalar_add. apply map_id_in. intros im _. apply map_id_in.
  intros pl _. apply map_id_in. intros row _. apply map_id_in. intros x _.
  change (Q2Qc (inject_Z 0)) with 0%Qc. ring.
Qed.

Lemma paddle_argmax_no_calls x : snd (paddle_argmax x) = [].
Proof.
  unfold paddle_argmax. destruct x as [z|t]; [reflexivity|].
  destruct (map_option argmax_chan t); reflexivity.
Qed.

(** C3, as stated, fails: on a 2 x 2 image with crop (4, 4),
    [aug_inference] first resizes the image to 4 x 4 and [inference] does
    not, and the global-pooling model scores the two sizes differently (the
    pooled sum is 16 against 4, on either side of the threshold 10). *)
Lemma identity_scale_differs_on_small_image :
  let img := tensor_of_Z [[[[1; 1]; [1; 1]]]] in
  let model := pool_model (Qc_of_Z 10) in
  outcome (aug_inference ref_backend model img (Some (2, 2)) [] true
             (4, 4) (4, 4) 2 (PyList [1%Q]) false false)
  = Ok [[[[1; 1]; [1; 1]]]] /\
  outcome (inference ref_backend model img (Some (2, 2)) [] true
             (4, 4) (4, 4) 2)
  = Ok (Pred [[[[0; 0]; [0; 0]]]]).
Proof. split; vm_compute; reflexivity. Qed.

(** C3 (amended).  For every model and every image whose height and width
    are both at least [crop_size[0]], and which the bilinear resize to its
    own size leaves unchanged, [aug_inference] with scales = [1.0] and both
    flips disabled has the outcome of [inference] with [is_slide = True] on
    the same model, image, ori_shape, crop_size, stride_size and
    num_classes: the same prediction map, with the same model
    invocations. *)
Theorem identity_scale_matches_inference
        (B : Backend) (model : model_t) (img : tensor) (ori_shape : Z * Z)
        (transforms : transforms_t) (is_slide : bool)
        (stride_size crop_size : Z * Z) (num_classes : Z) :
  fst crop_size <= Z.min (height img) (width img) ->
  interpolate B img (height img, width img) = img ->
  map_outcome Pred
    (aug_inference B model img (Some ori_shape) transforms is_slide
       stride_size crop_size num_classes (PyList [1%Q]) false false)
  = inference B model img (Some ori_shape) transforms true stride_size
      crop_size num_classes.
Proof.
  intros Hc Hi. unfold aug_inference, inference, aug_accumulate.
  cbn [as_sequence for_each negb]. unfold aug_step.
  rewrite scaled_size_identity by (assumption || apply len_nonneg).
  cbn [bind ret app]. rewrite Hi.
  destruct (slide_inference model img crop_size stride_size num_classes)
    as [[logit|e] log]; [|reflexivity].
  cbn [bind ret app F_interpolate accum_add]. rewrite scalar_add_zero.
  pose proof (paddle_argmax_no_calls
                (AccTensor (softmax B (interpolate B logit ori_shape)))) as Hl.
  destruct (paddle_argmax
              (AccTensor (softmax B (interpolate B logit ori_shape))))
    as [[p|e] l]; simpl in Hl; subst l; unfold map_outcome; simpl;
    now rewrite !app_nil_r.
Qed.

Lemma list_eqb_eq {A} (eqb : A -> A -> bool) :
  (forall x y, eqb x y = true -> x = y) ->
  forall l1 l2, list_eqb eqb l1 l2 = true -> l1 = l2.
Proof.
  intros H. induction l1 as [|x l1 IH]; intros [|y l2] E; simpl in E;
    try discriminate; [reflexivity|].
  apply andb_true_iff in E. destruct E as [E1 E2].
  now rewrite (H x y E1), (IH l2 E2).
Qed.

Lemma tensor_eqb_eq (a b : tensor) : tensor_eqb a b = true -> a = b.
Proof.
  unfold tensor_eqb. repeat apply list_eqb_eq. apply Qc_eq_bool_correct.
Qed.

Lemma identity_scale_matches_inference_witness :
  let img := tensor_of_Z [[[[1; 2]; [3; 4]]]] in
  fst (2, 2) <= Z.min (height img) (width img) /\
  interpolate ref_backend img (height img, width img) = img /\
  map_outcome Pred
    (aug_inference ref_backend (pool_model (Qc_of_Z 10)) img (Some (2, 2))
       [] true (2, 2) (2, 2) 2 (PyList [1%Q]) false false)
  = inference ref_backend (pool_model (Qc_of_Z 10)) img (Some (2, 2)) []
      true (2, 2) (2, 2) 2.
Proof.
  cbv zeta.
  assert (H1 : fst (2, 2) <= Z.min (height (tensor_of_Z [[[[1; 2]; [3; 4]]]]))
                                   (width (tensor_of_Z [[[[1; 2]; [3; 4]]]])))
    by (vm_compute; discriminate).
  assert (H2 : interpolate ref_backend (tensor_of_Z [[[[1; 2]; [3; 4]]]])
                 (height (tensor_of_Z [[[[1; 2]; [3; 4]]]]),
                  width (tensor_of_Z [[[[1; 2]; [3; 4]]]]))
               = tensor_of_Z [[[[1; 2]; [3; 4]]]])
    by (apply tensor_eqb_eq; vm_compute; reflexivity).
  split; [exact H1|]. split; [exact H2|].
  exact (identity_scale_matches_inference ref_backend
           (pool_model (Qc_of_Z 10)) (tensor_of_Z [[[[1; 2]; [3; 4]]]])
           (2, 2) [] true (2, 2) (2, 2) 2 H1 H2).
Defined.

(** ** aug_inference: the horizontal flip *)











Lemma fst_bind {A B} (m : M A) (f : A -> M B) :
  fst (bind m f)
  = match fst m with
    | Ok a => fst (f a)
    | Raise e => Raise e
    end.
Proof.
  destruct m as [[a|e] log]; simpl; [|reflexivity].
  now destruct (f a).
Qed.

(** ** Mirroring and the sample models *)

Lemma len_rev {A} (l : list A) : len (rev l) = len l.
Proof. unfold len. now rewrite length_rev. Qed.









Lemma py_slice_map {A B} (f : A -> B) lo hi (l : list A) :
  py_slice lo hi (map f l) = map f (py_slice lo hi l).
Proof. unfold py_slice. now rewrite len_map, skipn_map, firstn_map. Qed.

Lemma Forall_repeat {A} (P : A -> Prop) x n : P x -> Forall P (repeat x n).
Proof.
  intros H. apply Forall_forall. intros y Hy.
  apply repeat_spec in Hy. now subst.
Qed.

Lemma all_zero_full n c h w : all_zero (full 0%Qc n c h w).
Proof. unfold all_zero, full. repeat apply Forall_repeat. reflexivity. Qed.

(** * Further properties of the tiling pass *)

(** ** A stride of 0 *)

Lemma zero_stride_slide model img w_crop h_crop w_stride h_stride num_classes :
  h_stride = 0 \/ w_stride = 0 ->
  slide_inference model img (w_crop, h_crop) (w_stride, h_stride) num_classes
  = (Raise ZeroDivisionError, []).
Proof.
  intros H. unfold slide_inference, slide_pass, crop_nums, py_floordiv.
  destruct (Z.eqb_spec h_stride 0) as [Eh|Eh]; [reflexivity|].
  destruct H as [H|H]; [contradiction|]. subst w_stride. reflexivity.
Qed.

(** X1. With a stride of 0 along either axis, [slide_inference] raises
    [ZeroDivisionError] at the computation of the grid, before the model is
    invoked, whatever the image and the crop (the division of line 27/28
    comes before the override of lines 30-31, so also when the image is no
    larger than the crop). *)
Theorem zero_stride_raises_before_any_window
        (model : model_t) (img : tensor)
        (w_crop h_crop w_stride h_stride num_classes : Z) :
  h_stride = 0 \/ w_stride = 0 ->
  slide_inference model img (w_crop, h_crop) (w_stride, h_stride) num_classes
  = (Raise ZeroDivisionError, []).
Proof. apply zero_stride_slide. Qed.

Lemma zero_stride_raises_before_any_window_witness :
  (4 = 0 \/ 0 = 0) /\
  slide_inference (zero_model 2) (full 1%Qc 1 3 2 2) (4, 4) (0, 4) 2
  = (Raise ZeroDivisionError, []).
Proof.
  split; [now right|].
  apply (zero_stride_raises_before_any_window (zero_model 2)
           (full 1%Qc 1 3 2 2) 4 4 0 4 2).
  now right.
Defined.

(** ** Which windows are shifted *)

(** X2. Along an axis of length [n] at least the crop, with a positive
    stride: the first window starts at 0, every window but the last sits
    at its stride-spaced position [r * stride, r * stride + crop)
    unshifted, and the last window ends exactly at [n] (it is
    [n - crop, n)).  Only the last window of a row or column is ever moved
    by the clamping. *)
Theorem only_last_window_is_shifted (n crop stride : Z) :
  0 < stride -> 0 < crop <= n ->
  let k := crop_num n crop stride in
  1 <= k /\
  span 0 stride crop n = (0, crop) /\
  (forall r, 0 <= r < k - 1 ->
             span r stride crop n = (r * stride, r * stride + crop)) /\
  span (k - 1) stride crop n = (n - crop, n).
Proof.
  intros Hs Hc k. unfold k, crop_num, span.
  destruct (Z.leb_spec n crop) as [Hn|Hn].
  - assert (n = crop) by lia. subst n.
    split; [lia|]. split; [simpl; f_equal; lia|].
    split; [intros r Hr; lia|]. simpl. f_equal; lia.
  - set (q := Z.max (n - crop + stride - 1) 0 / stride).
    assert (Hq1 : stride * q <= n - crop + stride - 1)
      by (unfold q; rewrite Z.max_l by lia; apply Z.mul_div_le; lia).
    assert (Hq2 : n - crop + stride - 1 < stride * q + stride).
    { unfold q. rewrite Z.max_l by lia.
      pose proof (Z.mul_succ_div_gt (n - crop + stride - 1) stride Hs). lia. }
    assert (Hq0 : 0 <= q) by (unfold q; apply Z.div_pos; lia).
    split; [lia|]. split; [simpl; f_equal; lia|]. split.
    + intros r Hr. assert (r * stride <= (q - 1) * stride) by nia.
      f_equal; lia.
    + replace (q + 1 - 1) with q by lia. f_equal; lia.
Qed.

Lemma only_last_window_is_shifted_witness :
  0 < 4 /\ 0 < 4 <= 10 /\
  span 0 4 4 10 = (0, 4) /\ span 1 4 4 10 = (4, 8) /\ span 2 4 4 10 = (6, 10).
Proof.
  split; [lia|]. split; [lia|].
  destruct (only_last_window_is_shifted 10 4 4) as (_ & H0 & Hr & Hl);
    try lia.
  split; [exact H0|]. split; [|exact Hl].
  apply (Hr 1). change (crop_num 10 4 4) with 3. lia.
Defined.

(** ** How many times the model is invoked *)

Lemma length_range n : List.length (range n) = Z.to_nat n.
Proof. unfold range. now rewrite length_map, length_seq. Qed.

Lemma length_grid rows cols :
  List.length (grid rows cols) = (Z.to_nat rows * Z.to_nat cols)%nat.
Proof.
  unfold grid. rewrite <- (length_range rows), <- (length_range cols).
  induction (range rows) as [|r l IH]; simpl; [reflexivity|].
  now rewrite length_app, length_map, IH.
Qed.

Lemma slide_inference_invocations model img w_crop h_crop w_stride h_stride
      num_classes :
  h_stride <> 0 -> w_stride <> 0 ->
  let run := slide_inference model img (w_crop, h_crop) (w_stride, h_stride)
               num_classes in
  let wins := windows (height img) (width img) h_crop w_crop h_stride
                w_stride (crop_num (height img) h_crop h_stride)
                (crop_num (width img) w_crop w_stride) in
  (exists n, snd run = firstn n (map (crop_win img) wins)) /\
  (forall t, fst run = Ok t -> snd run = map (crop_win img) wins).
Proof.
  intros Hhs Hws run wins.
  pose proof (crop_nums_value (height img) (width img) h_crop w_crop
                h_stride w_stride Hhs Hws) as E.
  pose proof (slide_pass_loop model img w_crop h_crop w_stride h_stride
                num_classes _ _ E) as Hloop.
  pose proof (for_each_calls
                (fun rc => crop_win img
                             (window (height img) (width img) h_crop w_crop
                                h_stride w_stride (fst rc) (snd rc)))
                _ (fun rc st => slide_step_calls model img (height img)
                                  (width img) h_crop w_crop h_stride w_stride
                                  (fst rc) (snd rc) st)
                (grid (crop_num (height img) h_crop h_stride)
                      (crop_num (width img) w_crop w_stride))
                (full 0%Qc 1 num_classes (height img) (width img),
                 full 0 1 1 (height img) (width img)))
    as [[n Hn] Hall].
  unfold run, wins, windows. rewrite map_map.
  rewrite (proj1 (slide_inference_calls _ _ _ _ _)), Hloop. split.
  - exists n. exact Hn.
  - intros t Ht.
    destruct (proj2 (slide_inference_calls _ _ _ _ _) t Ht) as [st Hst].
    rewrite Hloop in Hst. exact (Hall st Hst).
Qed.

(** X3. With a positive stride, [slide_inference] invokes the model once
    per window of the grid, in iteration order, each time on the crop of
    the image at that window: its invocations are a prefix of the crops at
    the windows, at most rows x cols of them, and when it returns they are
    the crops at all the windows, exactly rows x cols, where rows and cols
    are the numbers [crop_nums] computes from the image size, the crop and
    the stride. *)
Theorem model_invoked_once_per_window
        (model : model_t) (img : tensor)
        (w_crop h_crop w_stride h_stride num_classes : Z) :
  0 < h_stride -> 0 < w_stride ->
  let run := slide_inference model img (w_crop, h_crop) (w_stride, h_stride)
               num_classes in
  let rows := crop_num (height img) h_crop h_stride in
  let cols := crop_num (width img) w_crop w_stride in
  let crops := map (crop_win img)
                   (windows (height img) (width img) h_crop w_crop h_stride
                      w_stride rows cols) in
  crop_nums (height img) (width img) h_crop w_crop h_stride w_stride
  = (Ok (rows, cols), []) /\
  (exists n, invocations run = firstn n crops) /\
  len (invocations run) <= rows * cols /\
  (forall t, outcome run = Ok t ->
             invocations run = crops /\
             len (invocations run) = rows * cols).
Proof.
  intros Hhs Hws run rows cols crops.
  assert (Hh0 : h_stride <> 0) by lia. assert (Hw0 : w_stride <> 0) by lia.
  split; [now apply crop_nums_value|].
  destruct (slide_inference_invocations model img w_crop h_crop w_stride
              h_stride num_classes Hh0 Hw0) as [[n Hn] Hall].
  fold run rows cols in Hn, Hall.
  assert (Hr : 1 <= rows).
  { unfold rows, crop_num. destruct (Z.leb_spec (height img) h_crop); [lia|].
    assert (0 <= Z.max (height img - h_crop + h_stride - 1) 0 / h_stride)
      by (apply Z.div_pos; lia). lia. }
  assert (Hc : 1 <= cols).
  { unfold cols, crop_num. destruct (Z.leb_spec (width img) w_crop); [lia|].
    assert (0 <= Z.max (width img - w_crop + w_stride - 1) 0 / w_stride)
      by (apply Z.div_pos; lia). lia. }
  assert (Hlen : len (map (crop_win img)
                        (windows (height img) (width img) h_crop w_crop
                           h_stride w_stride rows cols)) = rows * cols).
  { unfold len, windows. rewrite !length_map, length_grid. lia. }
  fold crops in Hn, Hall, Hlen. unfold invocations, outcome.
  split; [exists n; exact Hn|]. split.
  - rewrite Hn. rewrite <- Hlen. unfold len. rewrite length_firstn. lia.
  - intros t Ht. split; [exact (Hall t Ht)|]. now rewrite (Hall t Ht).
Qed.

Lemma model_invoked_once_per_window_witness :
  0 < 4 /\
  len (invocations (slide_inference (zero_model 2) (full 1%Qc 1 3 10 10)
                      (4, 4) (4, 4) 2)) <= 9.
Proof.
  split; [lia|].
  destruct (model_invoked_once_per_window (zero_model 2)
              (full 1%Qc 1 3 10 10) 4 4 4 4 2) as (_ & _ & H & _); try lia.
  exact H.
Defined.

(** ** What the count map holds *)

Lemma hits_bounds wins i j : 0 <= hits wins i j <= len wins.
Proof.
  unfold hits, len. split; [lia|].
  apply inj_le. induction wins as [|win wins IH]; simpl; [lia|].
  destruct (in_window win i j); simpl; lia.
Qed.

(** X4. After a tiling pass that completes (crop not negative, stride
    positive), the coverage count of every pixel is the number of windows
    of the grid that contain it; it lies between 0 and rows x cols. *)
Theorem count_is_number_of_covering_windows
        (model : model_t) (img : tensor)
        (w_crop h_crop w_stride h_stride num_classes : Z)
        (fl : tensor) (count : tensor4 Z) (log : list tensor) :
  0 <= h_crop -> 0 <= w_crop -> 0 < h_stride -> 0 < w_stride ->
  slide_pass model img (w_crop, h_crop) (w_stride, h_stride) num_classes
  = (Ok (fl, count), log) ->
  let rows := crop_num (height img) h_crop h_stride in
  let cols := crop_num (width img) w_crop w_stride in
  forall i j, 0 <= i -> 0 <= j ->
    count_at count i j
    = hits (windows (height img) (width img) h_crop w_crop h_stride w_stride
              rows cols) i j /\
    0 <= count_at count i j <= Z.max rows 0 * Z.max cols 0.
Proof.
  intros Hhc Hwc Hhs Hws Hp rows cols i j Hi Hj.
  assert (Hh0 : h_stride <> 0) by lia. assert (Hw0 : w_stride <> 0) by lia.
  pose proof (slide_pass_count model img w_crop h_crop w_stride h_stride
                num_classes rows cols fl count log i j
                (crop_nums_value _ _ _ _ _ _ Hh0 Hw0)
                Hhc Hwc ltac:(lia) ltac:(lia) Hp Hi Hj) as E.
  split; [exact E|]. rewrite E.
  pose proof (hits_bounds
                (windows (height img) (width img) h_crop w_crop h_stride
                   w_stride rows cols) i j) as Hb.
  assert (Hl : len (windows (height img) (width img) h_crop w_crop h_stride
                      w_stride rows cols)
               = Z.max rows 0 * Z.max cols 0).
  { unfold len, windows. rewrite length_map, length_grid. lia. }
  lia.
Qed.

Lemma count_is_number_of_covering_windows_witness :
  0 <= 4 /\ 0 < 4 /\
  exists fl count log,
    slide_pass (zero_model 2) (full 1%Qc 1 3 10 10) (4, 4) (4, 4) 2
    = (Ok (fl, count), log) /\
    count_at count 6 6 = 4.
Proof.
  split; [lia|]. split; [lia|].
  destruct (slide_pass_total (zero_model 2) (full 1%Qc 1 3 10 10) 2 3 10 10
              4 4 4 4) as (fl & count & log & E & _);
    try lia;
    [apply zero_model_contract; lia
    |apply has_shape_iff; reflexivity|].
  exists fl, count, log. split; [exact E|].
  destruct (count_is_number_of_covering_windows (zero_model 2)
              (full 1%Qc 1 3 10 10) 4 4 4 4 2 fl count log
              ltac:(lia) ltac:(lia) ltac:(lia) ltac:(lia) E 6 6
              ltac:(lia) ltac:(lia)) as [H _].
  rewrite H. reflexivity.
Defined.

(** ** A negative stride *)

Lemma range_nonpos n : n <= 0 -> range n = [].
Proof.
  intros H. unfold range. replace (Z.to_nat n) with 0%nat by lia. reflexivity.
Qed.

Lemma grid_empty rows cols : rows <= 0 \/ cols <= 0 -> grid rows cols = [].
Proof.
  unfold grid. intros [H|H].
  - now rewrite (range_nonpos rows H).
  - rewrite (range_nonpos cols H). now induction (range rows).
Qed.

Lemma crop_num_negative_stride n crop stride :
  stride < 0 -> 0 < n - crop + stride - 1 -> crop_num n crop stride <= 0.
Proof.
  intros Hs Hn. unfold crop_num.
  destruct (Z.leb_spec n crop); [lia|]. rewrite Z.max_l by lia.
  pose proof (Z.div_mod (n - crop + stride - 1) stride ltac:(lia)) as Hd.
  pose proof (Z.mod_neg_bound (n - crop + stride - 1) stride Hs) as Hm.
  assert ((n - crop + stride - 1) / stride < 0) by nia. lia.
Qed.

(** X5. A negative stride is not rejected.  When along some axis the
    stride is negative and the image exceeds the crop by more than
    [1 - stride], the grid has no window: [slide_inference] returns without
    invoking the model, and the count map it divides by is 0 everywhere. *)
Theorem negative_stride_processes_no_window
        (model : model_t) (img : tensor)
        (w_crop h_crop w_stride h_stride num_classes : Z) :
  h_stride <> 0 -> w_stride <> 0 ->
  (h_stride < 0 /\ 0 < height img - h_crop + h_stride - 1) \/
  (w_stride < 0 /\ 0 < width img - w_crop + w_stride - 1) ->
  slide_pass model img (w_crop, h_crop) (w_stride, h_stride) num_classes
  = (Ok (full 0%Qc 1 num_classes (height img) (width img),
         full 0 1 1 (height img) (width img)), []) /\
  (exists logit,
     slide_inference model img (w_crop, h_crop) (w_stride, h_stride)
                     num_classes = (Ok logit, [])) /\
  forall i j, count_at (full 0 1 1 (height img) (width img)) i j = 0.
Proof.
  intros Hh0 Hw0 H.
  assert (E : slide_pass model img (w_crop, h_crop) (w_stride, h_stride)
                num_classes
              = (Ok (full 0%Qc 1 num_classes (height img) (width img),
                     full 0 1 1 (height img) (width img)), [])).
  { rewrite (slide_pass_loop _ _ _ _ _ _ _ _ _
               (crop_nums_value (height img) (width img) h_crop w_crop
                  h_stride w_stride Hh0 Hw0)).
    rewrite grid_empty; [reflexivity|].
    destruct H as [[Hs Hn]|[Hs Hn]];
      [left|right]; now apply crop_num_negative_stride. }
  split; [exact E|]. split.
  - unfold slide_inference. rewrite E. eexists. reflexivity.
  - intros i j. apply count_at_zeros.
Qed.

Lemma negative_stride_processes_no_window_witness :
  -2 <> 0 /\ (-2 < 0 /\ 0 < 10 - 4 + -2 - 1) /\
  invocations (slide_inference (zero_model 2) (full 1%Qc 1 3 10 10)
                 (4, 4) (-2, -2) 2) = [].
Proof.
  split; [lia|]. split; [lia|].
  destruct (negative_stride_processes_no_window (zero_model 2)
              (full 1%Qc 1 3 10 10) 4 4 (-2) (-2) 2)
    as (_ & (logit & E) & _); try lia.
  - left. change (height (full 1%Qc 1 3 10 10)) with 10. lia.
  - now rewrite E.
Defined.

(** * Further properties of inference and aug_inference *)

(** ** The size an image is resized to *)

Lemma py_int_nonneg q : (0 <= q)%Q -> 0 <= py_int q.
Proof.
  intros H. unfold py_int. apply Z.quot_pos; [|lia].
  unfold Qle in H. simpl in H. lia.
Qed.

Lemma py_int_ratio a b :
  0 <= a -> 0 < b -> py_int (inject_Z a / inject_Z b)%Q = a / b.
Proof.
  intros Ha Hb. unfold py_int. destruct b as [|p|p]; try lia.
  simpl. rewrite Z.mul_1_r. now apply Z.quot_div_nonneg.
Qed.

Lemma scaled_round_nonneg n scale :
  0 <= n -> (0 <= scale)%Q -> 0 <= py_int (inject_Z n * scale + (1 # 2))%Q.
Proof.
  intros Hn Hs. apply py_int_nonneg.
  apply Qle_trans with (y := (inject_Z n * scale)%Q).
  - apply Qmult_le_0_compat; [|exact Hs].
    unfold Qle. simpl. lia.
  - rewrite <- (Qplus_0_r (inject_Z n * scale)) at 1.
    apply Qplus_le_r. discriminate.
Qed.

Lemma scaled_size_cases (h_input w_input : Z) (scale : Q)
      (crop_size : Z * Z) :
  0 <= h_input -> 0 <= w_input -> (0 <= scale)%Q -> 0 < fst crop_size ->
  let h := py_int (inject_Z h_input * scale + (1 # 2))%Q in
  let w := py_int (inject_Z w_input * scale + (1 # 2))%Q in
  let c := fst crop_size in
  (Z.min h w = 0 ->
   scaled_size h_input w_input scale crop_size = (Raise ZeroDivisionError, [])) /\
  (0 < Z.min h w ->
   exists h' w',
     scaled_size h_input w_input scale crop_size = (Ok (h', w'), []) /\
     c <= Z.min h' w' /\
     (c <= Z.min h w -> h' = h /\ w' = w) /\
     (Z.min h w < c -> w < h -> h' = c * h / w /\ w' = c) /\
     (Z.min h w < c -> h <= w -> h' = c /\ w' = c * w / h)).
Proof.
  intros Hh Hw Hs Hc h w c.
  assert (H0 : 0 <= h) by now apply scaled_round_nonneg.
  assert (W0 : 0 <= w) by now apply scaled_round_nonneg.
  assert (C0 : 0 < c) by exact Hc.
  unfold scaled_size. fold h w c. unfold py_truediv. clearbody h w c. split.
  - intros Hm. destruct (Z.ltb_spec (Z.min h w) c) as [_|Hge]; [|lia].
    destruct (Z.gtb_spec h w) as [Hgt|Hle].
    + assert (Ew : w = 0) by lia. rewrite Ew. reflexivity.
    + assert (Eh : h = 0) by lia. rewrite Eh. reflexivity.
  - intros Hm. destruct (Z.ltb_spec (Z.min h w) c) as [Hlt|Hge].
    + destruct (Z.gtb_spec h w) as [Hgt|Hle].
      * destruct (Z.eqb_spec w 0) as [E|_]; [lia|].
        exists (c * h / w), c. cbn [bind ret app].
        rewrite py_int_ratio by nia.
        split; [reflexivity|].
        assert (c <= c * h / w)
          by (apply Z.div_le_lower_bound; nia).
        repeat split; lia.
      * destruct (Z.eqb_spec h 0) as [E|_]; [lia|].
        exists c, (c * w / h). cbn [bind ret app].
        rewrite py_int_ratio by nia.
        split; [reflexivity|].
        assert (c <= c * w / h)
          by (apply Z.div_le_lower_bound; nia).
        repeat split; lia.
    + exists h, w. split; [reflexivity|]. repeat split; lia.
Qed.

(** X6. For a scale that is not negative and a positive [crop_size[0]],
    with (h, w) the rounded scaled size: if h or w is 0 the size
    computation raises [ZeroDivisionError]; otherwise it returns a size
    whose shorter side is at least [crop_size[0]] -- the size (h, w) itself
    when its shorter side already is, and otherwise a size whose shorter
    side is exactly [crop_size[0]] and whose longer side is the other one
    scaled by the same ratio, truncated. *)
Theorem scaled_size_shorter_side_reaches_crop
        (h_input w_input : Z) (scale : Q) (crop_size : Z * Z) :
  0 <= h_input -> 0 <= w_input -> (0 <= scale)%Q -> 0 < fst crop_size ->
  let h := py_int (inject_Z h_input * scale + (1 # 2))%Q in
  let w := py_int (inject_Z w_input * scale + (1 # 2))%Q in
  let c := fst crop_size in
  (Z.min h w = 0 ->
   scaled_size h_input w_input scale crop_size = (Raise ZeroDivisionError, [])) /\
  (0 < Z.min h w ->
   exists h' w',
     scaled_size h_input w_input scale crop_size = (Ok (h', w'), []) /\
     c <= Z.min h' w' /\
     (c <= Z.min h w -> h' = h /\ w' = w) /\
     (Z.min h w < c -> w < h -> h' = c * h / w /\ w' = c) /\
     (Z.min h w < c -> h <= w -> h' = c /\ w' = c * w / h)).
Proof. apply scaled_size_cases. Qed.

Lemma scaled_size_shorter_side_reaches_crop_witness :
  0 <= 100 /\ (0 <= 1 # 2)%Q /\ 0 < fst (64, 64) /\
  scaled_size 100 240 (1 # 2) (64, 64) = (Ok (64, 153), []).
Proof.
  split; [lia|]. split; [discriminate|]. split; [reflexivity|].
  destruct (scaled_size_shorter_side_reaches_crop 100 240 (1 # 2) (64, 64))
    as [_ H]; try lia; try discriminate; [reflexivity|].
  destruct H as (h' & w' & E & _ & _ & _ & Hup); [reflexivity|].
  destruct Hup as [-> ->]; [reflexivity|discriminate|]. exact E.
Defined.

Lemma scaled_size_outcomes h_input w_input scale crop_size :
  snd (scaled_size h_input w_input scale crop_size) = [] /\
  ((exists size, fst (scaled_size h_input w_input scale crop_size) = Ok size) \/
   fst (scaled_size h_input w_input scale crop_size) = Raise ZeroDivisionError).
Proof.
  unfold scaled_size, py_truediv.
  destruct (Z.min _ _ <? fst crop_size);
    [|split; [reflexivity|left; eexists; reflexivity]].
  destruct (_ >? _).
  - destruct (_ =? 0); (split; [reflexivity|]);
      [now right|left; eexists; reflexivity].
  - destruct (_ =? 0); (split; [reflexivity|]);
      [now right|left; eexists; reflexivity].
Qed.

(** ** A stride of 0, seen from the callers *)

(** X7. With a stride of 0 along either axis, [inference] in sliding mode
    raises [ZeroDivisionError] without invoking the model, and so does
    [aug_inference] with at least one scale, when the first scale is not
    negative and [crop_size[0]] is positive: either the size computation
    of the first scale raises it, or that computation returns a size with
    both sides at least [crop_size[0]], hence positive, as the resize of
    line 139 needs, and the first tiled pass raises it. *)
Theorem zero_stride_raises_in_callers
        (B : Backend) (model : model_t) (img : tensor)
        (ori_shape : option (Z * Z)) (transforms : transforms_t)
        (is_slide : bool) (w_crop h_crop w_stride h_stride num_classes : Z)
        (scale : Q) (scales : list Q) (flip_horizontal flip_vertical : bool) :
  h_stride = 0 \/ w_stride = 0 ->
  (0 <= scale)%Q -> 0 < w_crop ->
  inference B model img ori_shape transforms true (w_stride, h_stride)
            (w_crop, h_crop) num_classes
  = (Raise ZeroDivisionError, []) /\
  aug_inference B model img ori_shape transforms is_slide (w_stride, h_stride)
                (w_crop, h_crop) num_classes (PyList (scale :: scales))
                flip_horizontal flip_vertical
  = (Raise ZeroDivisionError, []) /\
  (forall h w,
     outcome (scaled_size (height img) (width img) scale (w_crop, h_crop))
     = Ok (h, w) ->
     w_crop <= h /\ w_crop <= w).
Proof.
  intros H Hscale Hcrop. split; [|split].
  3: { intros h w Eo. unfold outcome in Eo.
       destruct (scaled_size_cases (height img) (width img) scale
                   (w_crop, h_crop) (len_nonneg _) (len_nonneg _) Hscale Hcrop)
         as [Hz Hp].
       pose proof (scaled_round_nonneg (height img) scale (len_nonneg _)
                     Hscale) as Nh.
       pose proof (scaled_round_nonneg (width img) scale (len_nonneg _)
                     Hscale) as Nw.
       cbv zeta in Hz, Hp.
       destruct (Z.eq_dec
                   (Z.min (py_int (inject_Z (height img) * scale + (1 # 2))%Q)
                          (py_int (inject_Z (width img) * scale + (1 # 2))%Q))
                   0) as [E0|E0].
       - rewrite (Hz E0) in Eo. discriminate.
       - destruct Hp as (h' & w' & E & Hge & _); [lia|].
         rewrite E in Eo. cbn [fst] in Eo, Hge. inversion Eo; subst. lia. }
  - unfold inference. cbn [negb].
    now rewrite (zero_stride_slide model img w_crop h_crop w_stride h_stride
                   num_classes H).
  - unfold aug_inference, aug_accumulate. cbn [as_sequence for_each].
    unfold aug_step.
    destruct (scaled_size_outcomes (height img) (width img) scale
                (w_crop, h_crop)) as [Hl [[[h w] Hok]|Herr]].
    + destruct (scaled_size _ _ _ _) as [r l]. simpl in Hl, Hok. subst.
      cbn [bind ret app].
      now rewrite (zero_stride_slide model _ w_crop h_crop w_stride h_stride
                     num_classes H).
    + destruct (scaled_size _ _ _ _) as [r l]. simpl in Hl, Herr. now subst.
Qed.

Lemma zero_stride_raises_in_callers_witness :
  (4 = 0 \/ 0 = 0) /\ (0 <= 1)%Q /\ 0 < 4 /\
  aug_inference ref_backend (zero_model 2) (full 1%Qc 1 3 2 2) (Some (2, 2))
                [] true (0, 4) (4, 4) 2 (PyList [1%Q]) true false
  = (Raise ZeroDivisionError, []).
Proof.
  split; [now right|]. split; [discriminate|]. split; [lia|].
  apply (zero_stride_raises_in_callers ref_backend (zero_model 2)
           (full 1%Qc 1 3 2 2) (Some (2, 2)) [] true 4 4 0 4 2 1%Q []
           true false);
    [now right|discriminate|lia].
Defined.

(** ** Whole-image and sliding mode on a small image *)

Lemma slide_inference_single_window model img y rest c_img h_img w_img
      w_crop h_crop w_stride h_stride num_classes :
  shaped img 1 c_img h_img w_img -> 1 <= c_img -> 1 <= h_img ->
  h_img <= h_crop -> w_img <= w_crop -> h_stride <> 0 -> w_stride <> 0 ->
  model img = y :: rest -> shaped y 1 num_classes h_img w_img ->
  slide_inference model img (w_crop, h_crop) (w_stride, h_stride) num_classes
  = (Ok y, [img]).
Proof.
  intros Hi Hc Hh Hhc Hwc Hhs Hws Ey Hy.
  destruct (shaped_height_width _ _ _ _ _ Hi ltac:(lia) Hc Hh) as [Eh Ew].
  assert (Hw : 0 <= w_img) by (rewrite <- Ew; apply len_nonneg).
  assert (En : crop_nums (height img) (width img) h_crop w_crop h_stride
                 w_stride = (Ok (1, 1), [])).
  { rewrite crop_nums_value by assumption.
    now rewrite !crop_num_small by lia. }
  unfold slide_inference.
  rewrite (slide_pass_loop _ _ _ _ _ _ _ _ _ En). rewrite Eh, Ew.
  change (grid 1 1) with [(0, 0)]. unfold for_each, slide_step.
  cbn [fst snd].
  replace (window h_img w_img h_crop w_crop h_stride w_stride 0 0)
    with (0, h_img, 0, w_img)
    by (unfold window; simpl;
        rewrite (Z.min_r h_crop h_img), (Z.min_r w_crop w_img) by lia;
        now rewrite !Z.max_r by lia).
  rewrite (crop_full img 1 c_img h_img w_img Hi).
  unfold call_model. cbn [bind]. rewrite Ey. cbn [first_output ret bind].
  rewrite !Z.sub_diag, pad_nothing.
  rewrite (tadd_zeros y num_classes h_img w_img Hy).
  rewrite crop_incr_zeros by lia.
  cbn [bind ret app].
  now rewrite (div_count_ones y 1 num_classes h_img w_img Hy).
Qed.

(** X8. On an image no larger than the crop, [inference] does the same in
    whole-image mode and in sliding mode: the same prediction map (or the
    same raw logit map when [ori_shape] is [None]), from one invocation of
    the model on the image.  The stride must not be 0, and the model's
    first output must be a (1, num_classes, H, W) logit map. *)
Theorem small_image_modes_agree
        (B : Backend) (model : model_t) (img y : tensor) (rest : list tensor)
        (ori_shape : option (Z * Z)) (transforms : transforms_t)
        (c_img h_img w_img w_crop h_crop w_stride h_stride num_classes : Z) :
  has_shape img 1 c_img h_img w_img = true -> 1 <= c_img -> 1 <= h_img ->
  h_img <= h_crop -> w_img <= w_crop -> h_stride <> 0 -> w_stride <> 0 ->
  model img = y :: rest -> has_shape y 1 num_classes h_img w_img = true ->
  inference B model img ori_shape transforms false (w_stride, h_stride)
            (w_crop, h_crop) num_classes
  = inference B model img ori_shape transforms true (w_stride, h_stride)
              (w_crop, h_crop) num_classes /\
  invocations (inference B model img ori_shape transforms true
                 (w_stride, h_stride) (w_crop, h_crop) num_classes) = [img] /\
  (ori_shape = None ->
   outcome (inference B model img ori_shape transforms true
              (w_stride, h_stride) (w_crop, h_crop) num_classes)
   = Ok (Logit y)).
Proof.
  intros Hi Hc Hh Hhc Hwc Hhs Hws Ey Hy. apply has_shape_iff in Hi, Hy.
  unfold inference. cbn [negb].
  rewrite (slide_inference_single_window model img y rest c_img h_img w_img
             w_crop h_crop w_stride h_stride num_classes)
    by assumption.
  unfold call_model. cbn [bind]. rewrite Ey. cbn [first_output ret bind app].
  split; [reflexivity|].
  destruct ori_shape as [size|]; cbn [F_interpolate bind ret app].
  - pose proof (paddle_argmax_no_calls
                  (AccTensor (softmax B (interpolate B y size)))) as Hl.
    destruct (paddle_argmax _) as [[p|e] l]; simpl in Hl; subst l.
    + split; [reflexivity|discriminate].
    + split; [reflexivity|discriminate].
  - split; [reflexivity|]. reflexivity.
Qed.

Lemma small_image_modes_agree_witness :
  has_shape (full 1%Qc 1 3 2 2) 1 3 2 2 = true /\ 2 <= 4 /\ 4 <> 0 /\
  inference ref_backend (zero_model 2) (full 1%Qc 1 3 2 2) None [] false
            (4, 4) (4, 4) 2
  = inference ref_backend (zero_model 2) (full 1%Qc 1 3 2 2) None [] true
              (4, 4) (4, 4) 2.
Proof.
  split; [reflexivity|]. split; [lia|]. split; [lia|].
  apply (small_image_modes_agree ref_backend (zero_model 2)
           (full 1%Qc 1 3 2 2) (full 0%Qc 1 2 2 2) [] None [] 3 2 2 4 4 4 4 2);
    try lia; reflexivity.
Defined.

(** ** The images the scale loop works on *)

Lemma accum_add_no_calls acc logit : snd (accum_add acc logit) = [].
Proof.
  unfold accum_add, tadd. destruct acc as [z|a]; [reflexivity|].
  destruct (zip_strict _ a logit); reflexivity.
Qed.

Lemma F_interpolate_no_calls B x size : snd (F_interpolate B x size) = [].
Proof. destruct size; reflexivity. Qed.

Lemma aug_step_ok_inv B model ori_shape stride_size crop_size num_classes
      flip_horizontal h_input w_input scale acc img acc' img' log :
  aug_step B model ori_shape stride_size crop_size num_classes flip_horizontal
           h_input w_input scale (acc, img) = (Ok (acc', img'), log) ->
  exists size,
    fst (scaled_size h_input w_input scale crop_size) = Ok size /\
    img' = interpolate B img size /\
    log = pass_invocations model crop_size stride_size num_classes
            flip_horizontal img'.
Proof.
  unfold aug_step, pass_invocations, invocations. intros H.
  apply bind_ok_inv in H. destruct H as ([h w] & l0 & l1 & E0 & H & ->).
  pose proof (proj1 (scaled_size_outcomes h_input w_input scale crop_size))
    as Hl0. rewrite E0 in Hl0. simpl in Hl0. subst l0.
  exists (h, w). rewrite E0. split; [reflexivity|].
  set (img1 := interpolate B img (h, w)) in *.
  apply bind_ok_inv in H. destruct H as (logit & l2 & l3 & E2 & H & ->).
  apply bind_ok_inv in H. destruct H as (logit' & l4 & l5 & E4 & H & ->).
  pose proof (F_interpolate_no_calls B logit ori_shape) as Hl4.
  rewrite E4 in Hl4. simpl in Hl4. subst l4.
  apply bind_ok_inv in H. destruct H as (fl & l6 & l7 & E6 & H & ->).
  pose proof (accum_add_no_calls acc (softmax B logit')) as Hl6.
  rewrite E6 in Hl6. simpl in Hl6. subst l6.
  destruct flip_horizontal.
  - apply bind_ok_inv in H. destruct H as (lf & l8 & l9 & E8 & H & ->).
    apply bind_ok_inv in H. destruct H as (lf' & l10 & l11 & E10 & H & ->).
    pose proof (F_interpolate_no_calls B (flip_w lf) ori_shape) as Hl10.
    rewrite E10 in Hl10. simpl in Hl10. subst l10.
    apply bind_ok_inv in H. destruct H as (fl2 & l12 & l13 & E12 & H & ->).
    pose proof (accum_add_no_calls (AccTensor fl) (softmax B lf')) as Hl12.
    rewrite E12 in Hl12. simpl in Hl12. subst l12.
    inversion H; subst. split; [reflexivity|].
    rewrite E2, E8. simpl. now rewrite !app_nil_r.
  - inversion H; subst. split; [reflexivity|].
    rewrite E2. simpl. now rewrite !app_nil_r.
Qed.

Lemma aug_loop_invocations B model ori_shape stride_size crop_size
      num_classes flip_horizontal h_input w_input scales :
  forall acc img st log,
    for_each scales
      (aug_step B model ori_shape stride_size crop_size num_classes
         flip_horizontal h_input w_input) (acc, img) = (Ok st, log) ->
    log = flat_map (pass_invocations model crop_size stride_size num_classes
                      flip_horizontal)
            (resize_chain B crop_size h_input w_input scales img) /\
    List.length (resize_chain B crop_size h_input w_input scales img)
    = List.length scales.
Proof.
  induction scales as [|scale scales IH]; intros acc img st log H.
  - inversion H; subst. now split.
  - cbn [for_each] in H. apply bind_ok_inv in H.
    destruct H as ([acc1 img1] & l1 & l2 & E1 & E2 & ->).
    apply aug_step_ok_inv in E1. destruct E1 as (size & Es & -> & ->).
    destruct (IH _ _ _ _ E2) as [-> Hlen].
    cbn [resize_chain]. rewrite Es. cbn [flat_map List.length].
    split; [reflexivity|]. now rewrite Hlen.
Qed.

Lemma resize_chain_nth B crop_size h w scales :
  forall im k size,
    List.length (resize_chain B crop_size h w scales im) = List.length scales ->
    (k < List.length scales)%nat ->
    fst (scaled_size h w (nth k scales 0%Q) crop_size) = Ok size ->
    nth k (resize_chain B crop_size h w scales im) []
    = interpolate B (nth k (im :: resize_chain B crop_size h w scales im) [])
        size.
Proof.
  induction scales as [|scale scales IH]; intros im k size Hlen Hk Es;
    [simpl in Hk; lia|].
  cbn [resize_chain] in *.
  destruct (fst (scaled_size h w scale crop_size)) as [sz|e] eqn:Esz;
    [|simpl in Hlen; lia].
  destruct k as [|k].
  - simpl in Es. rewrite Esz in Es. inversion Es; subst. reflexivity.
  - cbn [nth]. apply IH; [simpl in Hlen; lia|simpl in Hk; lia|exact Es].
Qed.

(** X9. When the scale loop of [aug_inference] completes, the model has
    been invoked on the windows of one image per scale, in order (then,
    with [flip_horizontal], on the windows of its mirror image).  The
    image of a scale is the bilinear resize of the image of the scale
    before it -- not of the original image -- to a size that is computed
    from the original image's height and width and that scale alone. *)
Theorem scale_loop_resizes_cumulatively
        (B : Backend) (model : model_t) (img : tensor)
        (ori_shape : option (Z * Z)) (stride_size crop_size : Z * Z)
        (num_classes : Z) (scales : list Q) (flip_horizontal : bool)
        (acc : accum) (log : list tensor) :
  aug_accumulate B model img ori_shape stride_size crop_size num_classes
                 scales flip_horizontal = (Ok acc, log) ->
  let chain := resize_chain B crop_size (height img) (width img) scales img in
  log = flat_map (pass_invocations model crop_size stride_size num_classes
                    flip_horizontal) chain /\
  List.length chain = List.length scales /\
  forall k size,
    (k < List.length scales)%nat ->
    fst (scaled_size (height img) (width img) (nth k scales 0%Q) crop_size)
    = Ok size ->
    nth k chain [] = interpolate B (nth k (img :: chain) []) size.
Proof.
  intros H chain. unfold aug_accumulate in H.
  apply bind_ok_inv in H. destruct H as ([acc1 img1] & l1 & l2 & E & H & ->).
  cbn [ret] in H. inversion H; subst.
  destruct (aug_loop_invocations _ _ _ _ _ _ _ _ _ _ _ _ _ _ E) as [-> Hlen].
  fold chain in Hlen |- *. rewrite app_nil_r.
  split; [reflexivity|]. split; [exact Hlen|].
  intros k size Hk Es. now apply resize_chain_nth.
Qed.

Lemma scale_loop_resizes_cumulatively_witness :
  let img := tensor_of_Z [[[[1; 2]; [3; 4]]]] in
  exists acc log,
    aug_accumulate ref_backend (zero_model 2) img (Some (2, 2)) (2, 2) (2, 2)
                   2 [1%Q; 2%Q] false = (Ok acc, log) /\
    nth 1 (resize_chain ref_backend (2, 2) 2 2 [1%Q; 2%Q] img) []
    = bilinear (bilinear img (2, 2)) (4, 4).
Proof.
  cbv zeta.
  destruct (aug_accumulate ref_backend (zero_model 2)
              (tensor_of_Z [[[[1; 2]; [3; 4]]]]) (Some (2, 2)) (2, 2) (2, 2)
              2 [1%Q; 2%Q] false) as [[acc|e] log] eqn:E.
  - exists acc, log. split; [reflexivity|].
    destruct (scale_loop_resizes_cumulatively _ _ _ _ _ _ _ _ _ _ _ E)
      as (_ & _ & Hnth).
    exact (Hnth 1%nat (4, 4) ltac:(simpl; lia) eq_refl).
  - exfalso.
    assert (H : match fst (aug_accumulate ref_backend (zero_model 2)
                             (tensor_of_Z [[[[1; 2]; [3; 4]]]]) (Some (2, 2))
                             (2, 2) (2, 2) 2 [1%Q; 2%Q] false) with
                | Ok _ => true
                | Raise _ => false
                end = true) by (vm_compute; reflexivity).
    rewrite E in H. discriminate.
Defined.

(** * The value of the tiled logit map *)

Lemma nth_nil_Qc k : nth k (@nil Qc) 0%Qc = 0%Qc.
Proof. now destruct k. Qed.

Lemma zip_strict_nth_add {A} (f : A -> A -> option A) (g : A -> Qc) (d : A) :
  g d = 0%Qc ->
  (forall x y z, f x y = Some z -> g z = (g x + g y)%Qc) ->
  forall l1 l2 l k,
    zip_strict f l1 l2 = Some l ->
    g (nth k l d) = (g (nth k l1 d) + g (nth k l2 d))%Qc.
Proof.
  intros Hd Hf. induction l1 as [|x l1 IH]; intros [|y l2] l k E;
    simpl in E; try discriminate.
  - inversion E; subst. destruct k; simpl; rewrite Hd; ring.
  - destruct (f x y) as [z|] eqn:Ez; [|discriminate].
    destruct (zip_strict f l1 l2) as [r|] eqn:Er; [|discriminate].
    inversion E; subst. destruct k as [|k]; simpl.
    + now apply Hf.
    + now apply IH.
Qed.

Lemma tget_tadd a b t log n c i j :
  tadd a b = (Ok t, log) ->
  tget t n c i j = (tget a n c i j + tget b n c i j)%Qc.
Proof.
  unfold tadd, tget. intros E.
  destruct (zip_strict _ a b) as [s|] eqn:Es; [|discriminate].
  inversion E; subst. clear E. revert Es.
  apply (zip_strict_nth_add _
           (fun im => nth (Z.to_nat j)
                        (nth (Z.to_nat i) (nth (Z.to_nat c) im []) []) 0%Qc)
           []).
  - destruct (Z.to_nat c), (Z.to_nat i), (Z.to_nat j); reflexivity.
  - intros im1 im2 im.
    apply (zip_strict_nth_add _
             (fun pl => nth (Z.to_nat j) (nth (Z.to_nat i) pl []) 0%Qc) []).
    + destruct (Z.to_nat i), (Z.to_nat j); reflexivity.
    + intros pl1 pl2 pl.
      apply (zip_strict_nth_add _ (fun row => nth (Z.to_nat j) row 0%Qc) []).
      * apply nth_nil_Qc.
      * intros r1 r2 r.
        apply (zip_strict_nth_add _ (fun x => x) 0%Qc); [reflexivity|].
        intros x y z Ez. now inversion Ez.
Qed.

Lemma nth_pad_row left right row j :
  0 <= left -> 0 <= j ->
  nth (Z.to_nat j) (pad_row left right row) 0%Qc
  = if (left <=? j) && (j <? left + len row)
    then nth (Z.to_nat (j - left)) row 0%Qc
    else 0%Qc.
Proof.
  intros Hl Hj. unfold pad_row.
  destruct (Z.leb_spec left j) as [H1|H1]; simpl.
  - rewrite app_nth2 by (rewrite repeat_length; lia).
    rewrite repeat_length.
    replace (Z.to_nat j - Z.to_nat left)%nat with (Z.to_nat (j - left)) by lia.
    destruct (Z.ltb_spec j (left + len row)) as [H2|H2].
    + apply app_nth1. unfold len in H2. lia.
    + rewrite app_nth2 by (unfold len in H2; lia).
      destruct (nth_in_or_default
                  (Z.to_nat (j - left) - List.length row)
                  (repeat 0%Qc (Z.to_nat right)) 0%Qc) as [H|H];
        [now apply repeat_spec in H|exact H].
  - rewrite app_nth1 by (rewrite repeat_length; lia).
    destruct (nth_in_or_default (Z.to_nat j) (repeat 0%Qc (Z.to_nat left))
                0%Qc) as [H|H];
      [now apply repeat_spec in H|exact H].
Qed.

Lemma nth_blank (blank : list Qc) n i j :
  Forall (fun x => x = 0%Qc) blank ->
  nth j (nth i (repeat blank n) []) 0%Qc = 0%Qc.
Proof.
  intros Hb.
  destruct (nth_in_or_default i (repeat blank n) []) as [H|H].
  - apply repeat_spec in H. rewrite H.
    destruct (nth_in_or_default j blank 0%Qc) as [H'|H']; [|exact H'].
    rewrite Forall_forall in Hb. now apply Hb.
  - rewrite H. apply nth_nil_Qc.
Qed.

Lemma nth_pad_plane left right top bottom pl h w i j :
  rows_ok pl h w -> 0 <= left -> 0 <= top -> 0 <= i -> 0 <= j ->
  nth (Z.to_nat j)
      (nth (Z.to_nat i) (pad_plane left right top bottom pl) []) 0%Qc
  = if (top <=? i) && (i <? top + h) && (left <=? j) && (j <? left + w)
    then nth (Z.to_nat (j - left)) (nth (Z.to_nat (i - top)) pl []) 0%Qc
    else 0%Qc.
Proof.
  intros [Hh Hr] Hl Ht Hi Hj. unfold pad_plane.
  set (blank := repeat 0%Qc _).
  assert (Hb : Forall (fun x => x = 0%Qc) blank)
    by (apply Forall_forall; intros x Hx; now apply repeat_spec in Hx).
  clearbody blank. rewrite Forall_forall in Hr.
  destruct (Z.leb_spec top i) as [H1|H1]; simpl.
  - rewrite app_nth2 by (rewrite repeat_length; lia).
    rewrite repeat_length.
    replace (Z.to_nat i - Z.to_nat top)%nat with (Z.to_nat (i - top)) by lia.
    destruct (Z.ltb_spec i (top + h)) as [H2|H2]; simpl.
    + rewrite app_nth1 by (rewrite length_map; unfold len in Hh; lia).
      rewrite (nth_indep _ [] (pad_row left right []))
        by (rewrite length_map; unfold len in Hh; lia).
      rewrite map_nth, nth_pad_row by assumption.
      rewrite (Hr (nth (Z.to_nat (i - top)) pl []))
        by (apply nth_In; unfold len in Hh; lia).
      reflexivity.
    + rewrite app_nth2 by (rewrite length_map; unfold len in Hh; lia).
      now apply nth_blank.
  - rewrite app_nth1 by (rewrite repeat_length; lia). now apply nth_blank.
Qed.

Lemma shaped_nth_plane {A} (t : tensor4 A) n c h w k :
  shaped t n c h w -> 0 <= k < c -> 1 <= n ->
  rows_ok (nth (Z.to_nat k) (nth 0 t []) []) h w.
Proof.
  intros [Hn Ht] Hk H1. rewrite Forall_forall in Ht.
  destruct t as [|im t]; [unfold len in Hn; simpl in Hn; lia|].
  destruct (Ht im (or_introl eq_refl)) as [Hc Him]. simpl.
  rewrite Forall_forall in Him. apply Him, nth_In. unfold len in Hc. lia.
Qed.

Lemma tget_pad y c_y h w left right top bottom c i j :
  shaped y 1 c_y h w -> 0 <= c < c_y ->
  0 <= left -> 0 <= top -> 0 <= i -> 0 <= j ->
  tget (pad y left right top bottom) 0 c i j
  = if (top <=? i) && (i <? top + h) && (left <=? j) && (j <? left + w)
    then tget y 0 c (i - top) (j - left)
    else 0%Qc.
Proof.
  intros Hy Hc Hl Ht Hi Hj. unfold tget, pad.
  pose proof (shaped_nth_plane y 1 c_y h w c Hy Hc ltac:(lia)) as Hpl.
  destruct Hy as [Hn Hy]. rewrite Forall_forall in Hy.
  destruct y as [|im y]; [unfold len in Hn; simpl in Hn; lia|].
  destruct (Hy im (or_introl eq_refl)) as [Hlen _].
  simpl in *.
  rewrite (nth_indep _ [] (pad_plane left right top bottom []))
    by (rewrite length_map; unfold len in Hlen; lia).
  rewrite map_nth.
  now apply nth_pad_plane.
Qed.

Lemma tget_all_zero t n c i j : all_zero t -> tget t n c i j = 0%Qc.
Proof.
  unfold all_zero, tget. intros H. rewrite Forall_forall in H.
  destruct (nth_in_or_default (Z.to_nat n) t []) as [Hn|Hn];
    [|rewrite Hn; destruct (Z.to_nat c), (Z.to_nat i), (Z.to_nat j);
      reflexivity].
  specialize (H _ Hn). rewrite Forall_forall in H.
  destruct (nth_in_or_default (Z.to_nat c) (nth (Z.to_nat n) t []) [])
    as [Hc|Hc];
    [|rewrite Hc; destruct (Z.to_nat i), (Z.to_nat j); reflexivity].
  specialize (H _ Hc). rewrite Forall_forall in H.
  destruct (nth_in_or_default (Z.to_nat i)
              (nth (Z.to_nat c) (nth (Z.to_nat n) t []) []) []) as [Hi|Hi];
    [|rewrite Hi; apply nth_nil_Qc].
  specialize (H _ Hi). rewrite Forall_forall in H.
  destruct (nth_in_or_default (Z.to_nat j)
              (nth (Z.to_nat i)
                 (nth (Z.to_nat c) (nth (Z.to_nat n) t []) []) []) 0%Qc)
    as [Hj|Hj]; [now apply H|exact Hj].
Qed.

Lemma slide_step_adds model img num_classes c_img h_img w_img
      h_crop w_crop h_stride w_stride r c fl count fl' count' log :
  model_contract model num_classes ->
  shaped img 1 c_img h_img w_img -> 1 <= c_img -> 1 <= h_img -> 0 <= w_img ->
  0 < h_crop -> 0 < w_crop -> 0 <= h_stride -> 0 <= w_stride ->
  0 <= r -> 0 <= c ->
  slide_step model img h_img w_img h_crop w_crop h_stride w_stride r c
             (fl, count) = (Ok (fl', count'), log) ->
  forall k i j, 0 <= k < num_classes -> 0 <= i -> 0 <= j ->
    tget fl' 0 k i j
    = (tget fl 0 k i j
       + contribution model img
           (window h_img w_img h_crop w_crop h_stride w_stride r c) k i j)%Qc.
Proof.
  intros Hm Hi Hci Hh Hw Hhc Hwc Hhs Hws Hr Hc E k i j Hk Hi0 Hj0.
  unfold slide_step in E. unfold contribution, window_logit.
  rewrite window_spans in *.
  pose proof (span_within r h_stride h_crop h_img) as Sh.
  pose proof (span_within c w_stride w_crop w_img) as Sw.
  destruct (span r h_stride h_crop h_img) as [h1 h2].
  destruct (span c w_stride w_crop w_img) as [w1 w2].
  cbn [fst snd crop_win in_window] in *.
  destruct Sh as (A1 & A2 & A3 & A4 & A5); [lia..|].
  destruct Sw as (B1 & B2 & B3 & B4 & B5); [lia..|].
  assert (Hcrop : shaped (crop img h1 h2 w1 w2) 1 c_img (h2 - h1) (w2 - w1))
    by (apply shaped_crop with (h := h_img) (w := w_img); [exact Hi|lia..]).
  apply has_shape_iff in Hcrop.
  assert (Hwin : 1 <= h2 - h1) by lia.
  destruct (Hm _ _ _ _ Hci Hwin Hcrop) as (y & rest & Ey & Hy).
  apply has_shape_iff in Hy.
  apply bind_ok_inv in E. destruct E as (logits & l1 & l2 & E1 & E & _).
  unfold call_model in E1. inversion E1; subst logits l1. clear E1.
  rewrite Ey in *. cbn [first_output hd] in *.
  apply bind_ok_inv in E. destruct E as (logit & l3 & l4 & E2 & E & _).
  inversion E2; subst logit l3. clear E2.
  apply bind_ok_inv in E. destruct E as (fl1 & l5 & l6 & E3 & E & _).
  inversion E; subst. clear E.
  rewrite (tget_tadd _ _ _ _ 0 k i j E3).
  rewrite (tget_pad y num_classes (h2 - h1) (w2 - w1)) by (assumption || lia).
  replace (h1 + (h2 - h1)) with h2 by lia.
  replace (w1 + (w2 - w1)) with w2 by lia.
  reflexivity.
Qed.

Lemma slide_loop_sums model img num_classes c_img h_img w_img
      h_crop w_crop h_stride w_stride :
  model_contract model num_classes ->
  shaped img 1 c_img h_img w_img -> 1 <= c_img -> 1 <= h_img -> 0 <= w_img ->
  0 < h_crop -> 0 < w_crop -> 0 <= h_stride -> 0 <= w_stride ->
  forall l fl count fl' count' log,
    (forall rc, In rc l -> 0 <= fst rc /\ 0 <= snd rc) ->
    shaped fl 1 num_classes h_img w_img -> shaped count 1 1 h_img w_img ->
    for_each l
      (fun rc => slide_step model img h_img w_img h_crop w_crop h_stride
                   w_stride (fst rc) (snd rc))
      (fl, count) = (Ok (fl', count'), log) ->
    shaped fl' 1 num_classes h_img w_img /\
    shaped count' 1 1 h_img w_img /\
    forall k i j, 0 <= k < num_classes -> 0 <= i -> 0 <= j ->
      tget fl' 0 k i j
      = (tget fl 0 k i j
         + qsum (map (fun rc =>
                   contribution model img
                     (window h_img w_img h_crop w_crop h_stride w_stride
                        (fst rc) (snd rc)) k i j) l))%Qc.
Proof.
  intros Hm Hi Hci Hh Hw Hhc Hwc Hhs Hws.
  induction l as [|[r c] l IH]; intros fl count fl' count' log Hl Hfl Hcnt E.
  - inversion E; subst. split; [exact Hfl|]. split; [exact Hcnt|].
    intros. cbn [map qsum fold_right]. ring.
  - cbn [for_each] in E. apply bind_ok_inv in E.
    destruct E as ([fl1 count1] & l1 & l2 & E1 & E2 & _).
    cbn [fst snd] in E1.
    destruct (Hl (r, c) (or_introl eq_refl)) as [Hr Hc]. cbn [fst snd] in *.
    destruct (slide_step_total model img num_classes c_img h_img w_img
                h_crop w_crop h_stride w_stride r c fl count)
      as (st' & lg & E1' & S1 & S2); try assumption.
    rewrite E1 in E1'. inversion E1'; subst st' lg. cbn [fst snd] in S1, S2.
    destruct (IH fl1 count1 fl' count' l2
                (fun rc Hrc => Hl rc (or_intror Hrc)) S1 S2 E2)
      as (Sf & Sc & Hsum).
    split; [exact Sf|]. split; [exact Sc|].
    intros k i j Hk Hi0 Hj0. rewrite (Hsum k i j Hk Hi0 Hj0).
    rewrite (slide_step_adds model img num_classes c_img h_img w_img h_crop
               w_crop h_stride w_stride r c fl count fl1 count1 l1)
      by assumption.
    cbn [map qsum fold_right fst snd]. symmetry. apply Qcplus_assoc.
Qed.

Lemma nth_zip_with {A B C} (f : A -> B -> C) l1 l2 k d1 d2 d :
  (k < List.length l1)%nat -> (k < List.length l2)%nat ->
  nth k (zip_with f l1 l2) d = f (nth k l1 d1) (nth k l2 d2).
Proof.
  revert l2 k. induction l1 as [|x l1 IH]; intros [|y l2] k H1 H2;
    simpl in *; try lia.
  destruct k as [|k]; [reflexivity|]. apply IH; lia.
Qed.

Lemma tget_div_count fl count num_classes h w k i j :
  shaped fl 1 num_classes h w -> shaped count 1 1 h w ->
  0 <= k < num_classes -> 0 <= i < h -> 0 <= j < w ->
  tget (div_count fl count) 0 k i j
  = (tget fl 0 k i j / Qc_of_Z (count_at count i j))%Qc.
Proof.
  intros Hfl Hc Hk Hi Hj.
  pose proof (shaped_nth_plane fl 1 num_classes h w k Hfl Hk ltac:(lia))
    as [Hph Hpr].
  destruct (shaped_11_inv _ _ _ Hc) as (cnt & -> & [Hch Hcr]).
  unfold tget, div_count, count_at. cbn [hd].
  destruct Hfl as [Hn Hfl]. rewrite Forall_forall in Hfl.
  destruct fl as [|im fl]; [unfold len in Hn; simpl in Hn; lia|].
  destruct (Hfl im (or_introl eq_refl)) as [Hlen _].
  cbn [map nth Z.to_nat] in *.
  set (F := fun pl : list (list Qc) =>
              zip_with (zip_with (fun x n => (x / Q2Qc (inject_Z n))%Qc))
                       pl cnt).
  rewrite (nth_indep _ [] (F []))
    by (rewrite length_map; unfold len in Hlen; lia).
  rewrite (map_nth F im [] (Z.to_nat k)). unfold F.
  set (pl := nth (Z.to_nat k) im []) in *.
  rewrite Forall_forall in Hpr, Hcr.
  rewrite (nth_zip_with _ pl cnt (Z.to_nat i) [] [] [])
    by (unfold len in *; lia).
  assert (Hr1 : len (nth (Z.to_nat i) pl []) = w)
    by (apply Hpr, nth_In; unfold len in *; lia).
  assert (Hr2 : len (nth (Z.to_nat i) cnt []) = w)
    by (apply Hcr, nth_In; unfold len in *; lia).
  rewrite (nth_zip_with _ _ _ (Z.to_nat j) 0%Qc 0 0%Qc)
    by (unfold len in *; lia).
  reflexivity.
Qed.

Lemma tiled_pass_sums (model : model_t) (img : tensor)
      (c_img h_img w_img w_crop h_crop w_stride h_stride num_classes : Z) :
  has_shape img 1 c_img h_img w_img = true -> 1 <= c_img -> 1 <= h_img ->
  0 < w_crop -> 0 < h_crop -> 0 < w_stride -> 0 < h_stride ->
  model_contract model num_classes ->
  exists fl count log,
    slide_pass model img (w_crop, h_crop) (w_stride, h_stride) num_classes
    = (Ok (fl, count), log) /\
    shaped fl 1 num_classes h_img w_img /\ shaped count 1 1 h_img w_img /\
    let wins := windows h_img w_img h_crop w_crop h_stride w_stride
                  (crop_num h_img h_crop h_stride)
                  (crop_num w_img w_crop w_stride) in
    forall k i j,
      0 <= k < num_classes -> 0 <= i < h_img -> 0 <= j < w_img ->
      count_at count i j = hits wins i j /\
      tget fl 0 k i j
      = qsum (map (fun win => contribution model img win k i j) wins).
Proof.
  intros Hi Hc Hh Hwc Hhc Hws Hhs Hm. apply has_shape_iff in Hi.
  destruct (shaped_height_width _ _ _ _ _ Hi ltac:(lia) Hc Hh) as [Eh Ew].
  assert (Hw : 0 <= w_img) by (rewrite <- Ew; apply len_nonneg).
  pose proof (contract_classes_nonneg _ _ _ _ _ _ Hm Hi Hc Hh) as Hnc.
  destruct (slide_pass_total model img num_classes c_img h_img w_img
              h_crop w_crop h_stride w_stride)
    as (fl & count & log & E & Hfl & Hcnt); try assumption.
  exists fl, count, log. split; [exact E|].
  split; [exact Hfl|]. split; [exact Hcnt|].
  intros wins k i j Hk Hi0 Hj0.
  assert (Hh0 : h_stride <> 0) by lia. assert (Hw0 : w_stride <> 0) by lia.
  pose proof (crop_nums_value (height img) (width img) h_crop w_crop
                h_stride w_stride Hh0 Hw0) as En.
  pose proof (slide_pass_count model img w_crop h_crop w_stride h_stride
                num_classes _ _ fl count log i j En
                ltac:(lia) ltac:(lia) ltac:(lia) ltac:(lia) E
                ltac:(lia) ltac:(lia)) as Ecount.
  rewrite Eh, Ew in Ecount. fold wins in Ecount.
  split; [exact Ecount|].
  rewrite (slide_pass_loop _ _ _ _ _ _ _ _ _ En) in E.
  rewrite Eh, Ew in E.
  destruct (slide_loop_sums model img num_classes c_img h_img w_img
              h_crop w_crop h_stride w_stride Hm Hi Hc Hh Hw Hhc Hwc
              ltac:(lia) ltac:(lia) _ _ _ _ _ _
              (fun rc Hrc =>
                 match proj1 (in_grid (fst rc) (snd rc) _ _)
                         (eq_ind _ (fun p => In p _) Hrc _
                                 (surjective_pairing rc)) with
                 | conj Hr Hc' => conj (proj1 Hr) (proj1 Hc')
                 end)
              (shaped_full 0%Qc 1 num_classes h_img w_img ltac:(lia) Hnc
                 ltac:(lia) Hw)
              (shaped_full 0 1 1 h_img w_img ltac:(lia) ltac:(lia)
                 ltac:(lia) Hw)
              E) as (_ & _ & Hsum).
  rewrite (Hsum k i j Hk ltac:(lia) ltac:(lia)).
  rewrite (tget_all_zero _ _ _ _ _ (all_zero_full _ _ _ _)).
  unfold wins, windows. rewrite map_map. ring.
Qed.

Lemma tiled_logit_sum (model : model_t) (img : tensor)
      (c_img h_img w_img w_crop h_crop w_stride h_stride num_classes : Z) :
  has_shape img 1 c_img h_img w_img = true -> 1 <= c_img -> 1 <= h_img ->
  0 < w_crop -> 0 < h_crop -> 0 < w_stride -> 0 < h_stride ->
  model_contract model num_classes ->
  exists logit log,
    slide_inference model img (w_crop, h_crop) (w_stride, h_stride)
                    num_classes = (Ok logit, log) /\
    shaped logit 1 num_classes h_img w_img /\
    let wins := windows h_img w_img h_crop w_crop h_stride w_stride
                  (crop_num h_img h_crop h_stride)
                  (crop_num w_img w_crop w_stride) in
    forall k i j,
      0 <= k < num_classes -> 0 <= i < h_img -> 0 <= j < w_img ->
      tget logit 0 k i j
      = (qsum (map (fun win => contribution model img win k i j) wins)
         / Qc_of_Z (hits wins i j))%Qc.
Proof.
  intros Hi Hc Hh Hwc Hhc Hws Hhs Hm.
  destruct (tiled_pass_sums model img c_img h_img w_img w_crop h_crop
              w_stride h_stride num_classes Hi Hc Hh Hwc Hhc Hws Hhs Hm)
    as (fl & count & log & E & Hfl & Hcnt & Hval).
  exists (div_count fl count), log. split.
  { unfold slide_inference. rewrite E. simpl. now rewrite app_nil_r. }
  split; [now apply shaped_div_count|].
  intros wins k i j Hk Hi0 Hj0.
  destruct (Hval k i j Hk Hi0 Hj0) as [Ec Es]. fold wins in Ec, Es.
  rewrite (tget_div_count fl count num_classes h_img w_img) by assumption.
  now rewrite Ec, Es.
Qed.

Lemma tiled_logit_mean (model : model_t) (img : tensor)
      (c_img h_img w_img w_crop h_crop w_stride h_stride num_classes : Z) :
  has_shape img 1 c_img h_img w_img = true -> 1 <= c_img -> 1 <= h_img ->
  0 < w_crop -> 0 < h_crop -> 0 < w_stride -> 0 < h_stride ->
  model_contract model num_classes ->
  exists logit log,
    slide_inference model img (w_crop, h_crop) (w_stride, h_stride)
                    num_classes = (Ok logit, log) /\
    shaped logit 1 num_classes h_img w_img /\
    let wins := windows h_img w_img h_crop w_crop h_stride w_stride
                  (crop_num h_img h_crop h_stride)
                  (crop_num w_img w_crop w_stride) in
    forall k i j,
      0 <= k < num_classes -> 0 <= i < h_img -> 0 <= j < w_img ->
      1 <= hits wins i j ->
      tget logit 0 k i j
      = (qsum (map (fun win => contribution model img win k i j) wins)
         / Qc_of_Z (hits wins i j))%Qc.
Proof.
  intros Hi Hc Hh Hwc Hhc Hws Hhs Hm.
  destruct (tiled_logit_sum model img c_img h_img w_img w_crop h_crop
              w_stride h_stride num_classes Hi Hc Hh Hwc Hhc Hws Hhs Hm)
    as (logit & log & E & Hs & Hval).
  exists logit, log. split; [exact E|]. split; [exact Hs|].
  intros wins k i j Hk Hi0 Hj0 _. now apply Hval.
Qed.

(** X10. For a positive crop and stride and a model that keeps its
    contract, [slide_inference] returns, and its value at channel [k] of a
    pixel that some window covers is the mean of the logits the covering
    windows gave that pixel: the sum of their contributions divided by
    their number. *)
Theorem tiled_logit_is_mean_over_covering_windows
        (model : model_t) (img : tensor)
        (c_img h_img w_img w_crop h_crop w_stride h_stride num_classes : Z) :
  has_shape img 1 c_img h_img w_img = true -> 1 <= c_img -> 1 <= h_img ->
  0 < w_crop -> 0 < h_crop -> 0 < w_stride -> 0 < h_stride ->
  model_contract model num_classes ->
  exists logit log,
    slide_inference model img (w_crop, h_crop) (w_stride, h_stride)
                    num_classes = (Ok logit, log) /\
    let wins := windows h_img w_img h_crop w_crop h_stride w_stride
                  (crop_num h_img h_crop h_stride)
                  (crop_num w_img w_crop w_stride) in
    forall k i j,
      0 <= k < num_classes -> 0 <= i < h_img -> 0 <= j < w_img ->
      1 <= hits wins i j ->
      tget logit 0 k i j
      = (qsum (map (fun win => contribution model img win k i j) wins)
         / Qc_of_Z (hits wins i j))%Qc.
Proof.
  intros Hi Hc Hh Hwc Hhc Hws Hhs Hm.
  destruct (tiled_logit_mean model img c_img h_img w_img w_crop h_crop
              w_stride h_stride num_classes)
    as (logit & log & E & _ & H); try assumption.
  now exists logit, log.
Qed.

Lemma tiled_logit_is_mean_over_covering_windows_witness :
  has_shape (full 1%Qc 1 3 10 10) 1 3 10 10 = true /\ 0 < 4 /\
  exists logit log,
    slide_inference (zero_model 2) (full 1%Qc 1 3 10 10) (4, 4) (4, 4) 2
    = (Ok logit, log) /\
    tget logit 0 1 6 6
    = (qsum (map (fun win => contribution (zero_model 2)
                               (full 1%Qc 1 3 10 10) win 1 6 6)
               (windows 10 10 4 4 4 4 3 3))
       / Qc_of_Z 4)%Qc.
Proof.
  split; [reflexivity|]. split; [lia|].
  destruct (tiled_logit_is_mean_over_covering_windows (zero_model 2)
              (full 1%Qc 1 3 10 10) 3 10 10 4 4 4 4 2)
    as (logit & log & E & H);
    try lia; [reflexivity|apply zero_model_contract; lia|].
  exists logit, log. split; [exact E|].
  apply (H 1 6 6); try lia. vm_compute. discriminate.
Defined.

(** ** A model that commutes with cropping *)

Lemma Qc_of_Z_succ z : Qc_of_Z (z + 1) = (Qc_of_Z z + 1)%Qc.
Proof.
  unfold Qc_of_Z. apply Qc_is_canon. unfold Qcplus, Q2Qc. cbn [this].
  rewrite !Qred_correct, inject_Z_plus. reflexivity.
Qed.

Lemma Qc_of_Z_nonzero z : z <> 0 -> Qc_of_Z z <> 0%Qc.
Proof.
  intros Hz H. unfold Qc_of_Z in H. apply Q2Qc_eq_iff in H.
  unfold Qeq in H. simpl in H. lia.
Qed.

Lemma qsum_indicator wins i j (v : Qc) :
  qsum (map (fun win => if in_window win i j then v else 0%Qc) wins)
  = (Qc_of_Z (hits wins i j) * v)%Qc.
Proof.
  induction wins as [|win wins IH].
  - change (Qc_of_Z (hits [] i j)) with 0%Qc. cbn [map qsum fold_right]. ring.
  - cbn [map].
    change (qsum (?x :: ?l)) with (x + qsum l)%Qc. rewrite IH.
    replace (hits (win :: wins) i j)
      with (hits wins i j + (if in_window win i j then 1 else 0))
      by (unfold hits, len; simpl; destruct (in_window win i j); simpl; lia).
    destruct (in_window win i j).
    + rewrite Qc_of_Z_succ. ring.
    + rewrite Z.add_0_r. ring.
Qed.

Lemma tget_crop (t : tensor) c_t h w h1 h2 w1 w2 k i j :
  shaped t 1 c_t h w -> 0 <= k < c_t ->
  0 <= h1 <= h2 -> h2 <= h -> 0 <= w1 <= w2 -> w2 <= w ->
  h1 <= i < h2 -> w1 <= j < w2 ->
  tget (crop t h1 h2 w1 w2) 0 k (i - h1) (j - w1) = tget t 0 k i j.
Proof.
  intros Ht Hk A1 A2 B1 B2 Hi Hj.
  pose proof (shaped_nth_plane t 1 c_t h w k Ht Hk ltac:(lia)) as [Hph Hpr].
  destruct Ht as [Hn Ht]. rewrite Forall_forall in Ht.
  destruct t as [|im t]; [unfold len in Hn; simpl in Hn; lia|].
  destruct (Ht im (or_introl eq_refl)) as [Hlen _].
  unfold tget, crop. cbn [map nth Z.to_nat] in *.
  set (F := fun pl : list (list Qc) =>
              map (py_slice w1 w2) (py_slice h1 h2 pl)).
  rewrite (nth_indep _ [] (F []))
    by (rewrite length_map; unfold len in Hlen; lia).
  rewrite (map_nth F im [] (Z.to_nat k)). unfold F.
  set (pl := nth (Z.to_nat k) im []) in *.
  rewrite Forall_forall in Hpr.
  rewrite (nth_indep _ [] (py_slice w1 w2 []))
    by (rewrite length_map;
        pose proof (len_py_slice h1 h2 pl ltac:(lia) ltac:(lia)) as L;
        unfold len in L; lia).
  rewrite map_nth.
  rewrite (py_slice_in_bounds h1 h2 pl) by lia.
  rewrite nth_firstn, nth_skipn.
  destruct (Nat.ltb_spec (Z.to_nat (i - h1)) (Z.to_nat (h2 - h1))); [|lia].
  replace (Z.to_nat h1 + Z.to_nat (i - h1))%nat with (Z.to_nat i) by lia.
  assert (Hrow : len (nth (Z.to_nat i) pl []) = w)
    by (apply Hpr, nth_In; unfold len in Hph; lia).
  rewrite (py_slice_in_bounds w1 w2) by lia.
  rewrite nth_firstn, nth_skipn.
  destruct (Nat.ltb_spec (Z.to_nat (j - w1)) (Z.to_nat (w2 - w1))); [|lia].
  f_equal. lia.
Qed.

Lemma shaped_ext (a b : tensor) c h w :
  shaped a 1 c h w -> shaped b 1 c h w ->
  (forall k i j, 0 <= k < c -> 0 <= i < h -> 0 <= j < w ->
                 tget a 0 k i j = tget b 0 k i j) ->
  a = b.
Proof.
  intros Ha Hb H.
  assert (Hpl : forall k, 0 <= k < c ->
            nth (Z.to_nat k) (nth 0 a []) [] = nth (Z.to_nat k) (nth 0 b []) []).
  { intros k Hk.
    destruct (shaped_nth_plane a 1 c h w k Ha Hk ltac:(lia)) as [Ah Ar].
    destruct (shaped_nth_plane b 1 c h w k Hb Hk ltac:(lia)) as [Bh Br].
    rewrite Forall_forall in Ar, Br.
    apply (nth_ext _ _ [] []); [unfold len in *; lia|].
    intros i Hi.
    assert (La : len (nth i (nth (Z.to_nat k) (nth 0 a []) []) []) = w)
      by (apply Ar, nth_In; exact Hi).
    assert (Lb : len (nth i (nth (Z.to_nat k) (nth 0 b []) []) []) = w)
      by (apply Br, nth_In; unfold len in *; lia).
    apply (nth_ext _ _ 0%Qc 0%Qc); [unfold len in *; lia|].
    intros j Hj.
    specialize (H k (Z.of_nat i) (Z.of_nat j) Hk
                  ltac:(unfold len in *; lia) ltac:(unfold len in *; lia)).
    unfold tget in H. cbn [Z.to_nat nth] in H.
    now rewrite !Nat2Z.id in H. }
  destruct Ha as [An Aa], Hb as [Bn Bb].
  destruct a as [|ima [|? ?]]; try (unfold len in An; simpl in An; lia).
  destruct b as [|imb [|? ?]]; try (unfold len in Bn; simpl in Bn; lia).
  apply Forall_inv in Aa, Bb. destruct Aa as [Ac _], Bb as [Bc _].
  f_equal. cbn [nth] in Hpl.
  apply (nth_ext _ _ [] []); [unfold len in *; lia|].
  intros k Hk. specialize (Hpl (Z.of_nat k) ltac:(unfold len in *; lia)).
  now rewrite Nat2Z.id in Hpl.
Qed.

Lemma len_filter_map {A B} (p : B -> bool) (f : A -> B) (l : list A) :
  len (filter p (map f l)) = len (filter (fun x => p (f x)) l).
Proof.
  unfold len. f_equal.
  induction l as [|x l IH]; simpl; [reflexivity|].
  destruct (p (f x)); simpl; now rewrite IH.
Qed.

Lemma length_filter_pairs (p q : Z -> bool) r (lc : list Z) :
  List.length (filter (fun rc : Z * Z => p (fst rc) && q (snd rc))
                      (map (pair r) lc))
  = if p r then List.length (filter q lc) else 0%nat.
Proof.
  induction lc as [|c lc IH]; simpl; [now destruct (p r)|].
  destruct (p r); simpl in *; [|exact IH].
  destruct (q c); simpl; now rewrite IH.
Qed.

Lemma len_filter_grid (p q : Z -> bool) rows cols :
  len (filter (fun rc => p (fst rc) && q (snd rc)) (grid rows cols))
  = len (filter p (range rows)) * len (filter q (range cols)).
Proof.
  unfold grid, len. rewrite <- Nat2Z.inj_mul. f_equal.
  generalize (range cols) as lc. intros lc.
  induction (range rows) as [|r lr IH]; simpl; [reflexivity|].
  rewrite filter_app, length_app, IH, length_filter_pairs.
  destruct (p r); simpl; lia.
Qed.

Lemma in_window_spans h_img w_img h_crop w_crop h_stride w_stride r c i j :
  in_window (window h_img w_img h_crop w_crop h_stride w_stride r c) i j
  = in_span (span r h_stride h_crop h_img) i
    && in_span (span c w_stride w_crop w_img) j.
Proof.
  rewrite window_spans. unfold in_window, in_span.
  now rewrite <- !andb_assoc.
Qed.

Lemma hits_product h_img w_img h_crop w_crop h_stride w_stride rows cols i j :
  hits (windows h_img w_img h_crop w_crop h_stride w_stride rows cols) i j
  = len (filter (fun r => in_span (span r h_stride h_crop h_img) i)
                (range rows))
    * len (filter (fun c => in_span (span c w_stride w_crop w_img) j)
                  (range cols)).
Proof.
  unfold hits, windows. rewrite len_filter_map.
  rewrite <- len_filter_grid. unfold len. do 2 f_equal.
  apply filter_ext. intros [r c]. apply in_window_spans.
Qed.

Lemma range_succ n : range (Z.of_nat (S n)) = range (Z.of_nat n) ++ [Z.of_nat n].
Proof.
  unfold range. rewrite !Nat2Z.id, seq_S, map_app. reflexivity.
Qed.

Lemma count_index_in_range k m :
  0 <= m < k -> len (filter (fun r => r =? m) (range k)) = 1.
Proof.
  intros Hm.
  assert (H : forall n,
            len (filter (fun r => r =? m) (range (Z.of_nat n)))
            = if m <? Z.of_nat n then 1 else 0).
  { induction n as [|n IH].
    - destruct (Z.ltb_spec m (Z.of_nat 0)); [lia|reflexivity].
    - rewrite range_succ, filter_app, len_app, IH. cbn [filter].
      destruct (Z.eqb_spec (Z.of_nat n) m);
        destruct (Z.ltb_spec m (Z.of_nat n));
        destruct (Z.ltb_spec m (Z.of_nat (S n)));
        unfold len; simpl; lia. }
  specialize (H (Z.to_nat k)). rewrite Z2Nat.id in H by lia.
  rewrite H. destruct (Z.ltb_spec m k); [reflexivity|lia].
Qed.

(** Along an axis that windows of length [crop], spaced by [crop], tile
    without overlap, every position is in exactly one window. *)
Lemma tiled_axis_single_cover n crop i :
  0 < crop -> tiles_exactly n crop -> 0 <= i < n ->
  len (filter (fun r => in_span (span r crop crop n) i)
              (range (crop_num n crop crop))) = 1.
Proof.
  intros Hc Ht Hi.
  destruct (Z_le_gt_dec n crop) as [Hn|Hn].
  - rewrite crop_num_small by exact Hn. change (range 1) with [0].
    cbn [filter]. unfold in_span, span. cbn [fst snd].
    rewrite Z.mul_0_l, Z.add_0_l, Z.min_r by lia.
    rewrite Z.max_r by lia.
    destruct (Z.leb_spec 0 i); [|lia]. destruct (Z.ltb_spec i n); [|lia].
    reflexivity.
  - destruct Ht as [Ht|Ht]; [lia|].
    pose proof (Z.div_mod n crop ltac:(lia)) as Dn. rewrite Ht in Dn.
    set (q := n / crop) in *.
    assert (Hk : crop_num n crop crop = q).
    { unfold crop_num. destruct (Z.leb_spec n crop); [lia|].
      rewrite Z.max_l by lia.
      replace (n - crop + crop - 1) with ((q - 1) * crop + (crop - 1)) by lia.
      rewrite Z.div_add_l by lia. rewrite Z.div_small by lia. lia. }
    rewrite Hk.
    pose proof (Z.div_mod i crop ltac:(lia)) as Di.
    pose proof (Z.mod_pos_bound i crop Hc) as Mi.
    set (d := i / crop) in *.
    assert (Hd : 0 <= d < q) by nia.
    rewrite <- (count_index_in_range q d Hd). unfold len. do 2 f_equal.
    apply filter_ext_in. intros r Hr. apply in_range in Hr.
    unfold in_span, span. cbn [fst snd].
    assert (r * crop + crop <= n) by nia.
    rewrite Z.min_l by lia. rewrite Z.max_l by nia.
    destruct (Z.eqb_spec r d) as [->|Hne].
    + destruct (Z.leb_spec (d * crop + crop - crop) i); [|lia].
      destruct (Z.ltb_spec i (d * crop + crop)); [reflexivity|lia].
    + destruct (Z.leb_spec (r * crop + crop - crop) i); [|reflexivity].
      destruct (Z.ltb_spec i (r * crop + crop)); [|reflexivity].
      exfalso. apply Hne. nia.
Qed.

(** X11. Tiling without overlap is exact for a model that commutes with
    cropping.  When the stride equals the crop and each side of the image
    is at most the crop or a multiple of it, every pixel lies in exactly
    one window: its count is 1.  If moreover on every window of the grid
    the model's logit map is the crop of one (1, num_classes, H, W) map
    [whole] (as for a model that scores each pixel from that pixel alone)
    and the model keeps its contract, then the accumulated logit map is
    [whole] already before the division, each pixel having been written
    once, and [slide_inference] returns [whole]. *)
Theorem tiling_exact_for_crop_commuting_model
        (model : model_t) (img whole : tensor)
        (c_img h_img w_img w_crop h_crop num_classes : Z) :
  has_shape img 1 c_img h_img w_img = true -> 1 <= c_img -> 1 <= h_img ->
  0 < w_crop -> 0 < h_crop ->
  tiles_exactly h_img h_crop -> tiles_exactly w_img w_crop ->
  model_contract model num_classes ->
  has_shape whole 1 num_classes h_img w_img = true ->
  (forall win,
     In win (windows h_img w_img h_crop w_crop h_crop w_crop
               (crop_num h_img h_crop h_crop)
               (crop_num w_img w_crop w_crop)) ->
     window_logit model img win = crop_win whole win) ->
  exists count log,
    slide_pass model img (w_crop, h_crop) (w_crop, h_crop) num_classes
    = (Ok (whole, count), log) /\
    (forall i j, 0 <= i < h_img -> 0 <= j < w_img -> count_at count i j = 1) /\
    slide_inference model img (w_crop, h_crop) (w_crop, h_crop) num_classes
    = (Ok whole, log).
Proof.
  intros Hi Hc Hh Hwc Hhc Th Tw Hm Hwhole Hcomm.
  destruct (tiled_pass_sums model img c_img h_img w_img w_crop h_crop
              w_crop h_crop num_classes Hi Hc Hh Hwc Hhc Hwc Hhc Hm)
    as (fl & count & log & E & Hfl & Hcnt & Hval).
  apply has_shape_iff in Hi, Hwhole.
  destruct (shaped_height_width _ _ _ _ _ Hi ltac:(lia) Hc Hh) as [Eh Ew].
  assert (Hw : 0 <= w_img) by (rewrite <- Ew; apply len_nonneg).
  set (wins := windows h_img w_img h_crop w_crop h_crop w_crop
                 (crop_num h_img h_crop h_crop)
                 (crop_num w_img w_crop w_crop)) in *.
  assert (Hone : forall i j, 0 <= i < h_img -> 0 <= j < w_img ->
                             hits wins i j = 1).
  { intros i j Hi0 Hj0. unfold wins. rewrite hits_product.
    rewrite (tiled_axis_single_cover h_img h_crop i Hhc Th Hi0).
    rewrite (tiled_axis_single_cover w_img w_crop j Hwc Tw Hj0).
    reflexivity. }
  assert (Hcount : forall i j, 0 <= i < h_img -> 0 <= j < w_img ->
                               count_at count i j = 1).
  { intros i j Hi0 Hj0.
    assert (Hnc : 0 <= num_classes)
      by exact (contract_classes_nonneg _ _ _ _ _ _ Hm Hi Hc Hh).
    destruct (Z.eq_dec num_classes 0) as [E0|E0].
    - clear Hval.
      assert (Hh0 : h_crop <> 0) by lia. assert (Hw0 : w_crop <> 0) by lia.
      pose proof (crop_nums_value (height img) (width img) h_crop w_crop
                    h_crop w_crop Hh0 Hw0) as En.
      pose proof (slide_pass_count model img w_crop h_crop w_crop h_crop
                    num_classes _ _ fl count log i j En
                    ltac:(lia) ltac:(lia) ltac:(lia) ltac:(lia) E
                    ltac:(lia) ltac:(lia)) as Ecount.
      rewrite Eh, Ew in Ecount. fold wins in Ecount.
      rewrite Ecount. now apply Hone.
    - destruct (Hval 0 i j ltac:(lia) Hi0 Hj0) as [Ec _].
      rewrite Ec. now apply Hone. }
  assert (Efl : fl = whole).
  { apply (shaped_ext _ _ num_classes h_img w_img Hfl Hwhole).
    intros k i j Hk Hi0 Hj0.
    destruct (Hval k i j Hk Hi0 Hj0) as [_ Es]. rewrite Es.
    rewrite (map_ext_in _
               (fun win => if in_window win i j then tget whole 0 k i j
                           else 0%Qc)).
    - rewrite qsum_indicator, (Hone i j Hi0 Hj0).
      change (Qc_of_Z 1) with 1%Qc. ring.
    - intros win Hwin. unfold contribution. rewrite (Hcomm win Hwin).
      pose proof (windows_in_bounds h_img w_img h_crop w_crop h_crop w_crop
                    (crop_num h_img h_crop h_crop)
                    (crop_num w_img w_crop w_crop)
                    ltac:(lia) Hw ltac:(lia) ltac:(lia) ltac:(lia) ltac:(lia))
        as Hb.
      rewrite Forall_forall in Hb. specialize (Hb win Hwin).
      destruct win as [[[h1 h2] w1] w2]. unfold win_in_bounds in Hb.
      cbn [fst snd crop_win].
      destruct (in_window (h1, h2, w1, w2) i j) eqn:Ein; [|reflexivity].
      unfold in_window in Ein.
      apply andb_true_iff in Ein. destruct Ein as [Ein E4].
      apply andb_true_iff in Ein. destruct Ein as [Ein E3].
      apply andb_true_iff in Ein. destruct Ein as [E1 E2].
      apply Z.leb_le in E1, E3. apply Z.ltb_lt in E2, E4.
      apply tget_crop with (c_t := num_classes) (h := h_img) (w := w_img);
        (assumption || lia). }
  subst fl. exists count, log. split; [exact E|]. split; [exact Hcount|].
  unfold slide_inference. rewrite E. cbn [bind ret]. rewrite app_nil_r.
  do 2 f_equal.
  assert (Hdiv : shaped (div_count whole count) 1 num_classes h_img w_img)
    by now apply shaped_div_count.
  apply (shaped_ext _ _ num_classes h_img w_img Hdiv Hwhole).
  intros k i j Hk Hi0 Hj0.
  rewrite (tget_div_count whole count num_classes h_img w_img)
    by assumption.
  rewrite (Hcount i j Hi0 Hj0). change (Qc_of_Z 1) with 1%Qc.
  field. discriminate.
Qed.

Lemma channel0_model_contract coeffs :
  model_contract (channel0_model coeffs) (len coeffs).
Proof.
  intros x c h w Hc Hh Hs. apply has_shape_iff in Hs.
  pose proof (shaped_nth_plane x 1 c h w 0 Hs ltac:(lia) ltac:(lia))
    as [Hph Hpr].
  destruct Hs as [Hn _].
  destruct x as [|im x]; [unfold len in Hn; simpl in Hn; lia|].
  cbn [nth Z.to_nat] in Hph, Hpr.
  eexists _, []. split; [reflexivity|]. apply has_shape_iff.
  cbn [hd]. apply shaped_intro_1.
  - apply len_map.
  - apply Forall_map. apply Forall_forall. intros a _.
    replace (hd [] im) with (nth 0 im []) by now destruct im.
    split; [now rewrite len_map|].
    apply Forall_map. eapply Forall_impl; [|exact Hpr].
    intros row Hrow. now rewrite len_map.
Qed.

Lemma channel0_model_commutes_with_crop coeffs (img : tensor) c h w win :
  shaped img 1 c h w -> 1 <= c ->
  window_logit (channel0_model coeffs) img win
  = crop_win (hd [] (channel0_model coeffs img)) win.
Proof.
  intros [Hn Hs] Hc. rewrite Forall_forall in Hs.
  destruct img as [|im img]; [unfold len in Hn; simpl in Hn; lia|].
  destruct (Hs im (or_introl eq_refl)) as [Hlen _].
  destruct im as [|pl im]; [unfold len in Hlen; simpl in Hlen; lia|].
  destruct win as [[[h1 h2] w1] w2].
  unfold window_logit, channel0_model, crop_win, crop. cbn [hd map].
  do 2 f_equal. rewrite map_map. apply map_ext. intros a.
  rewrite py_slice_map, !map_map. apply map_ext. intros row.
  now rewrite py_slice_map.
Qed.

Lemma tiling_exact_for_crop_commuting_model_witness :
  let img := tensor_of_Z [[[[1; 2; 3; 4]; [5; 6; 7; 8]]]] in
  has_shape img 1 1 2 4 = true /\ 0 < 2 /\
  tiles_exactly 2 2 /\ tiles_exactly 4 2 /\
  exists count log,
    slide_pass (channel0_model [1%Qc]) img (2, 2) (2, 2) 1
    = (Ok (hd [] (channel0_model [1%Qc] img), count), log) /\
    count_at count 1 2 = 1.
Proof.
  cbv zeta. split; [reflexivity|]. split; [lia|].
  split; [left; lia|]. split; [right; reflexivity|].
  destruct (tiling_exact_for_crop_commuting_model (channel0_model [1%Qc])
              (tensor_of_Z [[[[1; 2; 3; 4]; [5; 6; 7; 8]]]])
              (hd [] (channel0_model [1%Qc]
                        (tensor_of_Z [[[[1; 2; 3; 4]; [5; 6; 7; 8]]]])))
              1 2 4 2 2 1)
    as (count & log & E & Hcount & _);
    try lia; try reflexivity.
  - left; lia.
  - right; reflexivity.
  - apply (channel0_model_contract [1%Qc]).
  - intros win _.
    apply (channel0_model_commutes_with_crop [1%Qc] _ 1 2 4);
      [apply has_shape_iff; reflexivity|lia].
  - exists count, log. split; [exact E|]. apply Hcount; lia.
Defined.

(** * The outputs of inference *)

Lemma argmax_step_keeps k best pl h w :
  rows_ok best h w -> rows_ok pl h w ->
  Forall (Forall (fun b : Qc * Z => 0 <= snd b < k)) best ->
  rows_ok (argmax_step k best pl) h w /\
  Forall (Forall (fun b : Qc * Z => 0 <= snd b < k + 1)) (argmax_step k best pl).
Proof.
  intros [Hbh Hbr] [Hph Hpr] Hb. unfold argmax_step.
  assert (Hb' : Forall (fun row => len row = w /\
                          Forall (fun b : Qc * Z => 0 <= snd b < k) row) best).
  { rewrite Forall_forall in *. intros row Hrow. split; auto. }
  destruct (zip_with_shape
              (zip_with (fun (b : Qc * Z) x =>
                 match (fst b ?= x)%Qc with Lt => (x, k) | _ => b end))
              (fun row => len row = w /\
                          Forall (fun b : Qc * Z => 0 <= snd b < k) row)
              (fun row => len row = w)
              (fun row => len row = w /\
                          Forall (fun b : Qc * Z => 0 <= snd b < k + 1) row))
    with (l1 := best) (l2 := pl) as [L F]; [|lia|assumption..|].
  - intros r1 r2 [Hr1 Hk1] Hr2.
    destruct (zip_with_shape
                (fun (b : Qc * Z) x =>
                   match (fst b ?= x)%Qc with Lt => (x, k) | _ => b end)
                (fun b : Qc * Z => 0 <= snd b < k) (fun _ => True)
                (fun b : Qc * Z => 0 <= snd b < k + 1))
      with (l1 := r1) (l2 := r2) as [L' F'];
      [|lia|assumption|apply Forall_forall; trivial|].
    + intros b x Hbk _. destruct (fst b ?= x)%Qc; simpl; lia.
    + split; [lia|exact F'].
  - split.
    + split; [lia|]. eapply Forall_impl; [|exact F]. now intros row [? _].
    + eapply Forall_impl; [|exact F]. now intros row [_ ?].
Qed.

Lemma argmax_scan_keeps rest h w : forall k best,
  0 <= k ->
  rows_ok best h w ->
  Forall (fun pl => rows_ok pl h w) rest ->
  Forall (Forall (fun b : Qc * Z => 0 <= snd b < k)) best ->
  rows_ok (argmax_scan k best rest) h w /\
  Forall (Forall (fun b : Qc * Z => 0 <= snd b < k + len rest))
         (argmax_scan k best rest).
Proof.
  induction rest as [|pl rest IH]; intros k best Hk Hb Hr Hin; simpl.
  - split; [exact Hb|]. unfold len. simpl. now rewrite Z.add_0_r.
  - inversion Hr as [|? ? Hpl Hrest]; subst.
    destruct (argmax_step_keeps k best pl h w Hb Hpl Hin) as [Hb' Hin'].
    destruct (IH (k + 1) _ ltac:(lia) Hb' Hrest Hin') as [S R].
    split; [exact S|]. unfold len in *. cbn [List.length].
    eapply Forall_impl; [|exact R]. intros row Hrow.
    eapply Forall_impl; [|exact Hrow]. intros b Hbk. cbv beta in Hbk. lia.
Qed.

Lemma argmax_chan_keeps im c h w :
  len im = c -> 1 <= c -> Forall (fun pl => rows_ok pl h w) im ->
  exists grid,
    argmax_chan im = Some [grid] /\ rows_ok grid h w /\
    Forall (Forall (fun v => 0 <= v < c)) grid.
Proof.
  intros Hc H1 Him. destruct im as [|pl0 rest];
    [unfold len in Hc; simpl in Hc; lia|].
  inversion Him as [|? ? Hpl Hrest]; subst.
  destruct (argmax_scan_keeps rest h w 1
              (map (map (fun x : Qc => (x, 0))) pl0)) as [[Sh Sr] R];
    try assumption; try lia.
  - destruct Hpl as [Hh Hr]. split; [now rewrite len_map|].
    apply Forall_map. eapply Forall_impl; [|exact Hr].
    intros row Hrow. now rewrite len_map.
  - apply Forall_map. apply Forall_forall. intros row _.
    apply Forall_map. apply Forall_forall. intros x _. simpl. lia.
  - eexists. split; [reflexivity|]. split.
    + split; [now rewrite len_map|].
      apply Forall_map. eapply Forall_impl; [|exact Sr].
      intros row Hrow. now rewrite len_map.
    + apply Forall_map. eapply Forall_impl; [|exact R].
      intros row Hrow. apply Forall_map.
      eapply Forall_impl; [|exact Hrow]. intros b Hb. cbv beta in Hb.
      unfold len in *. cbn [List.length] in *. lia.
Qed.

Lemma paddle_argmax_keeps t n c h w :
  shaped t n c h w -> 1 <= c ->
  exists p,
    paddle_argmax (AccTensor t) = (Ok p, []) /\
    shaped p n 1 h w /\ all_in_range p 0 c.
Proof.
  intros [Hn Ht] Hc. unfold paddle_argmax.
  assert (H : exists p, map_option argmax_chan t = Some p /\
                        len p = len t /\
                        Forall (fun im => len im = 1 /\
                                  Forall (fun pl => rows_ok pl h w) im) p /\
                        all_in_range p 0 c).
  { clear Hn. induction t as [|im t IH].
    - exists []. repeat split; constructor.
    - pose proof (Forall_inv Ht) as [Hlen Him].
      pose proof (Forall_inv_tail Ht) as Hrest.
      destruct (argmax_chan_keeps im c h w Hlen Hc Him)
        as (grid & Eg & Sg & Rg).
      destruct (IH Hrest) as (p & Ep & Lp & Sp & Rp).
      exists ([grid] :: p). simpl. rewrite Eg, Ep.
      split; [reflexivity|]. split; [unfold len in *; simpl; lia|]. split.
      + constructor; [|exact Sp]. split; [reflexivity|]. now constructor.
      + constructor; [|exact Rp]. now constructor. }
  destruct H as (p & Ep & Lp & Sp & Rp). rewrite Ep.
  exists p. split; [reflexivity|]. split; [|exact Rp]. split; [lia|exact Sp].
Qed.

(** X12. The outputs of [inference] in sliding mode are as its docstring
    says.  For a positive crop and stride, a model that keeps its contract
    with at least one class, and a backend that keeps shapes: without
    [ori_shape] it returns the raw logit map, of shape
    (1, num_classes, H, W); with [ori_shape = (h, w)] it returns a
    prediction map of shape (1, 1, h, w) whose every entry is a class
    index in [0, num_classes). *)
Theorem inference_outputs_as_documented
        (B : Backend) (model : model_t) (img : tensor)
        (transforms : transforms_t)
        (c_img h_img w_img w_crop h_crop w_stride h_stride num_classes : Z) :
  has_shape img 1 c_img h_img w_img = true -> 1 <= c_img -> 1 <= h_img ->
  0 < w_crop -> 0 < h_crop -> 0 < w_stride -> 0 < h_stride ->
  model_contract model num_classes -> 1 <= num_classes ->
  backend_keeps_shapes B ->
  (exists logit log,
     inference B model img None transforms true (w_stride, h_stride)
               (w_crop, h_crop) num_classes = (Ok (Logit logit), log) /\
     has_shape logit 1 num_classes h_img w_img = true) /\
  (forall h w, 0 <= h -> 0 <= w ->
     exists pred log,
       inference B model img (Some (h, w)) transforms true
                 (w_stride, h_stride) (w_crop, h_crop) num_classes
       = (Ok (Pred pred), log) /\
       has_shape pred 1 1 h w = true /\
       all_in_range pred 0 num_classes).
Proof.
  intros Hi Hc Hh Hwc Hhc Hws Hhs Hm Hnc [HI HS].
  destruct (tiled_logit_mean model img c_img h_img w_img w_crop h_crop
              w_stride h_stride num_classes)
    as (logit & log & E & Hs & _); try assumption.
  unfold inference. cbn [negb]. rewrite E. split.
  - exists logit, log. simpl. rewrite ?app_nil_r.
    split; [reflexivity|]. now apply has_shape_iff.
  - intros h w H0 W0. cbn [bind F_interpolate ret app].
    pose proof (HS _ _ _ _ _ (HI _ _ _ _ _ h w H0 W0 Hs)) as Hp.
    destruct (paddle_argmax_keeps _ _ _ _ _ Hp Hnc) as (p & Ep & Sp & Rp).
    rewrite Ep. exists p, log. cbn [bind ret app]. rewrite ?app_nil_r.
    split; [reflexivity|]. split; [now apply has_shape_iff|exact Rp].
Qed.

Lemma len_range n : 0 <= n -> len (range n) = n.
Proof. intros H. unfold len. rewrite length_range. lia. Qed.

Lemma plane_sum_keeps pls h w :
  Forall (fun pl : list (list Qc) => rows_ok pl h w) pls -> pls <> [] ->
  rows_ok (plane_sum pls) h w.
Proof.
  intros H Hne. destruct pls as [|p0 rest]; [contradiction|].
  inversion H as [|? ? Hp0 Hrest]; subst. unfold plane_sum.
  clear H Hne. revert p0 Hp0.
  induction rest as [|pl rest IH]; intros p0 Hp0; simpl; [exact Hp0|].
  inversion Hrest as [|? ? Hpl Hrest']; subst. apply IH; [exact Hrest'|].
  destruct Hp0 as [Hh0 Hr0], Hpl as [Hh1 Hr1].
  destruct (zip_with_shape (zip_with Qcplus)
              (fun row => len row = w) (fun row => len row = w)
              (fun row => len row = w))
    with (l1 := p0) (l2 := pl) as [L F]; [|lia|assumption..|].
  - intros r1 r2 Hr1' Hr2'.
    destruct (zip_with_shape Qcplus (fun _ => True) (fun _ => True)
                (fun _ => True))
      with (l1 := r1) (l2 := r2) as [L' _];
      [trivial|lia|apply Forall_forall; trivial..|lia].
  - split; [lia|exact F].
Qed.

Lemma ref_backend_keeps_shapes : backend_keeps_shapes ref_backend.
Proof.
  split.
  - intros x n c h0 w0 h w Hh Hw [Hn Hx]. cbn [interpolate ref_backend].
    unfold bilinear. split; [now rewrite len_map|].
    apply Forall_map. eapply Forall_impl; [|exact Hx].
    intros im [Hc Him]. split; [now rewrite len_map|].
    apply Forall_map. apply Forall_forall. intros pl _. split.
    + unfold resample. now rewrite !len_map, len_range.
    + apply Forall_map. apply Forall_forall. intros row _.
      unfold resample. now rewrite len_map, len_range.
  - intros x n c h w [Hn Hx]. cbn [softmax ref_backend].
    unfold softmax_ref. split; [now rewrite len_map|].
    apply Forall_map. eapply Forall_impl; [|exact Hx].
    intros im [Hc Him]. split; [now rewrite !len_map|].
    assert (He : Forall (fun pl : list (list Qc) => rows_ok pl h w)
                   (map (map (map bump)) im)).
    { apply Forall_map. eapply Forall_impl; [|exact Him].
      intros pl [Hh Hr]. split; [now rewrite len_map|].
      apply Forall_map. eapply Forall_impl; [|exact Hr].
      intros row Hrow. now rewrite len_map. }
    apply Forall_forall. intros pl Hpl. apply in_map_iff in Hpl.
    destruct Hpl as (e & <- & He_in).
    assert (Hne : map (map (map bump)) im <> [])
      by (intros E; rewrite E in He_in; contradiction).
    pose proof (plane_sum_keeps _ h w He Hne) as [Sh Sr].
    rewrite Forall_forall in He. destruct (He e He_in) as [Eh Er].
    destruct (zip_with_shape (zip_with Qcdiv)
                (fun row => len row = w) (fun row => len row = w)
                (fun row => len row = w))
      with (l1 := e) (l2 := plane_sum (map (map (map bump)) im)) as [L F];
      [|lia|assumption..|].
    + intros r1 r2 Hr1 Hr2.
      destruct (zip_with_shape Qcdiv (fun _ => True) (fun _ => True)
                  (fun _ => True))
        with (l1 := r1) (l2 := r2) as [L' _];
        [trivial|lia|apply Forall_forall; trivial..|lia].
    + split; [lia|exact F].
Qed.

Lemma inference_outputs_as_documented_witness :
  has_shape (full 1%Qc 1 3 10 10) 1 3 10 10 = true /\ 0 < 4 /\ 1 <= 2 /\
  exists pred log,
    inference ref_backend (zero_model 2) (full 1%Qc 1 3 10 10) (Some (5, 7))
              [] true (4, 4) (4, 4) 2 = (Ok (Pred pred), log) /\
    has_shape pred 1 1 5 7 = true.
Proof.
  split; [reflexivity|]. split; [lia|]. split; [lia|].
  destruct (inference_outputs_as_documented ref_backend (zero_model 2)
              (full 1%Qc 1 3 10 10) [] 3 10 10 4 4 4 4 2) as [_ H];
    try lia;
    [reflexivity|apply zero_model_contract; lia
    |apply ref_backend_keeps_shapes|].
  destruct (H 5 7 ltac:(lia) ltac:(lia)) as (pred & log & E & Hs & _).
  exists pred, log. split; [exact E|exact Hs].
Defined.

(** * The output of aug_inference *)

Lemma shaped_flip_w {A} (t : tensor4 A) n c h w :
  shaped t n c h w -> shaped (flip_w t) n c h w.
Proof.
  intros [Hn Ht]. unfold flip_w. split; [now rewrite len_map|].
  apply Forall_map. eapply Forall_impl; [|exact Ht].
  intros im [Hc Him]. split; [now rewrite len_map|].
  apply Forall_map. eapply Forall_impl; [|exact Him].
  intros pl [Hh Hr]. split; [now rewrite len_map|].
  apply Forall_map. eapply Forall_impl; [|exact Hr].
  intros row Hrow. now rewrite len_rev.
Qed.

Lemma accum_add_shaped acc p c h w :
  acc = AccNum 0 \/ (exists a, acc = AccTensor a /\ shaped a 1 c h w) ->
  shaped p 1 c h w ->
  exists t, accum_add acc p = (Ok t, []) /\ shaped t 1 c h w.
Proof.
  intros [->|(a & -> & Ha)] Hp; cbn [accum_add].
  - exists (scalar_add 0 p). split; [reflexivity|]. now rewrite scalar_add_zero.
  - now apply tadd_shaped.
Qed.

Lemma aug_step_total B model ori_h ori_w w_stride h_stride w_crop h_crop
      num_classes flip_horizontal h_input w_input scale acc img c_img h0 w0 :
  backend_keeps_shapes B -> model_contract model num_classes ->
  0 < w_crop -> 0 < h_crop -> 0 < w_stride -> 0 < h_stride ->
  0 <= ori_h -> 0 <= ori_w -> 1 <= c_img ->
  0 <= h_input -> 0 <= w_input -> scale_ok h_input w_input scale ->
  shaped img 1 c_img h0 w0 ->
  acc = AccNum 0 \/
  (exists a, acc = AccTensor a /\ shaped a 1 num_classes ori_h ori_w) ->
  exists a' img' log h1 w1,
    aug_step B model (Some (ori_h, ori_w)) (w_stride, h_stride)
             (w_crop, h_crop) num_classes flip_horizontal h_input w_input
             scale (acc, img) = (Ok (AccTensor a', img'), log) /\
    shaped a' 1 num_classes ori_h ori_w /\ shaped img' 1 c_img h1 w1.
Proof.
  intros [HI HS] Hm Hwc Hhc Hws Hhs Hoh How Hc Hh Hw [Hs Hmin] Himg Hacc.
  destruct (scaled_size_cases h_input w_input scale (w_crop, h_crop)
              Hh Hw Hs Hwc) as [_ Hok].
  destruct (Hok Hmin) as (h1 & w1 & Esz & Hge & _). cbn [fst] in Hge.
  unfold aug_step. rewrite Esz. cbn [bind].
  set (img1 := interpolate B img (h1, w1)).
  assert (Himg1 : shaped img1 1 c_img h1 w1)
    by (apply (HI img 1 c_img h0 w0); (lia || exact Himg)).
  destruct (tiled_logit_mean model img1 c_img h1 w1 w_crop h_crop w_stride
              h_stride num_classes)
    as (logit & lg & E & Hl & _); try assumption; try lia;
    [now apply has_shape_iff|].
  rewrite E. cbn [bind F_interpolate ret app].
  set (P := softmax B (interpolate B logit (ori_h, ori_w))).
  assert (HP : shaped P 1 num_classes ori_h ori_w)
    by (apply HS, (HI logit 1 num_classes h1 w1); assumption).
  destruct (accum_add_shaped acc P num_classes ori_h ori_w Hacc HP)
    as (fl & Efl & Hfl).
  rewrite Efl. cbn [bind app]. destruct flip_horizontal.
  - destruct (tiled_logit_mean model (flip_w img1) c_img h1 w1 w_crop h_crop
                w_stride h_stride num_classes)
      as (lf & lg' & E' & Hl' & _); try assumption; try lia;
      [now apply has_shape_iff, shaped_flip_w|].
    rewrite E'. cbn [bind F_interpolate ret app].
    set (P' := softmax B (interpolate B (flip_w lf) (ori_h, ori_w))).
    assert (HP' : shaped P' 1 num_classes ori_h ori_w)
      by (apply HS, (HI (flip_w lf) 1 num_classes h1 w1);
          try assumption; now apply shaped_flip_w).
    destruct (accum_add_shaped (AccTensor fl) P' num_classes ori_h ori_w)
      as (fl2 & Efl2 & Hfl2); [right; now exists fl|exact HP'|].
    rewrite Efl2. cbn [bind ret app].
    now exists fl2, img1, (lg ++ lg' ++ []), h1, w1.
  - cbn [ret]. now exists fl, img1, (lg ++ []), h1, w1.
Qed.

(** X13. [aug_inference] returns what its docstring says.  For a positive
    crop and stride, a model that keeps its contract with at least one
    class, a backend that keeps shapes, and a non-empty list of scales
    each of which is not negative and leaves neither rounded side at 0,
    [aug_inference] with [ori_shape = (h, w)], both sides positive,
    returns a prediction map of shape (1, 1, h, w) whose every entry is a
    class index in [0, num_classes), with or without the horizontal
    flip. *)
Theorem aug_inference_returns_prediction_map
        (B : Backend) (model : model_t) (img : tensor)
        (transforms : transforms_t) (is_slide : bool)
        (c_img h_img w_img ori_h ori_w : Z)
        (w_crop h_crop w_stride h_stride num_classes : Z)
        (scale : Q) (scales : list Q) (flip_horizontal flip_vertical : bool) :
  has_shape img 1 c_img h_img w_img = true -> 1 <= c_img -> 1 <= h_img ->
  0 < w_crop -> 0 < h_crop -> 0 < w_stride -> 0 < h_stride ->
  0 < ori_h -> 0 < ori_w ->
  model_contract model num_classes -> 1 <= num_classes ->
  backend_keeps_shapes B ->
  Forall (scale_ok h_img w_img) (scale :: scales) ->
  exists pred log,
    aug_inference B model img (Some (ori_h, ori_w)) transforms is_slide
                  (w_stride, h_stride) (w_crop, h_crop) num_classes
                  (PyList (scale :: scales)) flip_horizontal flip_vertical
    = (Ok pred, log) /\
    has_shape pred 1 1 ori_h ori_w = true /\
    all_in_range pred 0 num_classes.
Proof.
  intros Hi Hc Hh Hwc Hhc Hws Hhs Hoh How Hm Hnc HB Hsc.
  apply has_shape_iff in Hi.
  destruct (shaped_height_width _ _ _ _ _ Hi ltac:(lia) Hc Hh) as [Eh Ew].
  assert (Hw : 0 <= w_img) by (rewrite <- Ew; apply len_nonneg).
  unfold aug_inference, aug_accumulate. cbn [as_sequence]. cbv zeta.
  rewrite Eh, Ew.
  assert (Hloop : forall l acc im h0 w0,
            Forall (scale_ok h_img w_img) l ->
            shaped im 1 c_img h0 w0 ->
            (exists a, acc = AccTensor a /\
                       shaped a 1 num_classes ori_h ori_w) ->
            exists a' im' log,
              for_each l
                (aug_step B model (Some (ori_h, ori_w)) (w_stride, h_stride)
                   (w_crop, h_crop) num_classes flip_horizontal h_img w_img)
                (acc, im) = (Ok (AccTensor a', im'), log) /\
              shaped a' 1 num_classes ori_h ori_w).
  { induction l as [|s l IH]; intros acc im h0 w0 Hl Him (a & -> & Ha).
    - exists a, im, []. now split.
    - pose proof (Forall_inv Hl) as Hs. pose proof (Forall_inv_tail Hl) as Hl'.
      destruct (aug_step_total B model ori_h ori_w w_stride h_stride w_crop
                  h_crop num_classes flip_horizontal h_img w_img s
                  (AccTensor a) im c_img h0 w0)
        as (a1 & im1 & lg & h1 & w1 & E1 & Ha1 & Him1);
        try assumption; try lia; [right; now exists a|].
      destruct (IH (AccTensor a1) im1 h1 w1 Hl' Him1)
        as (a2 & im2 & lg2 & E2 & Ha2); [now exists a1|].
      exists a2, im2, (lg ++ lg2). split; [|exact Ha2].
      cbn [for_each]. now apply bind_ok with (a := (AccTensor a1, im1)). }
  cbn [for_each].
  destruct (aug_step_total B model ori_h ori_w w_stride h_stride w_crop
              h_crop num_classes flip_horizontal h_img w_img scale
              (AccNum 0) img c_img h_img w_img)
    as (a1 & im1 & lg & h1 & w1 & E1 & Ha1 & Him1);
    try assumption; try lia; [exact (Forall_inv Hsc)|now left|].
  destruct (Hloop scales (AccTensor a1) im1 h1 w1 (Forall_inv_tail Hsc) Him1)
    as (a2 & im2 & lg2 & E2 & Ha2); [now exists a1|].
  destruct (paddle_argmax_keeps _ _ _ _ _ Ha2 Hnc) as (p & Ep & Sp & Rp).
  exists p. eexists. split; [|split; [now apply has_shape_iff|exact Rp]].
  eapply bind_ok; [|exact Ep].
  eapply bind_ok; [eapply bind_ok; [exact E1|exact E2]|reflexivity].
Qed.

Lemma aug_inference_returns_prediction_map_witness :
  has_shape (full 1%Qc 1 3 10 10) 1 3 10 10 = true /\ 0 < 4 /\
  Forall (scale_ok 10 10) [(1 # 2)%Q; 1%Q] /\
  exists pred log,
    aug_inference ref_backend (zero_model 2) (full 1%Qc 1 3 10 10)
                  (Some (5, 7)) [] true (4, 4) (4, 4) 2
                  (PyList [(1 # 2)%Q; 1%Q]) true false = (Ok pred, log) /\
    has_shape pred 1 1 5 7 = true.
Proof.
  assert (Hsc : Forall (scale_ok 10 10) [(1 # 2)%Q; 1%Q]).
  { repeat constructor; (discriminate || reflexivity). }
  split; [reflexivity|]. split; [lia|]. split; [exact Hsc|].
  destruct (aug_inference_returns_prediction_map ref_backend (zero_model 2)
              (full 1%Qc 1 3 10 10) [] true 3 10 10 5 7 4 4 4 4 2
              (1 # 2)%Q [1%Q] true false)
    as (pred & log & E & Hs & _);
    try lia;
    [reflexivity|apply zero_model_contract; lia
    |apply ref_backend_keeps_shapes|exact Hsc|].
  exists pred, log. split; [exact E|exact Hs].
Defined.

(** ** A stride wider than the crop *)

Lemma hits_none wins i j :
  (forall win, In win wins -> in_window win i j = false) -> hits wins i j = 0.
Proof.
  intros H. unfold hits.
  replace (filter (fun win => in_window win i j) wins) with (@nil (Z * Z * Z * Z));
    [reflexivity|].
  induction wins as [|win wins IH]; [reflexivity|]. simpl.
  rewrite (H win (or_introl eq_refl)). apply IH.
  intros w Hw. apply H. now right.
Qed.

(** Along one axis, no window of the grid contains position [crop] when
    the stride exceeds the crop and a second window fits. *)
Lemma gap_after_first_window r stride crop n :
  0 <= r -> 0 <= crop < stride -> crop + stride <= n ->
  let hi := Z.min (r * stride + crop) n in
  (Z.max (hi - crop) 0 <=? crop) && (crop <? hi) = false.
Proof.
  intros Hr Hc Hn hi. unfold hi.
  destruct (Z.eq_dec r 0) as [->|Hr0].
  - rewrite Z.mul_0_l, Z.add_0_l, Z.min_l by lia.
    rewrite Z.ltb_irrefl. apply andb_false_r.
  - assert (stride <= r * stride) by nia.
    replace (Z.max (Z.min (r * stride + crop) n - crop) 0 <=? crop) with false;
      [reflexivity|].
    symmetry. apply Z.leb_gt. lia.
Qed.

(** X14. A stride wider than the crop is not rejected and leaves gaps.
    When the pass completes with [h_crop < h_stride] and an image at least
    [h_crop + h_stride] high, no window contains row [h_crop]: its count is 0
    in every column, which is what line 47 divides by there.  The same holds
    for column [w_crop] when [w_crop < w_stride]. *)
Theorem stride_wider_than_crop_leaves_gap
        (model : model_t) (img : tensor)
        (w_crop h_crop w_stride h_stride num_classes : Z)
        (fl : tensor) (count : tensor4 Z) (log : list tensor) :
  0 <= h_crop -> 0 <= w_crop -> 0 < h_stride -> 0 < w_stride ->
  slide_pass model img (w_crop, h_crop) (w_stride, h_stride) num_classes
  = (Ok (fl, count), log) ->
  (h_crop < h_stride -> h_crop + h_stride <= height img ->
   forall j, 0 <= j -> count_at count h_crop j = 0) /\
  (w_crop < w_stride -> w_crop + w_stride <= width img ->
   forall i, 0 <= i -> count_at count i w_crop = 0).
Proof.
  intros Hhc Hwc Hhs Hws Hp.
  assert (Hh0 : h_stride <> 0) by lia. assert (Hw0 : w_stride <> 0) by lia.
  pose proof (crop_nums_value (height img) (width img) h_crop w_crop
                h_stride w_stride Hh0 Hw0) as En.
  split.
  - intros Hlt Hfit j Hj.
    rewrite (slide_pass_count model img w_crop h_crop w_stride h_stride
               num_classes _ _ fl count log h_crop j En Hhc Hwc
               ltac:(lia) ltac:(lia) Hp Hhc Hj).
    apply hits_none. intros win Hin. unfold windows in Hin.
    apply in_map_iff in Hin. destruct Hin as ([r c] & <- & Hg).
    apply in_grid in Hg. destruct Hg as [Hr _].
    cbn [fst snd]. unfold window, in_window.
    rewrite (gap_after_first_window r h_stride h_crop (height img));
      [reflexivity|lia|lia|lia].
  - intros Hlt Hfit i Hi.
    rewrite (slide_pass_count model img w_crop h_crop w_stride h_stride
               num_classes _ _ fl count log i w_crop En Hhc Hwc
               ltac:(lia) ltac:(lia) Hp Hi Hwc).
    apply hits_none. intros win Hin. unfold windows in Hin.
    apply in_map_iff in Hin. destruct Hin as ([r c] & <- & Hg).
    apply in_grid in Hg. destruct Hg as [_ Hc].
    cbn [fst snd]. unfold window, in_window.
    rewrite <- andb_assoc.
    rewrite (gap_after_first_window c w_stride w_crop (width img));
      [apply andb_false_r|lia|lia|lia].
Qed.

Lemma stride_wider_than_crop_leaves_gap_witness :
  0 <= 3 /\ 0 < 4 /\ 3 < 4 /\
  3 + 4 <= height (full 1%Qc 1 3 8 9) /\
  exists fl count log,
    slide_pass (zero_model 2) (full 1%Qc 1 3 8 9) (3, 3) (4, 4) 2
    = (Ok (fl, count), log) /\
    count_at count 3 5 = 0.
Proof.
  split; [lia|]. split; [lia|]. split; [lia|].
  split; [vm_compute; discriminate|].
  destruct (slide_pass_total (zero_model 2) (full 1%Qc 1 3 8 9) 2 3 8 9
              3 3 4 4) as (fl & count & log & E & _);
    try lia;
    [apply zero_model_contract; lia
    |apply has_shape_iff; reflexivity|].
  exists fl, count, log. split; [exact E|].
  destruct (stride_wider_than_crop_leaves_gap (zero_model 2)
              (full 1%Qc 1 3 8 9) 3 3 4 4 2 fl count log
              ltac:(lia) ltac:(lia) ltac:(lia) ltac:(lia) E) as [H _].
  apply H; [lia|vm_compute; discriminate|lia].
Defined.

(** * Flip symmetry *)

(** ** Mirroring, cropping and element access *)

Lemma mirror_equivariant_images model c :
  mirror_equivariant model -> mirror_equivariant_on_images model c.
Proof.
  intros H x h w _ _. rewrite H. now destruct (model x).
Qed.

Lemma model_contract_restricts model c num_classes :
  model_contract model num_classes -> 1 <= c ->
  model_contract_on model c num_classes.
Proof. intros H Hc x h w Hh Hs. now apply (H x c h w). Qed.









(** ** The mirror image of the window grid *)









(** ** Tiled inference on the mirrored image *)


Lemma pool_model_contract thr : model_contract (pool_model thr) 2.
Proof.
  intros x c h w Hc Hh Hs. apply has_shape_iff in Hs.
  destruct (shaped_height_width _ _ _ _ _ Hs ltac:(lia) Hc Hh) as [Eh Ew].
  assert (Hw : 0 <= w) by (rewrite <- Ew; apply len_nonneg).
  unfold pool_model. rewrite Eh, Ew.
  eexists _, []. split; [reflexivity|]. apply has_shape_iff.
  apply shaped_intro_1; [reflexivity|].
  repeat constructor; apply rows_ok_repeat; lia.
Qed.

Lemma channel0_model_mirror_equivariant coeffs c :
  mirror_equivariant_on_images (channel0_model coeffs) c.
Proof.
  intros x h w _ _. unfold channel0_model, flip_w. cbn [hd map].
  f_equal. f_equal. rewrite map_map.
  replace (hd [] (hd [] (map (map (map (@rev Qc))) x)))
    with (map (@rev Qc) (hd [] (hd [] x)))
    by now destruct x as [|[|pl im] x].
  apply map_ext. intros a. rewrite !map_map. apply map_ext. intros row.
  now rewrite map_rev.
Qed.

(** ** A model known on the images of the run only *)







(** ** The horizontal flip in aug_inference *)


